(** * DeckBuilder: the deck/play engine of the deck-builder component

    A shallow embedding of the state updaters of the [DeckBuilder] React
    component (deck composition, lock/build/shuffle/draw lifecycle, zone
    moves between deck, hand and discard, and play finalisation), followed
    by the properties of the engine stated in the specification.

    Conventions of the embedding.
    - A JavaScript [number] that holds a count is a [Z]; array lengths and
      indices produced by the code itself are [nat].
    - [Record<string, number>] is a [gmap string Z].  [Object.entries]
      becomes [map_to_list]; its order differs from JavaScript's insertion
      order, and every statement below about a built deck is up to
      permutation (the built array is shuffled before it is stored).
    - [setBuilderState (prev => ...)] becomes a function on
      [DeckBuilderState]; values an updater reads from the render closure
      ([builderState], [activePlay], the two lifecycle hooks) are read
      from the [Component] the command is applied to: commands are
      processed one at a time, each on the settled result of the previous.
    - [Math.random] is an entropy stream; [Math.floor (Math.random () * n)]
      is the next element of the stream reduced modulo [n], which ranges
      over exactly the indices [0 .. n-1].
    - The optional fields of [DeckBuilderState] are always present: both
      [defaultState] and [loadState] fill every one of them, so the
      [?? default] fallbacks of the updaters are never taken.
    - [setBuilderState] queues its updater.  React runs the updater before
      [setBuilderState] returns only when no update is pending on the
      component (its eager computation), and otherwise at the next
      render.  Only [draw] reads, right after the call, variables that
      its updater assigns ([drewCard], [depleted]); it takes a flag
      [eager] that tells whether the updater has run by then.  After a
      command that changed the state the next call is not eager.
    - [attachModifier] touches [activePlay] only, through [toggleAttach]
      of utils/playFlow, which is not among the sources; it is not part
      of the command surface modelled here. *)

From Stdlib Require Import ZArith Lia DecimalString.
From stdpp Require Import base tactics option numbers list strings gmap fin_maps.

Local Open Scope Z_scope.

(** ** Data model *)

(** ['unspent' | 'played']; the second is [hand_played] here, [played]
    being the origin of a discard entry. *)
Inductive PlayState := unspent | hand_played.
Inductive Origin := played | discarded.

Record HandEntry := { hand_id : string; hand_state : PlayState }.
Record DiscardEntry := { discard_id : string; discard_origin : Origin }.

Record Card := { card_id : string; card_cost : option Z }.

Record SavedDeck := {
  saved_name : string;
  saved_deck : list string;
  saved_baseCounts : gmap string Z;
  saved_modCounts : gmap string Z;
  saved_nullCount : Z;
  saved_modifierCapacity : Z
}.

Record DeckBuilderState := {
  baseCounts : gmap string Z;
  modCounts : gmap string Z;
  nullCount : Z;
  modifierCapacity : Z;
  hasBuiltDeck : bool;
  hasShuffledDeck : bool;
  deck : list string;
  hand : list HandEntry;
  discard : list DiscardEntry;
  isLocked : bool;
  deckName : string;
  savedDecks : gmap string SavedDeck;
  handLimit : Z
}.

(** The props of the component that the engine reads. *)
Record Props := {
  baseCards : list Card;
  modCards : list Card;
  nullCard : option Card;
  baseTarget : Z;
  minNulls : Z;
  modifierCapacityDefault : Z;
  simpleCounters : bool;
  modCapacityAsCount : bool;
  baseInitialCount : option Z;
  modInitialCount : option Z
}.

(** [ActivePlay] of utils/playFlow: [null] or a base with its modifiers. *)
Record Selection := { baseId : string; mods : list string }.
Definition ActivePlay := option Selection.

(** The hooks of the component: [builderState] and the [useState] cells
    that the commands read or write. *)
Record Component := {
  builderState : DeckBuilderState;
  hasBuiltDeckHook : bool;
  hasShuffledDeckHook : bool;
  opsError : option string;
  activePlay : ActivePlay;
  attachWarningId : option string;
  deckSeed : nat
}.

Definition DEFAULT_BASE_TARGET : Z := 26.
Definition DEFAULT_MIN_NULLS : Z := 5.
Definition DEFAULT_MODIFIER_CAPACITY : Z := 10.
Definition DEFAULT_HAND_LIMIT : Z := 5.
Definition MAX_HAND_LIMIT : Z := 20.

(** ** Spread updates [{ ...prev, field: v }] *)

Definition set_baseCounts (v : gmap string Z) (s : DeckBuilderState) :=
  {| baseCounts := v; modCounts := modCounts s; nullCount := nullCount s;
     modifierCapacity := modifierCapacity s; hasBuiltDeck := hasBuiltDeck s;
     hasShuffledDeck := hasShuffledDeck s; deck := deck s; hand := hand s;
     discard := discard s; isLocked := isLocked s; deckName := deckName s;
     savedDecks := savedDecks s; handLimit := handLimit s |}.

Definition set_modCounts (v : gmap string Z) (s : DeckBuilderState) :=
  {| baseCounts := baseCounts s; modCounts := v; nullCount := nullCount s;
     modifierCapacity := modifierCapacity s; hasBuiltDeck := hasBuiltDeck s;
     hasShuffledDeck := hasShuffledDeck s; deck := deck s; hand := hand s;
     discard := discard s; isLocked := isLocked s; deckName := deckName s;
     savedDecks := savedDecks s; handLimit := handLimit s |}.

Definition set_nullCount (v : Z) (s : DeckBuilderState) :=
  {| baseCounts := baseCounts s; modCounts := modCounts s; nullCount := v;
     modifierCapacity := modifierCapacity s; hasBuiltDeck := hasBuiltDeck s;
     hasShuffledDeck := hasShuffledDeck s; deck := deck s; hand := hand s;
     discard := discard s; isLocked := isLocked s; deckName := deckName s;
     savedDecks := savedDecks s; handLimit := handLimit s |}.

Definition set_modifierCapacity (v : Z) (s : DeckBuilderState) :=
  {| baseCounts := baseCounts s; modCounts := modCounts s; nullCount := nullCount s;
     modifierCapacity := v; hasBuiltDeck := hasBuiltDeck s;
     hasShuffledDeck := hasShuffledDeck s; deck := deck s; hand := hand s;
     discard := discard s; isLocked := isLocked s; deckName := deckName s;
     savedDecks := savedDecks s; handLimit := handLimit s |}.

Definition set_flags (built shuffled : bool) (s : DeckBuilderState) :=
  {| baseCounts := baseCounts s; modCounts := modCounts s; nullCount := nullCount s;
     modifierCapacity := modifierCapacity s; hasBuiltDeck := built;
     hasShuffledDeck := shuffled; deck := deck s; hand := hand s;
     discard := discard s; isLocked := isLocked s; deckName := deckName s;
     savedDecks := savedDecks s; handLimit := handLimit s |}.

Definition set_deck (v : list string) (s : DeckBuilderState) :=
  {| baseCounts := baseCounts s; modCounts := modCounts s; nullCount := nullCount s;
     modifierCapacity := modifierCapacity s; hasBuiltDeck := hasBuiltDeck s;
     hasShuffledDeck := hasShuffledDeck s; deck := v; hand := hand s;
     discard := discard s; isLocked := isLocked s; deckName := deckName s;
     savedDecks := savedDecks s; handLimit := handLimit s |}.

Definition set_hand (v : list HandEntry) (s : DeckBuilderState) :=
  {| baseCounts := baseCounts s; modCounts := modCounts s; nullCount := nullCount s;
     modifierCapacity := modifierCapacity s; hasBuiltDeck := hasBuiltDeck s;
     hasShuffledDeck := hasShuffledDeck s; deck := deck s; hand := v;
     discard := discard s; isLocked := isLocked s; deckName := deckName s;
     savedDecks := savedDecks s; handLimit := handLimit s |}.

Definition set_discard (v : list DiscardEntry) (s : DeckBuilderState) :=
  {| baseCounts := baseCounts s; modCounts := modCounts s; nullCount := nullCount s;
     modifierCapacity := modifierCapacity s; hasBuiltDeck := hasBuiltDeck s;
     hasShuffledDeck := hasShuffledDeck s; deck := deck s; hand := hand s;
     discard := v; isLocked := isLocked s; deckName := deckName s;
     savedDecks := savedDecks s; handLimit := handLimit s |}.

Definition set_isLocked (v : bool) (s : DeckBuilderState) :=
  {| baseCounts := baseCounts s; modCounts := modCounts s; nullCount := nullCount s;
     modifierCapacity := modifierCapacity s; hasBuiltDeck := hasBuiltDeck s;
     hasShuffledDeck := hasShuffledDeck s; deck := deck s; hand := hand s;
     discard := discard s; isLocked := v; deckName := deckName s;
     savedDecks := savedDecks s; handLimit := handLimit s |}.

Definition set_deckName (v : string) (s : DeckBuilderState) :=
  {| baseCounts := baseCounts s; modCounts := modCounts s; nullCount := nullCount s;
     modifierCapacity := modifierCapacity s; hasBuiltDeck := hasBuiltDeck s;
     hasShuffledDeck := hasShuffledDeck s; deck := deck s; hand := hand s;
     discard := discard s; isLocked := isLocked s; deckName := v;
     savedDecks := savedDecks s; handLimit := handLimit s |}.

Definition set_savedDecks (v : gmap string SavedDeck) (s : DeckBuilderState) :=
  {| baseCounts := baseCounts s; modCounts := modCounts s; nullCount := nullCount s;
     modifierCapacity := modifierCapacity s; hasBuiltDeck := hasBuiltDeck s;
     hasShuffledDeck := hasShuffledDeck s; deck := deck s; hand := hand s;
     discard := discard s; isLocked := isLocked s; deckName := deckName s;
     savedDecks := v; handLimit := handLimit s |}.

Definition set_handLimit (v : Z) (s : DeckBuilderState) :=
  {| baseCounts := baseCounts s; modCounts := modCounts s; nullCount := nullCount s;
     modifierCapacity := modifierCapacity s; hasBuiltDeck := hasBuiltDeck s;
     hasShuffledDeck := hasShuffledDeck s; deck := deck s; hand := hand s;
     discard := discard s; isLocked := isLocked s; deckName := deckName s;
     savedDecks := savedDecks s; handLimit := v |}.

Definition set_builderState (v : DeckBuilderState) (c : Component) :=
  {| builderState := v; hasBuiltDeckHook := hasBuiltDeckHook c;
     hasShuffledDeckHook := hasShuffledDeckHook c; opsError := opsError c;
     activePlay := activePlay c; attachWarningId := attachWarningId c;
     deckSeed := deckSeed c |}.

Definition setHasBuiltDeck (v : bool) (c : Component) :=
  {| builderState := builderState c; hasBuiltDeckHook := v;
     hasShuffledDeckHook := hasShuffledDeckHook c; opsError := opsError c;
     activePlay := activePlay c; attachWarningId := attachWarningId c;
     deckSeed := deckSeed c |}.

Definition setHasShuffledDeck (v : bool) (c : Component) :=
  {| builderState := builderState c; hasBuiltDeckHook := hasBuiltDeckHook c;
     hasShuffledDeckHook := v; opsError := opsError c;
     activePlay := activePlay c; attachWarningId := attachWarningId c;
     deckSeed := deckSeed c |}.

Definition setOpsError (v : option string) (c : Component) :=
  {| builderState := builderState c; hasBuiltDeckHook := hasBuiltDeckHook c;
     hasShuffledDeckHook := hasShuffledDeckHook c; opsError := v;
     activePlay := activePlay c; attachWarningId := attachWarningId c;
     deckSeed := deckSeed c |}.

Definition setActivePlay (v : ActivePlay) (c : Component) :=
  {| builderState := builderState c; hasBuiltDeckHook := hasBuiltDeckHook c;
     hasShuffledDeckHook := hasShuffledDeckHook c; opsError := opsError c;
     activePlay := v; attachWarningId := attachWarningId c;
     deckSeed := deckSeed c |}.

Definition setAttachWarningId (v : option string) (c : Component) :=
  {| builderState := builderState c; hasBuiltDeckHook := hasBuiltDeckHook c;
     hasShuffledDeckHook := hasShuffledDeckHook c; opsError := opsError c;
     activePlay := activePlay c; attachWarningId := v;
     deckSeed := deckSeed c |}.

(** [setDeckSeed (s => s + 1)] *)
Definition bumpDeckSeed (c : Component) :=
  {| builderState := builderState c; hasBuiltDeckHook := hasBuiltDeckHook c;
     hasShuffledDeckHook := hasShuffledDeckHook c; opsError := opsError c;
     activePlay := activePlay c; attachWarningId := attachWarningId c;
     deckSeed := S (deckSeed c) |}.

(** ** Small helpers of the module *)

Definition clamp (value min : Z) (max : option Z) : Z :=
  if value <? min then min
  else match max with
       | Some mx => if value >? mx then mx else value
       | None => value
       end.

(** [Object.values(counts).reduce((sum, qty) => sum + qty, 0)] *)
Definition sumCounts (counts : gmap string Z) : Z :=
  map_fold (fun _ qty sum => sum + qty) 0 counts.

(** [counts[cardId] ?? 0] *)
Definition countOf (counts : gmap string Z) (cardId : string) : Z :=
  default 0 (counts !! cardId).

(** JavaScript truthiness of a [string | undefined] that is a string:
    the empty string is falsy. *)
Definition falsy (s : string) : bool := bool_decide (s = ""%string).

(** ** Arrays: [pop], [splice (i, 1)], element swap *)

(** [arr.pop()]: the removed last element (or [undefined]) and the array
    that is left. *)
Definition pop {A} (arr : list A) : option A * list A :=
  (last arr, take (length arr - 1)%nat arr).

(** The start index of [splice (idx, 1)]: a negative [idx] counts from the
    end and is clamped at [0]. *)
Definition spliceStart (len : nat) (idx : Z) : nat :=
  if idx <? 0 then Z.to_nat (Z.max (Z.of_nat len + idx) 0) else Z.to_nat idx.

(** [arr.splice (idx, 1)]: the removed element ([undefined] when the start
    is past the end) and the array that is left. *)
Definition splice1 {A} (idx : Z) (arr : list A) : option A * list A :=
  let i := spliceStart (length arr) idx in (arr !! i, delete i arr).

(** [[arr[i], arr[j]] = [arr[j], arr[i]]] for indices inside the array. *)
Definition swap {A} (i j : nat) (arr : list A) : list A :=
  match arr !! i, arr !! j with
  | Some ai, Some aj => <[j := ai]> (<[i := aj]> arr)
  | _, _ => arr
  end.

(** ** Randomness and the in-place shuffle *)

(** The successive results of [Math.random], as raw naturals. *)
Definition Entropy := nat -> nat.

(** [Math.floor (Math.random () * n)] and the rest of the stream. *)
Definition randomIndex (n : nat) (rnd : Entropy) : nat * Entropy :=
  ((rnd 0%nat) mod n, fun k => rnd (S k))%nat.

(** The loop [for (i = arr.length - 1; i > 0; i--)] of [shuffleInPlace],
    entered at index [i]. *)
Fixpoint shuffleLoop {A} (i : nat) (rnd : Entropy) (arr : list A) : list A * Entropy :=
  match i with
  | O => (arr, rnd)
  | S i' =>
      let '(j, rnd') := randomIndex (i + 1)%nat rnd in
      shuffleLoop i' rnd' (swap i j arr)
  end.

Definition shuffleInPlace {A} (rnd : Entropy) (arr : list A) : list A * Entropy :=
  shuffleLoop (length arr - 1)%nat rnd arr.

Notation "x |> f" := (f x) (at level 45, left associativity, only parsing).

(** ** Capacity accounting *)

(** Modelled from the spec: [getModCapacityUsed] of utils/modCapacity is
    not among the sources.  Cost-weighted policy: the sum over the
    modifier counts of count times that modifier's cost (a card without a
    cost, or an id outside the catalogue, costs [0]). *)
Definition costOf (cards : list Card) (cardId : string) : Z :=
  match list_find (fun c => card_id c = cardId) cards with
  | Some (_, c) => default 0 (card_cost c)
  | None => 0
  end.

Definition getModCapacityUsed (cards : list Card) (counts : gmap string Z) : Z :=
  map_fold (fun cardId qty sum => sum + qty * costOf cards cardId) 0 counts.

(** Modelled from the spec: [canAddModCardFrom] of utils/modCapacity is
    not among the sources.  Cost-weighted policy: the card fits iff the
    current usage plus its cost stays within the capacity. *)
Definition canAddModCardFrom (cards : list Card) (state : DeckBuilderState)
    (cardId : string) : bool :=
  getModCapacityUsed cards (modCounts state) + costOf cards cardId
    <=? modifierCapacity state.

Definition getModUsedSnapshot (p : Props) (state : DeckBuilderState) : Z :=
  if modCapacityAsCount p then sumCounts (modCounts state)
  else getModCapacityUsed (modCards p) (modCounts state).

Definition canAddModCardSnapshot (p : Props) (state : DeckBuilderState)
    (cardId : string) : bool :=
  if simpleCounters p && modCapacityAsCount p then true
  else if modCapacityAsCount p then
    getModUsedSnapshot p state <? modifierCapacity state
  else canAddModCardFrom (modCards p) state cardId.

(** ** Composition validator (the render-time constants) *)

Definition baseTotal (s : DeckBuilderState) : Z := sumCounts (baseCounts s).

Definition modCapacityUsed (p : Props) (s : DeckBuilderState) : Z :=
  if modCapacityAsCount p then sumCounts (modCounts s)
  else getModCapacityUsed (modCards p) (modCounts s).

Definition baseValid (p : Props) (s : DeckBuilderState) : bool :=
  if simpleCounters p then true else baseTotal s =? baseTarget p.

Definition nullValid (p : Props) (s : DeckBuilderState) : bool :=
  nullCount s >=? minNulls p.

Definition modValid (p : Props) (s : DeckBuilderState) : bool :=
  if simpleCounters p && modCapacityAsCount p then true
  else modCapacityUsed p s <=? modifierCapacity s.

Definition deckIsValid (p : Props) (s : DeckBuilderState) : bool :=
  baseValid p s && nullValid p s && modValid p s.

(** ** Initial state *)

Definition buildInitialCounts (cards : list Card) : gmap string Z :=
  foldl (fun acc card => <[card_id card := 0]> acc) ∅ cards.

Definition defaultState (p : Props) : DeckBuilderState :=
  {| baseCounts := buildInitialCounts (baseCards p);
     modCounts := buildInitialCounts (modCards p);
     nullCount := minNulls p;
     modifierCapacity := modifierCapacityDefault p;
     hasBuiltDeck := false; hasShuffledDeck := false;
     deck := []; hand := []; discard := [];
     isLocked := false; deckName := ""%string; savedDecks := ∅;
     handLimit := DEFAULT_HAND_LIMIT |}.

Definition primaryBaseId (p : Props) : option string := card_id <$> head (baseCards p).
Definition primaryModId (p : Props) : option string := card_id <$> head (modCards p).

(** [if (primaryBaseId && totalBase === 0)]: an empty id is falsy. *)
Definition applyInitialCounts (p : Props) (state : DeckBuilderState) : DeckBuilderState :=
  if negb (simpleCounters p) then state
  else
    let totalBase := sumCounts (baseCounts state) in
    let totalMod := sumCounts (modCounts state) in
    let next1 :=
      match primaryBaseId p with
      | Some b =>
          if negb (falsy b) && (totalBase =? 0)
          then set_baseCounts (<[b := default (baseTarget p) (baseInitialCount p)]> (baseCounts state)) state
          else state
      | None => state
      end in
    match primaryModId p with
    | Some m =>
        if negb (falsy m) && (totalMod =? 0)
        then set_modCounts (<[m := default (modifierCapacityDefault p) (modInitialCount p)]> (modCounts next1)) next1
        else next1
    | None => next1
    end.

(** The component on first render with nothing in storage. *)
Definition initialComponent (p : Props) : Component :=
  let initialState := applyInitialCounts p (defaultState p) in
  {| builderState := initialState;
     hasBuiltDeckHook := hasBuiltDeck initialState;
     hasShuffledDeckHook := hasShuffledDeck initialState;
     opsError := None; activePlay := None; attachWarningId := None;
     deckSeed := 0%nat |}.

(** ** Building and shuffling the deck *)

(** [for (let i = 0; i < qty; i++) out.push(id)] *)
Definition pushCopies (out : list string) (entry : string * Z) : list string :=
  out ++ replicate (Z.to_nat entry.2) entry.1.

Definition buildDeckArray (p : Props) (bs : DeckBuilderState) : list string :=
  let out0 := foldl pushCopies [] (map_to_list (baseCounts bs)) in
  let out1 := foldl pushCopies out0 (map_to_list (modCounts bs)) in
  match nullCard p with
  | Some nc => if nullCount bs =? 0 then out1 else pushCopies out1 (card_id nc, nullCount bs)
  | None => out1
  end.

(** [confirmed] is the answer of [window.confirm], asked only when the
    deck has been shuffled before. *)
Definition shuffleDeck (confirmed : bool) (rnd : Entropy) (c : Component) : Component :=
  if hasShuffledDeckHook c && negb confirmed then c
  else
    let prev := builderState c in
    let currentDeck := deck prev in
    let nextDeck :=
      if (length currentDeck =? 0)%nat then currentDeck
      else (shuffleInPlace rnd currentDeck).1 in
    c |> set_builderState (prev |> set_deck nextDeck |> set_flags (hasBuiltDeck prev) true)
      |> bumpDeckSeed
      |> setHasShuffledDeck true
      |> setOpsError None.

Definition resetDeck (p : Props) (rnd : Entropy) (c : Component) : Component :=
  let newDeck := buildDeckArray p (builderState c) in
  c |> set_builderState
         (builderState c |> set_deck (shuffleInPlace rnd newDeck).1
                         |> set_hand [] |> set_discard [] |> set_flags true true)
    |> bumpDeckSeed
    |> setHasBuiltDeck true
    |> setHasShuffledDeck true
    |> setOpsError None.

Definition msgLock : string := "Lock the deck before drawing.".
Definition msgBuild : string := "Build the deck before drawing.".
Definition msgShuffle : string := "Shuffle the deck before drawing.".
Definition msgDepleted : string := "Deck depleted. Refill or rebuild to continue drawing.".

(** [buildDeckArray] reads the rendered [builderState]; the updater
    spreads [prev]. *)
Definition toggleLockDeck (p : Props) (rnd : Entropy) (c : Component) : Component :=
  let prev := builderState c in
  let nextLocked := negb (isLocked prev) in
  (if nextLocked then
     let built := (shuffleInPlace rnd (buildDeckArray p (builderState c))).1 in
     c |> setHasBuiltDeck true
       |> setHasShuffledDeck false
       |> setOpsError (Some msgShuffle)
       |> set_builderState
            (prev |> set_isLocked nextLocked |> set_deck built |> set_hand []
                  |> set_discard [] |> set_flags true false)
   else
     c |> setHasBuiltDeck false
       |> setHasShuffledDeck false
       |> setOpsError None
       |> set_builderState (prev |> set_isLocked nextLocked |> set_flags false false))
  |> bumpDeckSeed.

(** ** Zone moves *)

(** The updater of [draw], with the two flags it sets on the way. *)
Record DrawOutcome := {
  draw_next : DeckBuilderState;
  drewCard : bool;
  depleted : bool
}.

Definition draw_updater (prev : DeckBuilderState) : DrawOutcome :=
  if negb (isLocked prev) then
    {| draw_next := prev; drewCard := false; depleted := false |}
  else if Z.of_nat (length (hand prev)) >=? handLimit prev then
    {| draw_next := prev; drewCard := false; depleted := false |}
  else if (length (deck prev) =? 0)%nat then
    {| draw_next := prev; drewCard := false; depleted := true |}
  else
    match pop (deck prev) with
    | (Some cardId, deck') =>
        if falsy cardId then
          {| draw_next := prev; drewCard := false; depleted := true |}
        else
          {| draw_next :=
               prev |> set_deck deck'
                    |> set_hand (hand prev ++ [{| hand_id := cardId; hand_state := unspent |}])
                    |> set_discard (discard prev);
             drewCard := true; depleted := false |}
    | (None, _) => {| draw_next := prev; drewCard := false; depleted := true |}
    end.

(** [draw]: the updater is applied in either case; the two flags are
    read right after [setBuilderState] returns, and are still [false]
    when the updater has not run by then ([eager = false]): nothing is
    reported and the deck seed is not bumped. *)
Definition draw (eager : bool) (c : Component) : Component :=
  let o := draw_updater (builderState c) in
  let c' := set_builderState (draw_next o) c in
  if eager && drewCard o then c' |> bumpDeckSeed |> setOpsError None
  else if eager && depleted o then c' |> setOpsError (Some msgDepleted)
  else c'.

Definition needsLock (c : Component) : bool := negb (isLocked (builderState c)).
Definition needsBuild (c : Component) : bool :=
  isLocked (builderState c) && negb (hasBuiltDeckHook c).
Definition needsShuffle (c : Component) : bool :=
  isLocked (builderState c) && hasBuiltDeckHook c && negb (hasShuffledDeckHook c).

Definition handleDraw (eager : bool) (c : Component) : Component :=
  if needsLock c then setOpsError (Some msgLock) c
  else if needsBuild c then setOpsError (Some msgBuild) c
  else if needsShuffle c then setOpsError (Some msgShuffle) c
  else draw eager c.

(** The loop of [discardFromDeck] with [n] iterations left: the card is
    popped before the test [if (!cardId) break]. *)
Fixpoint discardFromDeck_loop (n : nat) (deck : list string)
    (discard : list DiscardEntry) : list string * list DiscardEntry :=
  match n with
  | O => (deck, discard)
  | S n' =>
      match pop deck with
      | (Some cardId, deck') =>
          if falsy cardId then (deck', discard)
          else discardFromDeck_loop n' deck'
                 (discard ++ [{| discard_id := cardId; discard_origin := discarded |}])
      | (None, deck') => (deck', discard)
      end
  end.

Definition discardFromDeck_updater (count : Z) (prev : DeckBuilderState) : DeckBuilderState :=
  let '(deck', discard') := discardFromDeck_loop (Z.to_nat count) (deck prev) (discard prev) in
  prev |> set_deck deck' |> set_discard discard'.

Definition discardFromDeck (count : Z) (c : Component) : Component :=
  c |> set_builderState (discardFromDeck_updater count (builderState c)) |> bumpDeckSeed.

Definition returnDiscardToDeck_updater (shuffle toTop : bool) (rnd : Entropy)
    (prev : DeckBuilderState) : DeckBuilderState :=
  let ids := map discard_id (discard prev) in
  let '(ids1, rnd1) := if shuffle then shuffleInPlace rnd ids else (ids, rnd) in
  let deck1 := if toTop then deck prev ++ ids1 else ids1 ++ deck prev in
  let deck2 := if shuffle then (shuffleInPlace rnd1 deck1).1 else deck1 in
  prev |> set_deck deck2 |> set_discard [].

Definition returnDiscardToDeck (shuffle toTop : bool) (rnd : Entropy) (c : Component) : Component :=
  c |> set_builderState (returnDiscardToDeck_updater shuffle toTop rnd (builderState c))
    |> bumpDeckSeed.

(** [None]: [it] is [undefined] and [it.id] throws a TypeError. *)
Definition returnDiscardItemToDeck (idx : Z) (prev : DeckBuilderState) : option DeckBuilderState :=
  match splice1 idx (discard prev) with
  | (Some it, d) => Some (prev |> set_discard d |> set_deck (deck prev ++ [discard_id it]))
  | (None, _) => None
  end.

Definition returnDiscardGroupToDeck (cardId : string) (all : bool)
    (prev : DeckBuilderState) : DeckBuilderState :=
  if all then
    let idsToMove := map discard_id (filter (fun d => discard_id d = cardId) (discard prev)) in
    let remaining := filter (fun d => discard_id d ≠ cardId) (discard prev) in
    prev |> set_discard remaining |> set_deck (deck prev ++ idsToMove)
  else
    match list_find (fun d => discard_id d = cardId) (discard prev) with
    | None => prev
    | Some (idx, it) =>
        prev |> set_discard (delete idx (discard prev))
             |> set_deck (deck prev ++ [discard_id it])
    end.

Definition asUnspent (m : DiscardEntry) : HandEntry :=
  {| hand_id := discard_id m; hand_state := unspent |}.

(** [None]: [it] is [undefined] and [it.id] throws a TypeError. *)
Definition returnDiscardItemToHand (idx : Z) (prev : DeckBuilderState) : option DeckBuilderState :=
  if Z.of_nat (length (hand prev)) >=? handLimit prev then Some prev
  else
    match splice1 idx (discard prev) with
    | (Some it, d) => Some (prev |> set_discard d |> set_hand (hand prev ++ [asUnspent it]))
    | (None, _) => None
    end.

(** The loop of [returnDiscardGroupToHand], about to test index [n - 1]:
    [for (i = discard.length - 1; i >= 0 && moved.length < space; i--)]. *)
Fixpoint returnToHand_loop (cardId : string) (all : bool) (space : Z) (n : nat)
    (discard moved : list DiscardEntry) : list DiscardEntry * list DiscardEntry :=
  match n with
  | O => (discard, moved)
  | S i =>
      if Z.of_nat (length moved) <? space then
        match discard !! i with
        | Some e =>
            if bool_decide (discard_id e = cardId) then
              if all then returnToHand_loop cardId all space i (delete i discard) (moved ++ [e])
              else (delete i discard, moved ++ [e])
            else returnToHand_loop cardId all space i discard moved
        | None => returnToHand_loop cardId all space i discard moved
        end
      else (discard, moved)
  end.

Definition returnDiscardGroupToHand (cardId : string) (all : bool)
    (prev : DeckBuilderState) : DeckBuilderState :=
  let space := Z.max 0 (handLimit prev - Z.of_nat (length (hand prev))) in
  if space <=? 0 then prev
  else
    let '(discard', moved) :=
      returnToHand_loop cardId all space (length (discard prev)) (discard prev) [] in
    if (length moved =? 0)%nat then prev
    else prev |> set_discard discard' |> set_hand (hand prev ++ map asUnspent moved).

(** The loop of [discardGroupFromHand] for [all], about to test index
    [n - 1]. *)
Fixpoint removeAll_loop (cardId : string) (n : nat)
    (hand removed : list HandEntry) : list HandEntry * list HandEntry :=
  match n with
  | O => (hand, removed)
  | S i =>
      match hand !! i with
      | Some h =>
          if bool_decide (hand_id h = cardId)
          then removeAll_loop cardId i (delete i hand) (removed ++ [h])
          else removeAll_loop cardId i hand removed
      | None => removeAll_loop cardId i hand removed
      end
  end.

Definition discardGroupFromHand (cardId : string) (all : bool) (origin : Origin)
    (prev : DeckBuilderState) : DeckBuilderState :=
  let '(hand', removed) :=
    if all then removeAll_loop cardId (length (hand prev)) (hand prev) []
    else
      match list_find (fun h => hand_id h = cardId) (hand prev) with
      | Some (idx, h) => (delete idx (hand prev), [h])
      | None => (hand prev, [])
      end in
  if (length removed =? 0)%nat then prev
  else
    prev |> set_hand hand'
         |> set_discard (discard prev ++
              map (fun r => {| discard_id := hand_id r; discard_origin := origin |}) removed).

(** ** Play protocol *)

(** Modelled from the spec: [finalizeSelection] of utils/playFlow is not
    among the sources.  Finalize is valid only when a base is selected;
    it yields the base and the attached modifiers. *)
Definition finalizeSelection (active : ActivePlay) : option Selection := active.

(** Modelled from the spec: [startPlaySelection] of utils/playFlow is not
    among the sources.  Starting a play replaces any existing one with
    the base and no modifiers. *)
Definition startPlaySelection (prev : ActivePlay) (cardId : string) : ActivePlay :=
  Some {| baseId := cardId; mods := [] |}.

(** Modelled from the spec: [cancelSelection] of utils/playFlow is not
    among the sources.  Cancel clears the selection unconditionally. *)
Definition cancelSelection (active : ActivePlay) : ActivePlay := None.

Definition msgNullOnly : string := "Null cards can only be discarded.".
Definition msgBaseFirst : string := "Select a base before playing modifiers.".

Definition isNullId (p : Props) (cardId : string) : bool :=
  match nullCard p with
  | Some nc => negb (falsy (card_id nc)) && bool_decide (cardId = card_id nc)
  | None => false
  end.

Definition startPlayBase (p : Props) (cardId : string) (c : Component) : Component :=
  if isNullId p cardId then setOpsError (Some msgNullOnly) c
  else if bool_decide (cardId ∈ map card_id (modCards p)) then setOpsError (Some msgBaseFirst) c
  else c |> setOpsError None |> setAttachWarningId None
         |> setActivePlay (startPlaySelection (activePlay c) cardId).

Definition finalizePlay (c : Component) : Component :=
  match finalizeSelection (activePlay c) with
  | None => c
  | Some sel =>
      let s1 := discardGroupFromHand (baseId sel) false played (builderState c) in
      let s2 := foldl (fun s m => discardGroupFromHand m false played s) s1 (mods sel) in
      c |> set_builderState s2 |> setActivePlay None
  end.

Definition cancelPlay (c : Component) : Component :=
  setActivePlay (cancelSelection (activePlay c)) c.

(** ** Composition adjustments *)

Definition adjustBaseCount (p : Props) (cardId : string) (delta : Z)
    (prev : DeckBuilderState) : DeckBuilderState :=
  let current := countOf (baseCounts prev) cardId in
  let next := clamp (current + delta) 0 None in
  let prevTotal := sumCounts (baseCounts prev) in
  let newTotal := prevTotal - current + next in
  if negb (simpleCounters p) && (newTotal >? baseTarget p) then prev
  else set_baseCounts (<[cardId := next]> (baseCounts prev)) prev.

Definition adjustModCount (p : Props) (cardId : string) (delta : Z)
    (prev : DeckBuilderState) : DeckBuilderState :=
  if isLocked prev then prev
  else if (delta >? 0) && negb (canAddModCardSnapshot p prev cardId) then prev
  else
    set_modCounts
      (<[cardId := clamp (countOf (modCounts prev) cardId + delta) 0 None]> (modCounts prev))
      prev.

Definition adjustNullCount (p : Props) (delta : Z) (prev : DeckBuilderState) : DeckBuilderState :=
  set_nullCount (clamp (nullCount prev + delta) (minNulls p) None) prev.

Definition adjustModifierCapacity (delta : Z) (prev : DeckBuilderState) : DeckBuilderState :=
  set_modifierCapacity (Z.max (modifierCapacity prev + delta) 0) prev.

Definition resetBuilder (p : Props) (c : Component) : Component :=
  c |> set_builderState (applyInitialCounts p (defaultState p))
    |> setHasBuiltDeck false
    |> setHasShuffledDeck false
    |> setOpsError None.

(** The [onChange] of the hand-limit input; [next] is the result of
    [Number.parseInt], [None] for [NaN]. *)
Definition setHandLimit (next : option Z) (prev : DeckBuilderState) : DeckBuilderState :=
  set_handLimit
    (match next with
     | None => handLimit prev
     | Some n => clamp n 0 (Some MAX_HAND_LIMIT)
     end) prev.

Definition loadSavedDeck (name : string) (c : Component) : Component :=
  let prev := builderState c in
  c |> set_builderState
         (match savedDecks prev !! name with
          | None => prev
          | Some sd =>
              prev |> set_deck (saved_deck sd)
                   |> set_baseCounts (saved_baseCounts sd)
                   |> set_modCounts (saved_modCounts sd)
                   |> set_nullCount (saved_nullCount sd)
                   |> set_modifierCapacity (saved_modifierCapacity sd)
                   |> set_deckName (saved_name sd)
                   |> set_isLocked false
                   |> set_hand [] |> set_discard []
                   |> set_flags false false
          end)
    |> setHasBuiltDeck false
    |> setHasShuffledDeck false
    |> setOpsError None.

Definition deleteSavedDeck (name : string) (prev : DeckBuilderState) : DeckBuilderState :=
  set_savedDecks (delete name (savedDecks prev)) prev.

(** ** The command surface as a transition system *)

Inductive Command :=
| AdjustBaseCount (cardId : string) (delta : Z)
| AdjustModCount (cardId : string) (delta : Z)
| AdjustNullCount (delta : Z)
| AdjustModifierCapacity (delta : Z)
| ToggleLockDeck (rnd : Entropy)
| ShuffleDeck (confirmed : bool) (rnd : Entropy)
| HandleDraw (eager : bool)
| Draw (eager : bool)
| DiscardFromDeck (count : Z)
| ReturnDiscardToDeck (shuffle toTop : bool) (rnd : Entropy)
| ReturnDiscardItemToDeck (idx : Z)
| ReturnDiscardGroupToDeck (cardId : string) (all : bool)
| ReturnDiscardItemToHand (idx : Z)
| ReturnDiscardGroupToHand (cardId : string) (all : bool)
| DiscardGroupFromHand (cardId : string) (all : bool) (origin : Origin)
| ResetDeck (rnd : Entropy)
| ResetBuilder
| SetHandLimit (next : option Z)
| LoadSavedDeck (name : string)
| DeleteSavedDeck (name : string)
| StartPlayBase (cardId : string)
| FinalizePlay
| CancelPlay.

Definition onState (f : DeckBuilderState -> DeckBuilderState) (c : Component) : option Component :=
  Some (set_builderState (f (builderState c)) c).

Definition onStateOpt (f : DeckBuilderState -> option DeckBuilderState)
    (c : Component) : option Component :=
  s ← f (builderState c); Some (set_builderState s c).

(** One command; [None] when the updater throws. *)
Definition step (p : Props) (cmd : Command) (c : Component) : option Component :=
  match cmd with
  | AdjustBaseCount cardId delta => onState (adjustBaseCount p cardId delta) c
  | AdjustModCount cardId delta => onState (adjustModCount p cardId delta) c
  | AdjustNullCount delta => onState (adjustNullCount p delta) c
  | AdjustModifierCapacity delta => onState (adjustModifierCapacity delta) c
  | ToggleLockDeck rnd => Some (toggleLockDeck p rnd c)
  | ShuffleDeck confirmed rnd => Some (shuffleDeck confirmed rnd c)
  | HandleDraw eager => Some (handleDraw eager c)
  | Draw eager => Some (draw eager c)
  | DiscardFromDeck count => Some (discardFromDeck count c)
  | ReturnDiscardToDeck shuffle toTop rnd => Some (returnDiscardToDeck shuffle toTop rnd c)
  | ReturnDiscardItemToDeck idx => onStateOpt (returnDiscardItemToDeck idx) c
  | ReturnDiscardGroupToDeck cardId all => onState (returnDiscardGroupToDeck cardId all) c
  | ReturnDiscardItemToHand idx => onStateOpt (returnDiscardItemToHand idx) c
  | ReturnDiscardGroupToHand cardId all => onState (returnDiscardGroupToHand cardId all) c
  | DiscardGroupFromHand cardId all origin => onState (discardGroupFromHand cardId all origin) c
  | ResetDeck rnd => Some (resetDeck p rnd c)
  | ResetBuilder => Some (resetBuilder p c)
  | SetHandLimit next => onState (setHandLimit next) c
  | LoadSavedDeck name => Some (loadSavedDeck name c)
  | DeleteSavedDeck name => onState (deleteSavedDeck name) c
  | StartPlayBase cardId => Some (startPlayBase p cardId c)
  | FinalizePlay => Some (finalizePlay c)
  | CancelPlay => Some (cancelPlay c)
  end.

(** A run of commands, each applied to the settled result of the one
    before. *)
Fixpoint run (p : Props) (cmds : list Command) (c : Component) : option Component :=
  match cmds with
  | [] => Some c
  | cmd :: rest => c' ← step p cmd c; run p rest c'
  end.

(** The states the component can be driven to from its first render. *)
Definition reachable (p : Props) (c : Component) : Prop :=
  ∃ cmds, run p cmds (initialComponent p) = Some c.

(** The zone operations: draw, discard from hand or deck, return from
    discard to deck or hand. *)
Definition zoneOp (cmd : Command) : bool :=
  match cmd with
  | HandleDraw _ | Draw _ | DiscardFromDeck _ | ReturnDiscardToDeck _ _ _
  | ReturnDiscardItemToDeck _ | ReturnDiscardGroupToDeck _ _
  | ReturnDiscardItemToHand _ | ReturnDiscardGroupToHand _ _
  | DiscardGroupFromHand _ _ _ => true
  | _ => false
  end.



(** The card ids held by the three zones together. *)
Definition zoneIds (s : DeckBuilderState) : list string :=
  deck s ++ map hand_id (hand s) ++ map discard_id (discard s).

(** Number of copies of [cardId] in a list of ids. *)
Definition copies (cardId : string) (ids : list string) : nat :=
  length (filter (fun x => x = cardId) ids).


(** ** The composition as a multiset, in the words of the specification *)

(** The deck that the composition describes: each id repeated by its
    count. *)
Definition expand (entries : list (string * Z)) : list string :=
  entries ≫= (fun e => replicate (Z.to_nat e.2) e.1).

Definition nullCopies (p : Props) (s : DeckBuilderState) (cardId : string) : nat :=
  match nullCard p with
  | Some nc => if bool_decide (card_id nc = cardId) then Z.to_nat (nullCount s) else 0%nat
  | None => 0%nat
  end.

(** Copies of [cardId] the composition asks for: its base count, its
    modifier count, and the null count if it is the null card. *)
Definition compositionCopies (p : Props) (s : DeckBuilderState) (cardId : string) : nat :=
  (Z.to_nat (countOf (baseCounts s) cardId) + Z.to_nat (countOf (modCounts s) cardId)
   + nullCopies p s cardId)%nat.

(** The rules relaxed so far that the counts of [s] are valid, with the
    catalogue left as it is. *)
Definition relaxedRules (p : Props) (s : DeckBuilderState) : Props :=
  {| baseCards := baseCards p; modCards := modCards p; nullCard := nullCard p;
     baseTarget := baseTarget p; minNulls := nullCount s;
     modifierCapacityDefault := modifierCapacityDefault p;
     simpleCounters := true; modCapacityAsCount := true;
     baseInitialCount := baseInitialCount p; modInitialCount := modInitialCount p |}.

(** What an unlock would leave behind if it destroyed the session. *)
Definition unlockClearsSession (c' : Component) : Prop :=
  deck (builderState c') = [] ∧ hand (builderState c') = [] ∧
  discard (builderState c') = [] ∧
  hasBuiltDeckHook c' = false ∧ hasShuffledDeckHook c' = false.

(** ** Sample catalogue and states (Scenario A of the specification) *)

Definition sampleProps : Props :=
  {| baseCards := [{| card_id := "B1"; card_cost := None |}];
     modCards := [{| card_id := "M1"; card_cost := Some 2 |}];
     nullCard := Some {| card_id := "N"; card_cost := None |};
     baseTarget := DEFAULT_BASE_TARGET; minNulls := DEFAULT_MIN_NULLS;
     modifierCapacityDefault := DEFAULT_MODIFIER_CAPACITY;
     simpleCounters := false; modCapacityAsCount := false;
     baseInitialCount := None; modInitialCount := None |}.

Definition sampleEntropy : Entropy := fun k => k.

(** First render, then "Lock Deck": five nulls, locked and built. *)
Definition lockedSample : Component :=
  toggleLockDeck sampleProps sampleEntropy (initialComponent sampleProps).

(** Scenario A: 26 copies of B1 and five copies of M1 (cost 2). *)
Definition scenarioA_commands : list Command :=
  AdjustBaseCount "B1" 26 :: replicate 5 (AdjustModCount "M1" 1).

Definition scenarioA : Component :=
  default (initialComponent sampleProps)
          (run sampleProps scenarioA_commands (initialComponent sampleProps)).

(** A component whose deck holds three distinct cards. *)
Definition threeCards : Component :=
  set_builderState (set_deck ["a"; "b"; "c"] (builderState lockedSample)) lockedSample.

(** The hand respects its limit. *)
Definition handOK (s : DeckBuilderState) : Prop :=
  Z.of_nat (length (hand s)) <= handLimit s.

(** The entry [draw] pushes on the hand. *)
Definition drawn (cardId : string) : HandEntry :=
  {| hand_id := cardId; hand_state := unspent |}.

(** The entry a discard from hand pushes on the discard pile. *)
Definition discardedAs (origin : Origin) (cardId : string) : DiscardEntry :=
  {| discard_id := cardId; discard_origin := origin |}.

(** The commands that can add cards to the hand. *)
Definition addsToHand (cmd : Command) : bool :=
  match cmd with
  | HandleDraw _ | Draw _ | ReturnDiscardItemToHand _ | ReturnDiscardGroupToHand _ _ => true
  | _ => false
  end.

(** A change of the hand limit that does not cut below the cards held. *)
Definition keepsHand (cmd : Command) (s : DeckBuilderState) : Prop :=
  match cmd with
  | SetHandLimit (Some n) => Z.of_nat (length (hand s)) <= clamp n 0 (Some MAX_HAND_LIMIT)
  | _ => True
  end.

(** [keepsHand] at every command of a run. *)
Fixpoint runKeepsHand (p : Props) (cmds : list Command) (c : Component) : Prop :=
  match cmds with
  | [] => True
  | cmd :: rest =>
      keepsHand cmd (builderState c) ∧
      match step p cmd c with
      | Some c' => runKeepsHand p rest c'
      | None => True
      end
  end.

(** Lock, shuffle, draw one card, then type 0 into the hand-limit input. *)
Definition overLimit_commands : list Command :=
  [ToggleLockDeck sampleEntropy; ShuffleDeck false sampleEntropy; HandleDraw false;
   SetHandLimit (Some 0)].

Definition overLimitSample : Component :=
  default (initialComponent sampleProps)
          (run sampleProps overLimit_commands (initialComponent sampleProps)).

(** Lock, shuffle, draw two cards, then lower the hand limit to 3. *)
Definition withinLimit_commands : list Command :=
  [ToggleLockDeck sampleEntropy; ShuffleDeck false sampleEntropy;
   HandleDraw false; HandleDraw false;
   SetHandLimit (Some 3); HandleDraw false; HandleDraw false].

(** A catalogue whose base card has the empty string as its id. *)
Definition blankProps : Props :=
  {| baseCards := [{| card_id := ""; card_cost := None |}];
     modCards := modCards sampleProps; nullCard := nullCard sampleProps;
     baseTarget := DEFAULT_BASE_TARGET; minNulls := DEFAULT_MIN_NULLS;
     modifierCapacityDefault := DEFAULT_MODIFIER_CAPACITY;
     simpleCounters := false; modCapacityAsCount := false;
     baseInitialCount := None; modInitialCount := None |}.

(** One copy of that card and the five nulls, locked. *)
Definition blankLocked : Component :=
  default (initialComponent blankProps)
          (run blankProps [AdjustBaseCount "" 1; ToggleLockDeck sampleEntropy]
               (initialComponent blankProps)).

(** Lock, shuffle, and draw the five nulls: the deck is empty and the
    hand is at its limit of five. *)
Definition fullHand_commands : list Command :=
  [ToggleLockDeck sampleEntropy; ShuffleDeck false sampleEntropy]
  ++ replicate 5 (HandleDraw false).

Definition fullHandSample : Component :=
  default (initialComponent sampleProps)
          (run sampleProps fullHand_commands (initialComponent sampleProps)).

(** One copy of [cardId] leaves the hand and one arrives on the discard
    pile. *)
Definition movesOneCopy (cardId : string) (s s' : DeckBuilderState) : Prop :=
  S (copies cardId (map hand_id (hand s'))) = copies cardId (map hand_id (hand s)) ∧
  copies cardId (map discard_id (discard s')) = S (copies cardId (map discard_id (discard s))).

(** Finalize as stated: one copy of the base and of each modifier moves. *)
Definition finalizeMovesOneEach (c : Component) (sel : Selection) : Prop :=
  let s := builderState c in
  let s' := builderState (finalizePlay c) in
  movesOneCopy (baseId sel) s s' ∧ Forall (fun m => movesOneCopy m s s') (mods sel).

(** The hand without its first entry for [cardId]. *)
Fixpoint removeFirstCopy (cardId : string) (hd : list HandEntry) : list HandEntry :=
  match hd with
  | [] => []
  | h :: rest =>
      if decide (hand_id h = cardId) then rest else h :: removeFirstCopy cardId rest
  end.

(** The ids a finalize plays, in the order it plays them: each selected
    id in turn, the base first, when the hand still holds a copy of it,
    which is then taken. *)
Fixpoint playedIds (hd : list HandEntry) (selected : list string) : list string :=
  match selected with
  | [] => []
  | x :: rest =>
      if decide (x ∈ map hand_id hd) then x :: playedIds (removeFirstCopy x hd) rest
      else playedIds hd rest
  end.

(** One B1, two M1 and the five nulls, all drawn into a hand of limit 10. *)
Definition allDrawn_commands : list Command :=
  [AdjustBaseCount "B1" 1; AdjustModCount "M1" 2; SetHandLimit (Some 10);
   ToggleLockDeck sampleEntropy; ShuffleDeck false sampleEntropy]
  ++ replicate 8 (HandleDraw false).

Definition allDrawn : Component :=
  default (initialComponent sampleProps)
          (run sampleProps allDrawn_commands (initialComponent sampleProps)).

(** Scenario D: B1 selected with M1 attached. *)
Definition scenarioD : Component :=
  setActivePlay (Some {| baseId := "B1"; mods := ["M1"] |}) allDrawn.

(** "Play Base" on B1, then "Discard" on the same card. *)
Definition orphanPlay_commands : list Command :=
  allDrawn_commands ++ [StartPlayBase "B1"; DiscardGroupFromHand "B1" false discarded].

Definition orphanPlay : Component :=
  default (initialComponent sampleProps)
          (run sampleProps orphanPlay_commands (initialComponent sampleProps)).



(** Scenario B: the Scenario-A composition, locked. *)
Definition scenarioB : Component := toggleLockDeck sampleProps sampleEntropy scenarioA.

(** Scenario C: shuffled, then five draws. *)
Definition scenarioC : Component :=
  default scenarioB
          (run sampleProps (ShuffleDeck false sampleEntropy :: replicate 5 (HandleDraw false)) scenarioB).

(** ** Further definitions: composition invariants, sample states, persistence *)

(** Every count of the map is non-negative. *)
Definition countsNonNeg (counts : gmap string Z) : Prop :=
  map_Forall (fun _ qty => 0 <= qty) counts.

(** The null cards a build adds: the null count when a null card is
    configured. *)
Definition nullTotal (p : Props) (s : DeckBuilderState) : Z :=
  match nullCard p with
  | Some _ => nullCount s
  | None => 0
  end.

(** The sample catalogue with modifier capacity counted in slots. *)
Definition slotProps : Props :=
  {| baseCards := baseCards sampleProps; modCards := modCards sampleProps;
     nullCard := nullCard sampleProps;
     baseTarget := DEFAULT_BASE_TARGET; minNulls := DEFAULT_MIN_NULLS;
     modifierCapacityDefault := 2;
     simpleCounters := false; modCapacityAsCount := true;
     baseInitialCount := None; modInitialCount := None |}.

(** Two modifier slots, both taken by M1. *)
Definition slotsFull : DeckBuilderState :=
  adjustModCount slotProps "M1" 1
    (adjustModCount slotProps "M1" 1 (builderState (initialComponent slotProps))).

(** How many discard entries a return to the hand moves: the matching
    entries (one of them without [all]), as far as the hand has room. *)
Definition returnable (cardId : string) (all : bool) (s : DeckBuilderState) : nat :=
  let space := Z.max 0 (handLimit s - Z.of_nat (length (hand s))) in
  let matching := copies cardId (map discard_id (discard s)) in
  Z.to_nat (Z.min space (Z.of_nat (if all then matching else Nat.min 1 matching))).

(** The pile without its first [k] entries for [cardId], the oldest
    ones; every other entry keeps its place. *)
Fixpoint withoutOldest (k : nat) (cardId : string) (dz : list DiscardEntry)
    : list DiscardEntry :=
  match k, dz with
  | O, _ => dz
  | S _, [] => []
  | S k', e :: rest =>
      if decide (discard_id e = cardId) then withoutOldest k' cardId rest
      else e :: withoutOldest k cardId rest
  end.

(** The pile without its last [k] entries for [cardId], the newest
    ones; every other entry keeps its place. *)
Definition withoutNewest (k : nat) (cardId : string) (dz : list DiscardEntry)
    : list DiscardEntry :=
  reverse (withoutOldest k cardId (reverse dz)).

(** A pile of mixed cards: M1, N, M1, B1, M1. *)
Definition mixedPile : DeckBuilderState :=
  builderState lockedSample
    |> set_handLimit 4
    |> set_hand [drawn "N"; drawn "N"]
    |> set_discard [discardedAs played "M1"; discardedAs discarded "N";
                    discardedAs discarded "M1"; discardedAs played "B1";
                    discardedAs discarded "M1"].

(** Three M1 on the discard pile (one played, two discarded) and two
    cards in a hand of limit four. *)
Definition roomForTwo : DeckBuilderState :=
  builderState lockedSample
    |> set_handLimit 4
    |> set_hand [drawn "N"; drawn "N"]
    |> set_discard [discardedAs played "M1"; discardedAs discarded "N";
                    discardedAs discarded "M1"; discardedAs discarded "M1"].

(** From the full hand of five nulls: discard them all, return one to
    the deck and the rest to the hand, draw, and discard from the deck. *)
Definition zoneRun_commands : list Command :=
  [DiscardGroupFromHand "N" true played; ReturnDiscardGroupToDeck "N" false;
   ReturnDiscardGroupToHand "N" true; Draw false; DiscardFromDeck 1;
   ReturnDiscardToDeck true false sampleEntropy].

Definition zoneRun : Component :=
  default fullHandSample (run sampleProps zoneRun_commands fullHandSample).



(** The lifecycle hooks and the persisted copies of them agree. *)
Definition flagsAgree (c : Component) : Prop :=
  hasBuiltDeckHook c = hasBuiltDeck (builderState c) ∧
  hasShuffledDeckHook c = hasShuffledDeck (builderState c).

Definition notLoadSavedDeck (cmd : Command) : Prop :=
  match cmd with
  | LoadSavedDeck _ => False
  | _ => True
  end.

(** ** Loading and saving the builder state *)

(** A stored record whose fields, where present, have the types of
    [DeckBuilderState], with whole numbers for the numbers: each field
    present or not ([null] counts as not present for [??]).  The code
    casts what [JSON.parse] yields to that type without a check; a
    stored field of another type (a string where a number is expected)
    goes through [Math.max] and [clamp] by JavaScript's coercions and is
    not covered by this record. *)
Record ParsedState := {
  parsed_baseCounts : option (gmap string Z);
  parsed_modCounts : option (gmap string Z);
  parsed_nullCount : option Z;
  parsed_modifierCapacity : option Z;
  parsed_hasBuiltDeck : option bool;
  parsed_hasShuffledDeck : option bool;
  parsed_deck : option (list string);
  parsed_hand : option (list HandEntry);
  parsed_discard : option (list DiscardEntry);
  parsed_isLocked : option bool;
  parsed_deckName : option string;
  parsed_handLimit : option Z;
  parsed_savedDecks : option (gmap string SavedDeck)
}.

(** [{ ...a, ...b }]: the entries of [b] win. *)
Definition spread (a b : gmap string Z) : gmap string Z := b ∪ a.

(** [loadState] on a well-typed stored record.  [stored] is [None]
    when there is no [window], no item under the key, an empty item, or
    an item that does not parse: in each case the code returns the
    default state. *)
Definition loadState (p : Props) (stored : option ParsedState) : DeckBuilderState :=
  match stored with
  | None => defaultState p
  | Some parsed =>
      {| baseCounts := spread (buildInitialCounts (baseCards p))
                              (default ∅ (parsed_baseCounts parsed));
         modCounts := spread (buildInitialCounts (modCards p))
                             (default ∅ (parsed_modCounts parsed));
         nullCount := Z.max (default (minNulls p) (parsed_nullCount parsed)) (minNulls p);
         modifierCapacity :=
           default (modifierCapacityDefault p) (parsed_modifierCapacity parsed);
         hasBuiltDeck := default false (parsed_hasBuiltDeck parsed);
         hasShuffledDeck := default false (parsed_hasShuffledDeck parsed);
         deck := default [] (parsed_deck parsed);
         hand := default [] (parsed_hand parsed);
         discard := default [] (parsed_discard parsed);
         isLocked := default false (parsed_isLocked parsed);
         deckName := default ""%string (parsed_deckName parsed);
         savedDecks := default ∅ (parsed_savedDecks parsed);
         handLimit :=
           clamp (default DEFAULT_HAND_LIMIT (parsed_handLimit parsed)) 0
                 (Some MAX_HAND_LIMIT) |}
  end.

(** The record the persistence effect writes:
    [{ ...builderState, hasBuiltDeck, hasShuffledDeck }], as it parses
    back. *)
Definition persisted (c : Component) : ParsedState :=
  let s := builderState c in
  {| parsed_baseCounts := Some (baseCounts s);
     parsed_modCounts := Some (modCounts s);
     parsed_nullCount := Some (nullCount s);
     parsed_modifierCapacity := Some (modifierCapacity s);
     parsed_hasBuiltDeck := Some (hasBuiltDeckHook c);
     parsed_hasShuffledDeck := Some (hasShuffledDeckHook c);
     parsed_deck := Some (deck s);
     parsed_hand := Some (hand s);
     parsed_discard := Some (discard s);
     parsed_isLocked := Some (isLocked s);
     parsed_deckName := Some (deckName s);
     parsed_handLimit := Some (handLimit s);
     parsed_savedDecks := Some (savedDecks s) |}.


(** Every card of the catalogue has an entry in the count map. *)
Definition coversCatalogue (cards : list Card) (counts : gmap string Z) : Prop :=
  ∀ card, card ∈ cards → is_Some (counts !! card_id card).

(** * Import and export of the stored data (components/ImportExportJSON.tsx)

    [localStorage] is a finite map from keys to texts.  [JSON.parse],
    [JSON.stringify] and [String] are arguments of the functions that
    call them: [parse] returns [None] where [JSON.parse] throws, and
    [toText] is [String(v)].  Reading and removing never throw; a write
    may: [accepts storage key text] tells whether [setItem key text]
    succeeds on [storage] (it throws when the quota is exceeded), and a
    write that throws leaves the storage as it was. *)

(** A JSON value.  Numbers are never inspected by this code. *)
#[warnings="-register-all"]
Inductive Json : Type :=
  | JNull
  | JBool (b : bool)
  | JNum (n : Z)
  | JStr (s : string)
  | JArr (items : list Json)
  | JObj (fields : list (string * Json)).

Abbreviation Storage := (gmap string string).

Definition STORAGE_PREFIX : string := "collapse."%string.

(** [key.startsWith(STORAGE_PREFIX)] *)
Definition isCollapseKey (key : string) : bool := String.prefix STORAGE_PREFIX key.

(** [try { data[key] = JSON.parse(raw) } catch { data[key] = raw }] *)
Definition parseOrRaw (parse : string → option Json) (raw : string) : Json :=
  default (JStr raw) (parse raw).

Definition snapshotCollapseData (parse : string → option Json) (storage : Storage)
    : gmap string Json :=
  foldl (λ data '(key, raw),
           if falsy key || negb (isCollapseKey key) then data
           else <[key := parseOrRaw parse raw]> data)
        ∅ (map_to_list storage).

(** The keys are collected first and removed afterwards. *)
Definition doomedKeys (storage : Storage) : list string :=
  foldl (λ doomed '(key, _),
           if negb (falsy key) && isCollapseKey key then doomed ++ [key] else doomed)
        [] (map_to_list storage).

Definition removeCollapseData (storage : Storage) : Storage :=
  foldl (λ st key, delete key st) storage (doomedKeys storage).

(** [localStorage.setItem(key, text)]; [None] when it throws. *)
Definition setItem (accepts : Storage → string → string → bool)
    (key text : string) (storage : Storage) : option Storage :=
  if accepts storage key text then Some (<[key := text]> storage) else None.

(** [try { setItem(k, JSON.stringify(v)) } catch (e) { setItem(k, String(v)) }];
    [None] when the write in the [catch] throws as well. *)
Definition persistEntry (stringify toText : Json → string)
    (accepts : Storage → string → string → bool)
    (entry : string * Json) (storage : Storage) : option Storage :=
  let '(k, v) := entry in
  match setItem accepts k (stringify v) storage with
  | Some storage' => Some storage'
  | None => setItem accepts k (toText v) storage
  end.

(** The [forEach] over the entries.  The result is the storage as the
    writes left it, and whether the loop ran to its end: an exception
    of the second write leaves the loop and the function. *)
Fixpoint persistCollapseEntries (stringify toText : Json → string)
    (accepts : Storage → string → string → bool)
    (entries : list (string * Json)) (storage : Storage) : Storage * bool :=
  match entries with
  | [] => (storage, true)
  | entry :: rest =>
      match persistEntry stringify toText accepts entry storage with
      | Some storage' => persistCollapseEntries stringify toText accepts rest storage'
      | None => (storage, false)
      end
  end.

(** The property name of an array index. *)
Definition indexKey (i : nat) : string := NilEmpty.string_of_uint (Nat.to_uint i).

(** [Object.entries] of a value whose [typeof] is ['object']. *)
Definition objectEntries (payload : Json) : list (string * Json) :=
  match payload with
  | JObj fields => fields
  | JArr items => imap (λ i v, (indexKey i, v)) items
  | _ => []
  end.

Definition filterCollapseEntries (payload : Json) : list (string * Json) :=
  filter (λ kv, isCollapseKey kv.1 = true) (objectEntries payload).

(** [value && typeof value === 'object'] *)
Definition isObject (value : Json) : bool :=
  match value with
  | JArr _ | JObj _ => true
  | _ => false
  end.

(** Property access [value.name]; the names of an object are distinct. *)
Definition getField (name : string) (value : Json) : option Json :=
  match value with
  | JObj fields => (list_to_map fields : gmap string Json) !! name
  | _ => None
  end.

(** [parsed.data && typeof parsed.data === 'object' ? parsed.data : parsed] *)
Definition importedData (parsed : Json) : Json :=
  match getField "data" parsed with
  | Some data => if isObject data then data else parsed
  | None => parsed
  end.

Inductive ImportError : Type :=
  | ParseError          (* JSON.parse threw *)
  | NotAnObject         (* 'Imported file is not a JSON object' *)
  | NoCollapseData      (* 'Import file does not contain Collapse data ...' *)
  | WriteRefused.       (* the exception of a [setItem] that the [catch] of
                           [persistCollapseEntries] let through *)

(** What the user is told; a backup is downloaded before the
    confirmation is asked. *)
Inductive ImportOutcome : Type :=
  | ImportFailed (err : ImportError)
  | ImportCancelled (backup : gmap string Json)
  | ImportComplete (backup : gmap string Json).

(** The body of [reader.onload] after [JSON.parse] has returned
    [parsed]; [confirmed] is the answer to [window.confirm].  The
    [try] covers the whole body: an exception out of
    [persistCollapseEntries] is reported as a failed import, after the
    namespace has been emptied and some entries may have been written. *)
Definition importParsed (parse : string → option Json) (stringify toText : Json → string)
    (accepts : Storage → string → string → bool)
    (parsed : Json) (confirmed : bool) (storage : Storage) : Storage * ImportOutcome :=
  if negb (isObject parsed) then (storage, ImportFailed NotAnObject)
  else
    let collapseEntries := filterCollapseEntries (importedData parsed) in
    if (length collapseEntries =? 0)%nat then (storage, ImportFailed NoCollapseData)
    else
      let backup := snapshotCollapseData parse storage in
      if negb confirmed then (storage, ImportCancelled backup)
      else
        let '(storage', completed) :=
          persistCollapseEntries stringify toText accepts collapseEntries
            (removeCollapseData storage) in
        if completed then (storage', ImportComplete backup)
        else (storage', ImportFailed WriteRefused).

Definition handleFile (parse : string → option Json) (stringify toText : Json → string)
    (accepts : Storage → string → string → bool)
    (fileText : string) (confirmed : bool) (storage : Storage) : Storage * ImportOutcome :=
  match parse fileText with
  | None => (storage, ImportFailed ParseError)
  | Some parsed => importParsed parse stringify toText accepts parsed confirmed storage
  end.

(** [{ meta, data }] as it is downloaded. *)
Definition exportPayload (meta : Json) (data : gmap string Json) : Json :=
  JObj [("meta"%string, meta); ("data"%string, JObj (map_to_list data))].

(** [None]: the alert 'No Collapse data found to export'. *)
Definition handleExportAll (parse : string → option Json) (meta : Json)
    (storage : Storage) : option Json :=
  let data := snapshotCollapseData parse storage in
  if (length (map_to_list data) =? 0)%nat then None
  else Some (exportPayload meta data).

(** The value the last entry for [key] carries. *)
Definition lastEntry (key : string) (entries : list (string * Json)) : option Json :=
  snd <$> last (filter (λ kv, kv.1 = key) entries).

(** A parser that rejects every text, and the writer that prints a
    string as its own text: every stored text is then kept as a string. *)
Definition rejectAll : string → option Json := λ _, None.

(** A storage without a quota, one that takes no text longer than two
    characters, and one that takes no write at all. *)
Definition acceptAll : Storage → string → string → bool := λ _ _ _, true.

Definition shortOnly : Storage → string → string → bool :=
  λ _ _ text, (String.length text <=? 2)%nat.

Definition refuseAll : Storage → string → string → bool := λ _ _ _, false.

(** [JSON.stringify] and [String] on the strings of the samples. *)
Definition quoted (v : Json) : string :=
  match v with
  | JStr s => String (Ascii.ascii_of_nat 34) (s +:+ String (Ascii.ascii_of_nat 34) "")
  | _ => "null"%string
  end.

Definition plainText (v : Json) : string :=
  match v with
  | JStr s => s
  | _ => ""%string
  end.

Definition sampleImport : Json :=
  JObj [("collapse.deck"%string, JStr "n1"); ("note"%string, JNull)].

(** An export whose [data] is an array, listed after the other fields. *)
Definition arrayImport : Json :=
  JObj [("meta"%string, JNull); ("collapse.deck"%string, JStr "n1");
        ("data"%string, JArr [JStr "a"])].

Definition sampleStorage : Storage :=
  {[ "collapse.deck"%string := "d1"%string;
     "collapse.hand"%string := "h1"%string;
     "theme"%string := "dark"%string ]}.

Definition otherStorage : Storage :=
  {[ "collapse.deck"%string := "old"%string;
     "collapse.campaign"%string := "c0"%string;
     "lang"%string := "en"%string ]}.

(** ** File names of exports and backups *)

Definition digit (n : Z) : Ascii.ascii := Ascii.ascii_of_nat (48 + Z.to_nat n).

(** The decimal digits of a natural number, most significant first;
    [fuel] bounds the number of digits. *)
Fixpoint decimal (fuel : nat) (n : Z) : string :=
  match fuel with
  | O => EmptyString
  | S fuel' =>
      if n <? 10 then String (digit n) EmptyString
      else (decimal fuel' (n / 10) ++ String (digit (n mod 10)) EmptyString)%string
  end.

(** [String (n)] for an integer. *)
Definition numberToString (n : Z) : string :=
  if n <? 0 then ("-" ++ decimal (S (Z.to_nat (- n))) (- n))%string
  else decimal (S (Z.to_nat n)) n.

Definition pad (n : Z) : string :=
  if n <? 10 then ("0" ++ numberToString n)%string else numberToString n.

(** The fields of a [Date] that the stamps read, in local time. *)
Record DateFields := {
  getMonth : Z;
  getDate : Z;
  getFullYear : Z;
  getHours : Z;
  getMinutes : Z;
  getSeconds : Z
}.

(** [s.slice (-2)] *)
Definition sliceLast2 (s : string) : string :=
  String.substring (String.length s - 2) 2 s.

Definition formatMMDDYY (d : DateFields) : string :=
  let mm := pad (getMonth d + 1) in
  let dd := pad (getDate d) in
  let yy := sliceLast2 (numberToString (getFullYear d)) in
  (mm ++ dd ++ yy)%string.

Definition formatHHMMSS (d : DateFields) : string :=
  (pad (getHours d) ++ pad (getMinutes d) ++ pad (getSeconds d))%string.

Definition exportFilename (filenamePrefix : string) (now : DateFields) : string :=
  (filenamePrefix ++ "-" ++ formatMMDDYY now ++ "-" ++ formatHHMMSS now ++ ".json")%string.

(** A date of the calendar, in a year of two digits or more. *)
Definition calendarDate (d : DateFields) : Prop :=
  0 <= getMonth d <= 11 ∧ 1 <= getDate d <= 31 ∧ 10 <= getFullYear d ∧
  0 <= getHours d <= 23 ∧ 0 <= getMinutes d <= 59 ∧ 0 <= getSeconds d <= 59.

Definition twoDigits (n : Z) : string :=
  String (digit (n / 10)) (String (digit (n mod 10)) EmptyString).

Definition sampleDate : DateFields :=
  {| getMonth := 10; getDate := 3; getFullYear := 2026;
     getHours := 7; getMinutes := 43; getSeconds := 58 |}.

(** * The counter controls of the builder (DeckBuilder.tsx) *)

(** [basePrompt] and [modPrompt]: the card a removal is asked for and
    the count shown ([name] is display only). *)
Record Prompt := { prompt_id : string; prompt_qty : Z }.

Record CounterPanel := {
  panelState : DeckBuilderState;
  basePrompt : option Prompt;
  modPrompt : option Prompt
}.

Definition setPanelState (s : DeckBuilderState) (panel : CounterPanel) : CounterPanel :=
  {| panelState := s; basePrompt := basePrompt panel; modPrompt := modPrompt panel |}.

Definition setBasePrompt (v : option Prompt) (panel : CounterPanel) : CounterPanel :=
  {| panelState := panelState panel; basePrompt := v; modPrompt := modPrompt panel |}.

Definition setModPrompt (v : option Prompt) (panel : CounterPanel) : CounterPanel :=
  {| panelState := panelState panel; basePrompt := basePrompt panel; modPrompt := v |}.

(** [if (!primaryBaseId) return] *)
Definition adjustPrimaryBaseCount (p : Props) (delta : Z) (panel : CounterPanel) : CounterPanel :=
  match primaryBaseId p with
  | Some cardId =>
      if falsy cardId then panel
      else setPanelState (adjustBaseCount p cardId delta (panelState panel)) panel
  | None => panel
  end.

Definition handleBaseIncrement (p : Props) (cardId : string) (panel : CounterPanel)
    : CounterPanel :=
  if isLocked (panelState panel) then panel
  else setPanelState (adjustBaseCount p cardId 1 (panelState panel)) panel.

Definition handleBaseContext (cardId : string) (panel : CounterPanel) : CounterPanel :=
  let current := countOf (baseCounts (panelState panel)) cardId in
  if isLocked (panelState panel) || (current <=? 0) then panel
  else setBasePrompt (Some {| prompt_id := cardId; prompt_qty := current |}) panel.

Definition closeBasePrompt (panel : CounterPanel) : CounterPanel := setBasePrompt None panel.

Definition handleBaseRemoveAction (p : Props) (removeAll : bool) (panel : CounterPanel)
    : CounterPanel :=
  match basePrompt panel with
  | None => panel
  | Some prompt =>
      let currentQty := countOf (baseCounts (panelState panel)) (prompt_id prompt) in
      let delta := if removeAll then - currentQty else -1 in
      closeBasePrompt
        (if delta =? 0 then panel
         else setPanelState (adjustBaseCount p (prompt_id prompt) delta (panelState panel)) panel)
  end.

Definition adjustPrimaryModCount (p : Props) (delta : Z) (panel : CounterPanel) : CounterPanel :=
  match primaryModId p with
  | Some cardId =>
      if falsy cardId then panel
      else setPanelState (adjustModCount p cardId delta (panelState panel)) panel
  | None => panel
  end.

Definition handleModIncrement (p : Props) (cardId : string) (panel : CounterPanel)
    : CounterPanel :=
  if isLocked (panelState panel) then panel
  else setPanelState (adjustModCount p cardId 1 (panelState panel)) panel.

Definition handleModContext (cardId : string) (panel : CounterPanel) : CounterPanel :=
  let current := countOf (modCounts (panelState panel)) cardId in
  if isLocked (panelState panel) || (current <=? 0) then panel
  else setModPrompt (Some {| prompt_id := cardId; prompt_qty := current |}) panel.

Definition closeModPrompt (panel : CounterPanel) : CounterPanel := setModPrompt None panel.

Definition handleModRemoveAction (p : Props) (removeAll : bool) (panel : CounterPanel)
    : CounterPanel :=
  match modPrompt panel with
  | None => panel
  | Some prompt =>
      let currentQty := countOf (modCounts (panelState panel)) (prompt_id prompt) in
      let delta := if removeAll then - currentQty else -1 in
      closeModPrompt
        (if delta =? 0 then panel
         else setPanelState (adjustModCount p (prompt_id prompt) delta (panelState panel)) panel)
  end.

(** [canAddModCard]: the render-time test, on the rendered state. *)
Definition canAddModCard (p : Props) (s : DeckBuilderState) (cardId : string) : bool :=
  if simpleCounters p && modCapacityAsCount p then true
  else if modCapacityAsCount p then getModUsedSnapshot p s <? modifierCapacity s
  else canAddModCardFrom (modCards p) s cardId.

(** The buttons and card tiles that change the composition. *)
Inductive Control :=
| BasePrimaryMinus | BasePrimaryPlus
| NullMinus | NullPlus
| CapacityMinus | CapacityPlus
| ModPrimaryMinus | ModPrimaryPlus
| BaseTileTap (cardId : string) | BaseTileContext (cardId : string)
| BaseRemoveOne | BaseRemoveAll | BaseCancel
| ModTileTap (cardId : string) | ModTileContext (cardId : string)
| ModRemoveOne | ModRemoveAll | ModCancel.

(** The [disabled] attribute of each button; a tile is never disabled. *)
Definition disabled (p : Props) (ctl : Control) (panel : CounterPanel) : bool :=
  let s := panelState panel in
  match ctl with
  | BasePrimaryMinus => isLocked s
  | BasePrimaryPlus =>
      isLocked s || (negb (simpleCounters p) && (baseTarget p <=? baseTotal s))
  | NullMinus => (nullCount s <=? minNulls p) || isLocked s
  | NullPlus => isLocked s
  | CapacityMinus | CapacityPlus => false
  | ModPrimaryMinus => isLocked s
  | ModPrimaryPlus =>
      isLocked s ||
      (negb (simpleCounters p) && negb (canAddModCard p s (default ""%string (primaryModId p))))
  | BaseRemoveOne | BaseRemoveAll | ModRemoveOne | ModRemoveAll => isLocked s
  | BaseTileTap _ | BaseTileContext _ | BaseCancel
  | ModTileTap _ | ModTileContext _ | ModCancel => false
  end.

Definition onClick (p : Props) (ctl : Control) (panel : CounterPanel) : CounterPanel :=
  match ctl with
  | BasePrimaryMinus => adjustPrimaryBaseCount p (-1) panel
  | BasePrimaryPlus => adjustPrimaryBaseCount p 1 panel
  | NullMinus => setPanelState (adjustNullCount p (-1) (panelState panel)) panel
  | NullPlus => setPanelState (adjustNullCount p 1 (panelState panel)) panel
  | CapacityMinus => setPanelState (adjustModifierCapacity (-1) (panelState panel)) panel
  | CapacityPlus => setPanelState (adjustModifierCapacity 1 (panelState panel)) panel
  | ModPrimaryMinus => adjustPrimaryModCount p (-1) panel
  | ModPrimaryPlus => adjustPrimaryModCount p 1 panel
  | BaseTileTap cardId => handleBaseIncrement p cardId panel
  | BaseTileContext cardId => handleBaseContext cardId panel
  | BaseRemoveOne => handleBaseRemoveAction p false panel
  | BaseRemoveAll => handleBaseRemoveAction p true panel
  | BaseCancel => closeBasePrompt panel
  | ModTileTap cardId => handleModIncrement p cardId panel
  | ModTileContext cardId => handleModContext cardId panel
  | ModRemoveOne => handleModRemoveAction p false panel
  | ModRemoveAll => handleModRemoveAction p true panel
  | ModCancel => closeModPrompt panel
  end.

(** A click reaches the handler of a button that is not disabled. *)
Definition click (p : Props) (panel : CounterPanel) (ctl : Control) : CounterPanel :=
  if disabled p ctl panel then panel else onClick p ctl panel.

Definition clicks (p : Props) (ctls : list Control) (panel : CounterPanel) : CounterPanel :=
  foldl (click p) panel ctls.


Definition lockedPanel : CounterPanel :=
  {| panelState := builderState lockedSample; basePrompt := None; modPrompt := None |}.

Definition openPanel : CounterPanel :=
  {| panelState := builderState (initialComponent sampleProps);
     basePrompt := None; modPrompt := None |}.

(** The first render with two copies of the first base card tapped in. *)
Definition tappedPanel : CounterPanel :=
  clicks sampleProps [BaseTileTap "B1"%string; BaseTileTap "B1"%string] openPanel.

(** * Attaching a modifier to the active play *)

Definition msgAttachBaseFirst : string := "Select a base before attaching modifiers.".

(** [hand.reduce ((acc, it) => { acc[it.id] = (acc[it.id] ?? 0) + 1 ... }, {})] *)
Definition handCounts (hd : list HandEntry) : gmap string Z :=
  foldl (λ acc it, <[hand_id it := countOf acc (hand_id it) + 1]> acc) ∅ hd.

(** [new Map (all.map (c => [c.id, c]))] over the base cards, the
    modifier cards and the null card. *)
Definition cardLookup (p : Props) : gmap string Card :=
  foldl (λ m c, <[card_id c := c]> m) ∅
        (baseCards p ++ modCards p ++ option_list (nullCard p)).

Definition cardCosts (p : Props) : gmap string Z :=
  foldl (λ acc c, <[card_id c := default 0 (card_cost c)]> acc) ∅
        ((map_to_list (cardLookup p)).*2).

(** [toggleAttach] of utils/playFlow is an argument. *)
Definition attachModifier
    (toggleAttach : ActivePlay → string → gmap string Z → gmap string Z → Z → ActivePlay)
    (p : Props) (cardId : string) (c : Component) : Component :=
  if isNullId p cardId then setOpsError (Some msgNullOnly) c
  else if match activePlay c with
          | Some sel => falsy (baseId sel)
          | None => true
          end
  then c |> setOpsError (Some msgAttachBaseFirst) |> setAttachWarningId (Some cardId)
  else if negb (bool_decide (cardId ∈ map card_id (modCards p))) then c
  else c |> setOpsError None |> setAttachWarningId None
         |> setActivePlay (toggleAttach (activePlay c) cardId
                             (handCounts (hand (builderState c))) (cardCosts p)
                             (modifierCapacity (builderState c))).

(** * The grouped discard list *)

Record DiscardGroup := { group_count : Z; group_idxs : list nat }.

(** The [reduce] of [groupedDiscardElements]. *)
Definition discardGroups (dz : list DiscardEntry) : gmap string DiscardGroup :=
  foldl (λ acc '(i, d),
           let g := default {| group_count := 0; group_idxs := [] |} (acc !! discard_id d) in
           <[discard_id d := {| group_count := group_count g + 1;
                                group_idxs := group_idxs g ++ [i] |}]> acc)
        ∅ (imap (λ i d, (i, d)) dz).

(** The indices of the entries of a card, in increasing order. *)
Definition positions (cardId : string) (dz : list DiscardEntry) : list nat :=
  (filter (λ x, discard_id x.2 = cardId) (imap (λ i d, (i, d)) dz)).*1.
(** * Properties *)

(** Invert one [step]: the new component in terms of the old. *)
Ltac step_inv H :=
  cbn [step] in H; unfold onState, onStateOpt in H;
  first [ injection H as <-
        | let s := fresh "s" in let Hs := fresh "Hs" in
          apply bind_Some in H as (s & Hs & [= <-]) ].

(** ** Arrays and the shuffle *)

Section ArrayFacts.
Context {A : Type}.
Implicit Types (arr rest : list A) (x y : A).

Lemma pop_snoc arr x : pop (arr ++ [x]) = (Some x, arr).
Proof.
  unfold pop. rewrite last_snoc, length_app. simpl.
  replace (length arr + 1 - 1)%nat with (length arr) by lia.
  by rewrite take_app_length.
Qed.

Lemma pop_inv arr :
  (arr = [] ∧ pop arr = (None, [])) ∨ (∃ rest x, arr = rest ++ [x] ∧ pop arr = (Some x, rest)).
Proof.
  destruct arr as [|a arr'] using rev_ind.
  - by left.
  - right. exists arr', a. split; [done | apply pop_snoc].
Qed.

Lemma insert_cons_Permutation arr i x y :
  arr !! i = Some x → x :: <[i := y]> arr ≡ₚ y :: arr.
Proof.
  revert i. induction arr as [|a arr IH]; intros [|i] Hi; simplify_eq/=.
  - apply Permutation_swap.
  - rewrite (Permutation_swap a x), (IH i Hi). apply Permutation_swap.
Qed.

Lemma swap_Permutation i j arr : swap i j arr ≡ₚ arr.
Proof.
  unfold swap.
  destruct (arr !! i) as [ai|] eqn:Hi; [|done].
  destruct (arr !! j) as [aj|] eqn:Hj; [|done].
  assert (Hj' : <[i := aj]> arr !! j = Some aj).
  { destruct (decide (i = j)) as [->|Hne].
    - apply list_lookup_insert_eq. by eapply lookup_lt_Some.
    - by rewrite list_lookup_insert_ne. }
  apply (Permutation_cons_inv (a := aj)).
  rewrite (insert_cons_Permutation _ _ _ ai Hj').
  by apply insert_cons_Permutation.
Qed.

Lemma shuffleLoop_Permutation i rnd arr : (shuffleLoop i rnd arr).1 ≡ₚ arr.
Proof.
  revert rnd arr. induction i as [|i IH]; intros rnd arr; simpl; [done|].
  rewrite IH. apply swap_Permutation.
Qed.

Lemma shuffleInPlace_Permutation rnd arr : (shuffleInPlace rnd arr).1 ≡ₚ arr.
Proof. apply shuffleLoop_Permutation. Qed.
End ArrayFacts.

(** Every index the shuffle draws lies inside the part still to place. *)
Lemma randomIndex_bound n rnd : (0 < n)%nat → ((randomIndex n rnd).1 < n)%nat.
Proof. intros Hn. simpl. apply Nat.mod_upper_bound. lia. Qed.

Lemma copies_Permutation cardId (l k : list string) :
  l ≡ₚ k → copies cardId l = copies cardId k.
Proof. intros H. unfold copies. by rewrite H. Qed.

Lemma copies_app cardId (l k : list string) :
  copies cardId (l ++ k) = (copies cardId l + copies cardId k)%nat.
Proof. unfold copies. by rewrite filter_app, length_app. Qed.

Lemma copies_cons cardId x (l : list string) :
  copies cardId (x :: l) = ((if bool_decide (x = cardId) then 1 else 0) + copies cardId l)%nat.
Proof.
  unfold copies. rewrite filter_cons.
  case_bool_decide; case_decide; simplify_eq/=; done.
Qed.

Lemma copies_replicate cardId n x :
  copies cardId (replicate n x) = if bool_decide (x = cardId) then n else 0%nat.
Proof.
  induction n as [|n IH]; simpl.
  - by case_bool_decide.
  - rewrite copies_cons, IH. by case_bool_decide.
Qed.

(** C7.  Whatever indices the random source yields, [shuffleDeck] leaves
    in [deck] a permutation of what was there: same length, same number
    of copies of every card id; [hand] and [discard] are untouched.  When
    the shuffle is carried out (first shuffle, or confirmed), the
    shuffled flag is raised. *)
Theorem shuffleDeck_permutes (confirmed : bool) (rnd : Entropy) (c : Component) :
  let s := builderState c in
  let s' := builderState (shuffleDeck confirmed rnd c) in
  deck s' ≡ₚ deck s ∧
  length (deck s') = length (deck s) ∧
  (∀ cardId, copies cardId (deck s') = copies cardId (deck s)) ∧
  hand s' = hand s ∧
  discard s' = discard s ∧
  (hasShuffledDeckHook c && negb confirmed = false →
     hasShuffledDeckHook (shuffleDeck confirmed rnd c) = true ∧ hasShuffledDeck s' = true).
Proof.
  intros s s'.
  assert (Hperm : deck s' ≡ₚ deck s).
  { subst s s'. unfold shuffleDeck.
    destruct (hasShuffledDeckHook c && negb confirmed); [done|]. cbn.
    destruct (length (deck (builderState c)) =? 0)%nat; [done|].
    apply shuffleInPlace_Permutation. }
  split_and!.
  - done.
  - by rewrite Hperm.
  - intros cardId. by apply copies_Permutation.
  - subst s s'. unfold shuffleDeck. by destruct (hasShuffledDeckHook c && negb confirmed).
  - subst s s'. unfold shuffleDeck. by destruct (hasShuffledDeckHook c && negb confirmed).
  - intros Hgo. subst s s'. unfold shuffleDeck. by rewrite Hgo.
Qed.

Lemma shuffleDeck_permutes_witness :
  deck (builderState (shuffleDeck false sampleEntropy threeCards)) = ["c"; "b"; "a"] ∧
  hasShuffledDeckHook (shuffleDeck false sampleEntropy threeCards) = true.
Proof.
  split; [reflexivity|].
  pose proof (shuffleDeck_permutes false sampleEntropy threeCards) as H.
  cbv zeta in H. destruct H as (_ & _ & _ & _ & _ & H). by destruct H.
Defined.

(** ** Building the deck from the composition *)

Lemma foldl_pushCopies out entries :
  foldl pushCopies out entries = out ++ expand entries.
Proof.
  revert out. induction entries as [|e entries IH]; intros out; simpl.
  - by rewrite app_nil_r.
  - rewrite IH. unfold pushCopies. by rewrite <-app_assoc.
Qed.

Lemma copies_expand_map cardId (m : gmap string Z) :
  copies cardId (expand (map_to_list m)) = Z.to_nat (countOf m cardId).
Proof.
  unfold countOf. induction m as [|i x m Hi IH] using map_ind.
  - by rewrite map_to_list_empty, lookup_empty.
  - unfold expand in *.
    rewrite (copies_Permutation _ _ _
               (bind_Permutation _ _ _ (map_to_list_insert m i x Hi))).
    cbn [mbind list_bind]. rewrite copies_app, copies_replicate, IH. simpl.
    case_bool_decide as Heq.
    + subst i. rewrite lookup_insert_eq, Hi. simpl. lia.
    + by rewrite lookup_insert_ne.
Qed.

Lemma buildDeckArray_copies p s cardId :
  copies cardId (buildDeckArray p s) = compositionCopies p s cardId.
Proof.
  unfold buildDeckArray, compositionCopies, nullCopies.
  rewrite !foldl_pushCopies. simpl.
  destruct (nullCard p) as [nc|].
  - destruct (Z.eqb_spec (nullCount s) 0) as [H0|H0].
    + rewrite copies_app, !copies_expand_map, H0. by case_bool_decide.
    + unfold pushCopies. simpl.
      by rewrite !copies_app, !copies_expand_map, copies_replicate.
  - rewrite copies_app, !copies_expand_map. lia.
Qed.

Lemma buildDeckArray_rules p p' s :
  nullCard p' = nullCard p → buildDeckArray p' s = buildDeckArray p s.
Proof. intros H. unfold buildDeckArray. by rewrite H. Qed.

(** ** Lock and unlock *)

Lemma toggleLockDeck_lock p rnd c :
  isLocked (builderState c) = false →
  toggleLockDeck p rnd c =
    c |> setHasBuiltDeck true |> setHasShuffledDeck false
      |> setOpsError (Some msgShuffle)
      |> set_builderState
           (builderState c |> set_isLocked true
              |> set_deck (shuffleInPlace rnd (buildDeckArray p (builderState c))).1
              |> set_hand [] |> set_discard [] |> set_flags true false)
      |> bumpDeckSeed.
Proof. intros H. unfold toggleLockDeck. by rewrite H. Qed.

Lemma toggleLockDeck_unlock p rnd c :
  isLocked (builderState c) = true →
  toggleLockDeck p rnd c =
    c |> setHasBuiltDeck false |> setHasShuffledDeck false
      |> setOpsError None
      |> set_builderState (builderState c |> set_isLocked false |> set_flags false false)
      |> bumpDeckSeed.
Proof. intros H. unfold toggleLockDeck. by rewrite H. Qed.

Lemma locked_deck p rnd c :
  isLocked (builderState c) = false →
  deck (builderState (toggleLockDeck p rnd c))
  = (shuffleInPlace rnd (buildDeckArray p (builderState c))).1.
Proof. intros H. by rewrite toggleLockDeck_lock. Qed.

Lemma locked_deck_copies p rnd c cardId :
  isLocked (builderState c) = false →
  copies cardId (deck (builderState (toggleLockDeck p rnd c)))
  = compositionCopies p (builderState c) cardId.
Proof.
  intros H. rewrite locked_deck by done.
  rewrite (copies_Permutation _ _ _ (shuffleInPlace_Permutation _ _)).
  apply buildDeckArray_copies.
Qed.

(** C4.  Lock on an unlocked builder sets [isLocked], stores in [deck] a
    permutation of the composition (for every id as many copies as its
    base count, its modifier count, and the null count if it is the null
    card), empties [hand] and [discard], sets built and clears shuffled
    (field and hook alike) and reports the shuffle-before-drawing notice.
    Lock on a locked builder is the unlock: [isLocked] and both flags are
    cleared. *)
Theorem toggleLockDeck_toggles (p : Props) (rnd : Entropy) (c : Component) :
  let s := builderState c in
  let c' := toggleLockDeck p rnd c in
  let s' := builderState c' in
  if isLocked s then
    isLocked s' = false ∧
    hasBuiltDeck s' = false ∧ hasShuffledDeck s' = false ∧
    hasBuiltDeckHook c' = false ∧ hasShuffledDeckHook c' = false
  else
    isLocked s' = true ∧
    deck s' ≡ₚ buildDeckArray p s ∧
    (∀ cardId, copies cardId (deck s') = compositionCopies p s cardId) ∧
    hand s' = [] ∧ discard s' = [] ∧
    hasBuiltDeck s' = true ∧ hasShuffledDeck s' = false ∧
    hasBuiltDeckHook c' = true ∧ hasShuffledDeckHook c' = false ∧
    opsError c' = Some msgShuffle.
Proof.
  intros s s' c'. subst s s' c'.
  destruct (isLocked (builderState c)) eqn:Hl.
  - by rewrite toggleLockDeck_unlock.
  - split_and!; try (by rewrite toggleLockDeck_lock).
    + rewrite locked_deck by done. apply shuffleInPlace_Permutation.
    + intros cardId. by apply locked_deck_copies.
Qed.

(** C6, as the code has it.  Unlocking a locked session clears
    [isLocked] and the built and shuffled flags (fields and hooks) and
    the notice; [deck], [hand], [discard] and the composition stay as
    they are. *)
Theorem unlock_resets_flags_keeps_zones (p : Props) (rnd : Entropy) (c : Component) :
  isLocked (builderState c) = true →
  let s := builderState c in
  let c' := toggleLockDeck p rnd c in
  let s' := builderState c' in
  isLocked s' = false ∧
  hasBuiltDeck s' = false ∧ hasShuffledDeck s' = false ∧
  hasBuiltDeckHook c' = false ∧ hasShuffledDeckHook c' = false ∧
  opsError c' = None ∧
  deck s' = deck s ∧ hand s' = hand s ∧ discard s' = discard s ∧
  baseCounts s' = baseCounts s ∧ modCounts s' = modCounts s ∧
  nullCount s' = nullCount s ∧ modifierCapacity s' = modifierCapacity s ∧
  handLimit s' = handLimit s.
Proof. intros H s c' s'. subst s c' s'. by rewrite toggleLockDeck_unlock. Qed.

Lemma unlock_resets_flags_keeps_zones_witness :
  isLocked (builderState lockedSample) = true ∧
  length (deck (builderState (toggleLockDeck sampleProps sampleEntropy lockedSample))) = 5%nat ∧
  hasBuiltDeckHook (toggleLockDeck sampleProps sampleEntropy lockedSample) = false.
Proof.
  split; [reflexivity|].
  pose proof (unlock_resets_flags_keeps_zones sampleProps sampleEntropy lockedSample
                eq_refl) as H.
  cbv zeta in H. destruct H as (_ & _ & _ & Hb & _ & _ & Hd & _).
  split; [by rewrite Hd | exact Hb].
Defined.

(** C6 as stated fails: after lock and unlock the five nulls are still
    in [deck]. *)
Lemma unlock_clears_zones_counterexample :
  isLocked (builderState lockedSample) = true ∧
  ¬ unlockClearsSession (toggleLockDeck sampleProps sampleEntropy lockedSample).
Proof.
  split; [reflexivity|]. intros (Hdeck & _). vm_compute in Hdeck. discriminate.
Qed.

Lemma relaxedRules_valid p s : deckIsValid (relaxedRules p s) s = true.
Proof.
  unfold deckIsValid, baseValid, nullValid, modValid. simpl.
  rewrite andb_true_r. apply Z.geb_le. lia.
Qed.

(** C10.  Lock never reads the validator: on every unlocked builder,
    whether its composition is valid or not, it locks, builds and stores
    the deck of the current counts; the outcome is the same under any
    other rules for the same catalogue, among them rules under which
    these counts are valid.  The same holds for the rebuild of
    [resetDeck]; [shuffleDeck] and [handleDraw] take no rules at all. *)
Theorem lock_ignores_validity (p : Props) (rnd : Entropy) (c : Component) :
  isLocked (builderState c) = false →
  let c' := toggleLockDeck p rnd c in
  isLocked (builderState c') = true ∧
  hasBuiltDeckHook c' = true ∧
  (∀ cardId, copies cardId (deck (builderState c'))
             = compositionCopies p (builderState c) cardId) ∧
  (∀ p', nullCard p' = nullCard p →
         toggleLockDeck p' rnd c = c' ∧ resetDeck p' rnd c = resetDeck p rnd c) ∧
  (∃ p', deckIsValid p' (builderState c) = true ∧ toggleLockDeck p' rnd c = c').
Proof.
  intros Hl c'. subst c'. split_and!.
  - by rewrite toggleLockDeck_lock.
  - by rewrite toggleLockDeck_lock.
  - intros cardId. by apply locked_deck_copies.
  - intros p' Hn. unfold toggleLockDeck, resetDeck.
    by rewrite (buildDeckArray_rules p p').
  - exists (relaxedRules p (builderState c)). split; [apply relaxedRules_valid|].
    unfold toggleLockDeck. by rewrite (buildDeckArray_rules p (relaxedRules p _)).
Qed.

Lemma lock_ignores_validity_witness :
  deckIsValid sampleProps (builderState (initialComponent sampleProps)) = false ∧
  isLocked (builderState lockedSample) = true ∧
  copies "N" (deck (builderState lockedSample)) = 5%nat.
Proof.
  split; [reflexivity|].
  pose proof (lock_ignores_validity sampleProps sampleEntropy
                (initialComponent sampleProps) eq_refl) as H.
  cbv zeta in H. destruct H as (Hl & _ & Hc & _).
  split; [exact Hl|]. unfold lockedSample. rewrite Hc. reflexivity.
Defined.


(** ** Composition validator *)

(** C3.  The validator is a function of the rules and the builder state
    alone.  [baseValid] is true in simple-counters mode and otherwise
    holds iff the base counts sum to [baseTarget]; [nullValid] holds iff
    [nullCount >= minNulls]; [modValid] is true when simple-counters and
    capacity-as-count are both set and otherwise holds iff the capacity
    used (the raw count in capacity-as-count mode, the cost-weighted sum
    otherwise) is at most [modifierCapacity]; [deckIsValid] is their
    conjunction. *)
Theorem validator_spec (p : Props) (s : DeckBuilderState) :
  (simpleCounters p = true → baseValid p s = true) ∧
  (simpleCounters p = false →
     (baseValid p s = true ↔ sumCounts (baseCounts s) = baseTarget p)) ∧
  (nullValid p s = true ↔ nullCount s >= minNulls p) ∧
  (simpleCounters p = true → modCapacityAsCount p = true → modValid p s = true) ∧
  (simpleCounters p && modCapacityAsCount p = false →
     (modValid p s = true ↔ modCapacityUsed p s <= modifierCapacity s)) ∧
  (modCapacityAsCount p = true → modCapacityUsed p s = sumCounts (modCounts s)) ∧
  (modCapacityAsCount p = false →
     modCapacityUsed p s = getModCapacityUsed (modCards p) (modCounts s)) ∧
  (deckIsValid p s = true ↔
     baseValid p s = true ∧ nullValid p s = true ∧ modValid p s = true).
Proof.
  unfold deckIsValid, baseValid, nullValid, modValid, modCapacityUsed, baseTotal.
  split_and!.
  - by intros ->.
  - intros ->. apply Z.eqb_eq.
  - rewrite Z.geb_le. lia.
  - by intros -> ->.
  - intros ->. apply Z.leb_le.
  - by intros ->.
  - by intros ->.
  - rewrite !andb_true_iff. tauto.
Qed.

Lemma validator_spec_witness :
  sumCounts (baseCounts (builderState scenarioA)) = 26 ∧
  modCapacityUsed sampleProps (builderState scenarioA) = 10 ∧
  deckIsValid sampleProps (builderState scenarioA) = true.
Proof.
  pose proof (validator_spec sampleProps (builderState scenarioA))
    as (_ & Hb & Hn & _ & Hm & _ & Hu & Hv).
  assert (Hsum : sumCounts (baseCounts (builderState scenarioA)) = 26) by reflexivity.
  assert (Hused : modCapacityUsed sampleProps (builderState scenarioA) = 10) by reflexivity.
  split; [exact Hsum|]. split; [exact Hused|].
  apply Hv. split_and!.
  - apply (Hb eq_refl). exact Hsum.
  - apply Hn. vm_compute. discriminate.
  - apply (Hm eq_refl). rewrite Hused. vm_compute. discriminate.
Defined.

(** Scenario A, last step: one more M1 does not fit and changes nothing. *)
Lemma scenarioA_sixth_modifier_rejected :
  adjustModCount sampleProps "M1" 1 (builderState scenarioA) = builderState scenarioA.
Proof. by vm_compute. Qed.

(** ** Count adjustments and the lock *)

Lemma adjustModCount_locked p cardId delta s :
  isLocked s = true → adjustModCount p cardId delta s = s.
Proof. intros H. unfold adjustModCount. by rewrite H. Qed.

Lemma adjustNullCount_any p delta s :
  nullCount (adjustNullCount p delta s) = clamp (nullCount s + delta) (minNulls p) None.
Proof. reflexivity. Qed.

Lemma adjustBaseCount_within_target p cardId delta s :
  simpleCounters p = false →
  sumCounts (baseCounts s) - countOf (baseCounts s) cardId
    + clamp (countOf (baseCounts s) cardId + delta) 0 None <= baseTarget p →
  baseCounts (adjustBaseCount p cardId delta s)
  = <[cardId := clamp (countOf (baseCounts s) cardId + delta) 0 None]> (baseCounts s).
Proof.
  intros Hs Hle. unfold adjustBaseCount. rewrite Hs. simpl.
  destruct (Z.gtb_spec
              (sumCounts (baseCounts s) - countOf (baseCounts s) cardId
               + clamp (countOf (baseCounts s) cardId + delta) 0 None)
              (baseTarget p)); [lia | done].
Qed.

(** Where the lock is tested.  [adjustModCount] tests the lock itself;
    [adjustBaseCount] and [adjustNullCount] have no lock test of their
    own and rely on their callers: called directly on the locked sample
    they would raise the count of B1 from 0 to 1 and the null count from
    5 to 6.  The component calls them only from handlers that test the
    lock and from buttons that are disabled while the deck is locked. *)
Example adjust_counts_while_locked :
  let s := builderState lockedSample in
  isLocked s = true ∧
  countOf (baseCounts s) "B1" = 0 ∧
  countOf (baseCounts (adjustBaseCount sampleProps "B1" 1 s)) "B1" = 1 ∧
  nullCount s = 5 ∧
  nullCount (adjustNullCount sampleProps 1 s) = 6 ∧
  adjustModCount sampleProps "M1" 1 s = s.
Proof. cbv zeta. split_and!; reflexivity. Qed.

(** ** Zone moves, one by one *)

Lemma draw_updater_cases prev :
  (draw_next (draw_updater prev) = prev ∧ drewCard (draw_updater prev) = false) ∨
  (∃ d x, deck prev = d ++ [x] ∧ x ≠ ""%string ∧ isLocked prev = true ∧
          Z.of_nat (length (hand prev)) < handLimit prev ∧
          drewCard (draw_updater prev) = true ∧
          depleted (draw_updater prev) = false ∧
          draw_next (draw_updater prev)
          = prev |> set_deck d |> set_hand (hand prev ++ [drawn x])
                 |> set_discard (discard prev)).
Proof.
  unfold draw_updater.
  destruct (isLocked prev); cbn [negb]; [|by left].
  destruct (Z.geb_spec (Z.of_nat (length (hand prev))) (handLimit prev)); [by left|].
  destruct (pop_inv (deck prev)) as [[Hd Hp]|(d & x & Hd & Hp)]; rewrite Hp, Hd.
  - by left.
  - rewrite length_app. simpl.
    replace (length d + 1 =? 0)%nat with false by (symmetry; apply Nat.eqb_neq; lia).
    unfold falsy. case_bool_decide; [by left|].
    right. exists d, x. by rewrite <-Hd.
Qed.

Lemma builderState_draw eager c :
  builderState (draw eager c) = draw_next (draw_updater (builderState c)).
Proof.
  unfold draw. destruct (eager && drewCard _); [done|]. by destruct (eager && depleted _).
Qed.

Lemma builderState_handleDraw eager c :
  builderState (handleDraw eager c) = builderState c ∨
  builderState (handleDraw eager c) = builderState (draw eager c).
Proof.
  unfold handleDraw.
  destruct (needsLock c); [by left|].
  destruct (needsBuild c); [by left|].
  destruct (needsShuffle c); [by left | by right].
Qed.

Lemma discardFromDeck_loop_Permutation n (dk : list string) dc dk' dc' :
  ""%string ∉ dk →
  discardFromDeck_loop n dk dc = (dk', dc') →
  dk' ++ map discard_id dc' ≡ₚ dk ++ map discard_id dc.
Proof.
  revert dk dc. induction n as [|n IH]; intros dk dc Hne Hloop;
    cbn [discardFromDeck_loop] in Hloop.
  - by simplify_eq.
  - destruct (pop_inv dk) as [[-> Hp]|(d & x & -> & Hp)]; rewrite Hp in Hloop.
    + by simplify_eq.
    + unfold falsy in Hloop. case_bool_decide as Hx.
      * subst x. exfalso. apply Hne. set_solver.
      * apply IH in Hloop; [|set_solver].
        rewrite Hloop, map_app. simpl. solve_Permutation.
Qed.

Lemma splice1_Some {A} idx (arr : list A) it rest :
  splice1 idx arr = (Some it, rest) → arr ≡ₚ it :: rest ∧ S (length rest) = length arr.
Proof.
  unfold splice1. intros [= Hit <-]. split.
  - by apply delete_Permutation.
  - rewrite length_delete by eauto. apply lookup_lt_Some in Hit. lia.
Qed.

Lemma list_find_delete {A} (P : A → Prop) `{∀ x, Decision (P x)} (l : list A) i x :
  list_find P l = Some (i, x) → l ≡ₚ x :: delete i l ∧ P x ∧ S (length (delete i l)) = length l.
Proof.
  intros (Hi & HP & _)%list_find_Some. split_and!; [by apply delete_Permutation | done |].
  rewrite length_delete by eauto. apply lookup_lt_Some in Hi. lia.
Qed.

Lemma returnToHand_loop_spec cardId all space n dc moved dc' moved' :
  returnToHand_loop cardId all space n dc moved = (dc', moved') →
  dc' ++ moved' ≡ₚ dc ++ moved ∧
  (Z.of_nat (length moved) <= space → Z.of_nat (length moved') <= space).
Proof.
  revert dc moved. induction n as [|i IH]; intros dc moved Hloop;
    cbn [returnToHand_loop] in Hloop.
  - by simplify_eq.
  - destruct (Z.ltb_spec (Z.of_nat (length moved)) space) as [Hlt|Hge]; [|by simplify_eq].
    destruct (dc !! i) as [e|] eqn:He; [|by apply IH in Hloop].
    case_bool_decide; [|by apply IH in Hloop].
    assert (Hperm : delete i dc ++ moved ++ [e] ≡ₚ dc ++ moved).
    { rewrite (delete_Permutation dc i e He) at 2. solve_Permutation. }
    assert (Hlen : Z.of_nat (length (moved ++ [e])) <= space).
    { rewrite length_app. simpl. lia. }
    destruct all.
    + apply IH in Hloop as [Hp Hb]. split; [by rewrite Hp | auto].
    + simplify_eq. split; [done | auto].
Qed.

Lemma removeAll_loop_spec cardId n hd removed hd' removed' :
  removeAll_loop cardId n hd removed = (hd', removed') →
  hd' ++ removed' ≡ₚ hd ++ removed ∧ (length hd' <= length hd)%nat.
Proof.
  revert hd removed. induction n as [|i IH]; intros hd removed Hloop;
    cbn [removeAll_loop] in Hloop.
  - by simplify_eq.
  - destruct (hd !! i) as [h|] eqn:Hh; [|by apply IH in Hloop].
    case_bool_decide; [|by apply IH in Hloop].
    apply IH in Hloop as [Hp Hl]. split.
    + rewrite Hp. rewrite (delete_Permutation hd i h Hh) at 2. solve_Permutation.
    + rewrite length_delete in Hl by eauto. lia.
Qed.

(** *** Each move keeps the ids of the three zones together *)

Lemma draw_updater_zoneIds prev :
  zoneIds (draw_next (draw_updater prev)) ≡ₚ zoneIds prev.
Proof.
  destruct (draw_updater_cases prev) as [[-> _]|(d & x & Hd & _ & _ & _ & _ & _ & ->)];
    [done|].
  unfold zoneIds. cbn. rewrite Hd, map_app. simpl. solve_Permutation.
Qed.

Lemma discardFromDeck_updater_zoneIds count prev :
  ""%string ∉ deck prev →
  zoneIds (discardFromDeck_updater count prev) ≡ₚ zoneIds prev.
Proof.
  intros Hne. unfold discardFromDeck_updater.
  destruct (discardFromDeck_loop _ _ _) as [dk' dc'] eqn:Hloop.
  apply discardFromDeck_loop_Permutation in Hloop; [|done].
  unfold zoneIds. cbn.
  trans (map hand_id (hand prev) ++ (dk' ++ map discard_id dc')); [solve_Permutation|].
  rewrite Hloop. solve_Permutation.
Qed.

Lemma returnDiscardToDeck_updater_zoneIds shuffle toTop rnd prev :
  zoneIds (returnDiscardToDeck_updater shuffle toTop rnd prev) ≡ₚ zoneIds prev.
Proof.
  unfold returnDiscardToDeck_updater.
  destruct (if shuffle then _ else _) as [ids1 rnd1] eqn:Hids.
  assert (Hp1 : ids1 ≡ₚ map discard_id (discard prev)).
  { destruct shuffle; [|by simplify_eq].
    replace ids1 with (shuffleInPlace rnd (map discard_id (discard prev))).1
      by (by rewrite Hids).
    apply shuffleInPlace_Permutation. }
  unfold zoneIds. cbn. rewrite app_nil_r.
  trans (deck prev ++ ids1 ++ map hand_id (hand prev)); [|rewrite Hp1; solve_Permutation].
  destruct shuffle, toTop; rewrite ?shuffleInPlace_Permutation; solve_Permutation.
Qed.

Lemma returnDiscardItemToDeck_zoneIds idx prev next :
  returnDiscardItemToDeck idx prev = Some next → zoneIds next ≡ₚ zoneIds prev.
Proof.
  unfold returnDiscardItemToDeck.
  destruct (splice1 idx (discard prev)) as [[it|] d] eqn:Hs; [|done].
  intros [= <-]. apply splice1_Some in Hs as [Hs _].
  unfold zoneIds. cbn. rewrite (Permutation_map discard_id Hs). simpl. solve_Permutation.
Qed.

Lemma returnDiscardGroupToDeck_zoneIds cardId all prev :
  zoneIds (returnDiscardGroupToDeck cardId all prev) ≡ₚ zoneIds prev.
Proof.
  unfold returnDiscardGroupToDeck. destruct all.
  - unfold zoneIds. cbn.
    rewrite <-(filter_app_complement (fun d => discard_id d = cardId) (discard prev)) at 3.
    rewrite map_app. solve_Permutation.
  - destruct (list_find _ _) as [[i it]|] eqn:Hf; [|done].
    apply list_find_delete in Hf as (Hp & _ & _).
    unfold zoneIds. cbn. rewrite (Permutation_map discard_id Hp). simpl. solve_Permutation.
Qed.

Lemma returnDiscardItemToHand_zoneIds idx prev next :
  returnDiscardItemToHand idx prev = Some next → zoneIds next ≡ₚ zoneIds prev.
Proof.
  unfold returnDiscardItemToHand.
  destruct (_ >=? _); [by intros [= <-]|].
  destruct (splice1 idx (discard prev)) as [[it|] d] eqn:Hs; [|done].
  intros [= <-]. apply splice1_Some in Hs as [Hs _].
  unfold zoneIds. cbn. rewrite (Permutation_map discard_id Hs), map_app. simpl.
  solve_Permutation.
Qed.

Lemma map_asUnspent_ids moved : map hand_id (map asUnspent moved) = map discard_id moved.
Proof. by rewrite map_map. Qed.

Lemma returnDiscardGroupToHand_zoneIds cardId all prev :
  zoneIds (returnDiscardGroupToHand cardId all prev) ≡ₚ zoneIds prev.
Proof.
  unfold returnDiscardGroupToHand.
  destruct (_ <=? _); [done|].
  destruct (returnToHand_loop _ _ _ _ _ _) as [dc' moved] eqn:Hloop.
  destruct (length moved =? 0)%nat; [done|].
  apply returnToHand_loop_spec in Hloop as [Hp _]. rewrite app_nil_r in Hp.
  unfold zoneIds. cbn.
  rewrite map_app, map_asUnspent_ids, <-(Permutation_map discard_id Hp), map_app.
  solve_Permutation.
Qed.

Lemma map_discardedAs_ids origin removed :
  map discard_id (map (fun r => {| discard_id := hand_id r; discard_origin := origin |}) removed)
  = map hand_id removed.
Proof. by rewrite map_map. Qed.

Lemma discardGroupFromHand_zoneIds cardId all origin prev :
  zoneIds (discardGroupFromHand cardId all origin prev) ≡ₚ zoneIds prev.
Proof.
  unfold discardGroupFromHand.
  destruct (if all then _ else _) as [hd' removed] eqn:Hsel.
  destruct (length removed =? 0)%nat; [done|].
  assert (Hp : hd' ++ removed ≡ₚ hand prev).
  { destruct all.
    - apply removeAll_loop_spec in Hsel as [Hp _]. by rewrite app_nil_r in Hp.
    - destruct (list_find _ _) as [[i h]|] eqn:Hf; simplify_eq.
      + apply list_find_delete in Hf as (Hp & _ & _).
        etrans; [|symmetry; exact Hp]. solve_Permutation.
      + by rewrite app_nil_r. }
  unfold zoneIds. cbn.
  rewrite map_app, map_discardedAs_ids, <-(Permutation_map hand_id Hp), map_app.
  solve_Permutation.
Qed.

(** *** Each move keeps the hand within its limit *)

Lemma draw_updater_hand prev :
  Z.of_nat (length (hand (draw_next (draw_updater prev))))
    <= Z.max (Z.of_nat (length (hand prev))) (handLimit prev) ∧
  handLimit (draw_next (draw_updater prev)) = handLimit prev.
Proof.
  destruct (draw_updater_cases prev) as [[-> _]|(d & x & _ & _ & _ & Hlt & _ & _ & ->)].
  - split; [lia | done].
  - cbn. rewrite length_app. simpl. split; [lia | done].
Qed.

Lemma returnDiscardItemToHand_hand idx prev next :
  returnDiscardItemToHand idx prev = Some next →
  Z.of_nat (length (hand next)) <= Z.max (Z.of_nat (length (hand prev))) (handLimit prev) ∧
  handLimit next = handLimit prev.
Proof.
  unfold returnDiscardItemToHand.
  destruct (Z.geb_spec (Z.of_nat (length (hand prev))) (handLimit prev)).
  - intros [= <-]. split; [lia | done].
  - destruct (splice1 idx (discard prev)) as [[it|] d]; [|done].
    intros [= <-]. cbn. rewrite length_app. simpl. split; [lia | done].
Qed.

Lemma returnDiscardGroupToHand_hand cardId all prev :
  Z.of_nat (length (hand (returnDiscardGroupToHand cardId all prev)))
    <= Z.max (Z.of_nat (length (hand prev))) (handLimit prev) ∧
  handLimit (returnDiscardGroupToHand cardId all prev) = handLimit prev.
Proof.
  unfold returnDiscardGroupToHand.
  destruct (Z.leb_spec (Z.max 0 (handLimit prev - Z.of_nat (length (hand prev)))) 0)
    as [|Hspace]; [split; [lia | done]|].
  destruct (returnToHand_loop _ _ _ _ _ _) as [dc' moved] eqn:Hloop.
  destruct (length moved =? 0)%nat; [split; [lia | done]|].
  apply returnToHand_loop_spec in Hloop as [_ Hb].
  cbn. rewrite length_app, length_map. simpl in Hb. split; [lia | done].
Qed.

Lemma discardGroupFromHand_hand cardId all origin prev :
  (length (hand (discardGroupFromHand cardId all origin prev)) <= length (hand prev))%nat ∧
  handLimit (discardGroupFromHand cardId all origin prev) = handLimit prev.
Proof.
  unfold discardGroupFromHand.
  destruct (if all then _ else _) as [hd' removed] eqn:Hsel.
  destruct (length removed =? 0)%nat; [done|]. cbn. split; [|done].
  destruct all.
  - by apply removeAll_loop_spec in Hsel as [_ Hl].
  - destruct (list_find _ _) as [[i h]|] eqn:Hf; simplify_eq; [|done].
    apply list_find_delete in Hf as (_ & _ & Hl). lia.
Qed.

(** ** Zone conservation *)

Lemma step_zoneIds p cmd c c' :
  zoneOp cmd = true →
  ""%string ∉ zoneIds (builderState c) →
  step p cmd c = Some c' →
  zoneIds (builderState c') ≡ₚ zoneIds (builderState c).
Proof.
  intros Hop Hne Hstep.
  assert (Hdeck : ""%string ∉ deck (builderState c)).
  { intros Hin. apply Hne. unfold zoneIds. set_solver. }
  destruct cmd; try discriminate Hop; step_inv Hstep;
    change (builderState (set_builderState ?s _)) with s.
  - destruct (builderState_handleDraw eager c) as [->| ->]; [done|].
    rewrite builderState_draw. apply draw_updater_zoneIds.
  - rewrite builderState_draw. apply draw_updater_zoneIds.
  - by apply discardFromDeck_updater_zoneIds.
  - apply returnDiscardToDeck_updater_zoneIds.
  - by eapply returnDiscardItemToDeck_zoneIds.
  - apply returnDiscardGroupToDeck_zoneIds.
  - by eapply returnDiscardItemToHand_zoneIds.
  - apply returnDiscardGroupToHand_zoneIds.
  - apply discardGroupFromHand_zoneIds.
Qed.

(** Zone conservation where it holds: while no card id is the empty
    string, every run of zone operations leaves in the three zones
    together a permutation of the ids they held at the start. *)
Theorem zone_conservation (p : Props) (cmds : list Command) (c c' : Component) :
  Forall (fun cmd => zoneOp cmd = true) cmds →
  ""%string ∉ zoneIds (builderState c) →
  run p cmds c = Some c' →
  zoneIds (builderState c') ≡ₚ zoneIds (builderState c).
Proof.
  revert c. induction cmds as [|cmd cmds IH]; intros c Hops Hne Hrun; simpl in Hrun.
  - by simplify_eq.
  - apply Forall_cons in Hops as [Hop Hops].
    destruct (step p cmd c) as [c1|] eqn:Hstep; [|done]. simpl in Hrun.
    pose proof (step_zoneIds _ _ _ _ Hop Hne Hstep) as H1.
    rewrite (IH c1); [done | done | by rewrite H1 | done].
Qed.

(** After a lock the zones hold the composition, and keep holding it
    through every run of zone operations (ids being non-empty). *)
Corollary zone_conservation_after_lock p rnd cmds c c' cardId :
  isLocked (builderState c) = false →
  ""%string ∉ buildDeckArray p (builderState c) →
  Forall (fun cmd => zoneOp cmd = true) cmds →
  run p cmds (toggleLockDeck p rnd c) = Some c' →
  copies cardId (zoneIds (builderState c')) = compositionCopies p (builderState c) cardId.
Proof.
  intros Hl Hne Hops Hrun.
  assert (Hz : zoneIds (builderState (toggleLockDeck p rnd c))
               ≡ₚ buildDeckArray p (builderState c)).
  { rewrite toggleLockDeck_lock by done. unfold zoneIds. cbn.
    rewrite app_nil_r. apply shuffleInPlace_Permutation. }
  apply zone_conservation in Hrun; [|done|by rewrite Hz].
  rewrite (copies_Permutation _ _ _ Hrun), (copies_Permutation _ _ _ Hz).
  apply buildDeckArray_copies.
Qed.









(** Where the hypothesis on the ids is needed.  With a base card whose
    id is the empty string in the composition, lock stores six cards,
    that card on top; [discardFromDeck 1] would pop it, and its
    truthiness test would take the empty id for the end of the deck: the
    card would be gone from the deck and reach no other zone.  The
    component never calls [discardFromDeck]. *)
Example discardFromDeck_drops_empty_id :
  let s := builderState blankLocked in
  let s' := builderState (discardFromDeck 1 blankLocked) in
  run blankProps [AdjustBaseCount "" 1; ToggleLockDeck sampleEntropy]
      (initialComponent blankProps) = Some blankLocked ∧
  step blankProps (DiscardFromDeck 1) blankLocked = Some (discardFromDeck 1 blankLocked) ∧
  zoneOp (DiscardFromDeck 1) = true ∧
  copies "" (zoneIds s) = 1%nat ∧ length (zoneIds s) = 6%nat ∧
  copies "" (zoneIds s') = 0%nat ∧ length (zoneIds s') = 5%nat ∧
  ¬ zoneIds s' ≡ₚ zoneIds s.
Proof.
  cbv zeta. split_and!; try reflexivity.
  intros Hp. apply (copies_Permutation "") in Hp. vm_compute in Hp. discriminate.
Qed.

(** ** The hand limit *)

Lemma handOK_bound s s' :
  handOK s →
  Z.of_nat (length (hand s')) <= Z.max (Z.of_nat (length (hand s))) (handLimit s) →
  handLimit s' = handLimit s →
  handOK s'.
Proof. unfold handOK. lia. Qed.

Lemma handOK_shrink s s' :
  handOK s → (length (hand s') <= length (hand s))%nat → handLimit s' = handLimit s →
  handOK s'.
Proof. unfold handOK. lia. Qed.

Lemma applyInitialCounts_hand p s :
  hand (applyInitialCounts p s) = hand s ∧
  handLimit (applyInitialCounts p s) = handLimit s.
Proof. unfold applyInitialCounts. by repeat case_match. Qed.

Lemma initialComponent_handOK p : handOK (builderState (initialComponent p)).
Proof.
  unfold handOK, initialComponent. cbn.
  destruct (applyInitialCounts_hand p (defaultState p)) as [-> ->]. done.
Qed.

Lemma finalizePlay_fold_hand (ms : list string) s :
  (length (hand (foldl (fun s m => discardGroupFromHand m false played s) s ms))
   <= length (hand s))%nat ∧
  handLimit (foldl (fun s m => discardGroupFromHand m false played s) s ms) = handLimit s.
Proof.
  revert s. induction ms as [|m ms IH]; intros s; simpl; [done|].
  destruct (IH (discardGroupFromHand m false played s)) as [Hl ->].
  destruct (discardGroupFromHand_hand m false played s) as [Hl' ->]. split; [lia | done].
Qed.

Lemma step_handOK p cmd c c' :
  handOK (builderState c) →
  keepsHand cmd (builderState c) →
  step p cmd c = Some c' →
  handOK (builderState c').
Proof.
  intros Hok Hkeep Hstep.
  destruct cmd; step_inv Hstep;
    change (builderState (set_builderState ?s _)) with s.
  - eapply handOK_shrink; [done| |]; unfold adjustBaseCount; by repeat case_match.
  - eapply handOK_shrink; [done| |]; unfold adjustModCount; by repeat case_match.
  - by eapply handOK_shrink.
  - by eapply handOK_shrink.
  - unfold toggleLockDeck. destruct (negb _).
    + eapply handOK_shrink; [done|cbn; lia|done].
    + by eapply handOK_shrink.
  - unfold shuffleDeck. destruct (_ && _); by eapply handOK_shrink.
  - destruct (builderState_handleDraw eager c) as [->| ->]; [done|].
    rewrite builderState_draw.
    eapply handOK_bound; [done|apply draw_updater_hand..].
  - rewrite builderState_draw.
    eapply handOK_bound; [done|apply draw_updater_hand..].
  - change (handOK (discardFromDeck_updater count (builderState c))).
    unfold discardFromDeck_updater. destruct (discardFromDeck_loop _ _ _).
    by eapply handOK_shrink.
  - change (handOK (returnDiscardToDeck_updater shuffle toTop rnd (builderState c))).
    unfold returnDiscardToDeck_updater. destruct (if shuffle then _ else _).
    by eapply handOK_shrink.
  - unfold returnDiscardItemToDeck in Hs. destruct (splice1 _ _) as [[it|] d]; [|done].
    injection Hs as <-. by eapply handOK_shrink.
  - unfold returnDiscardGroupToDeck. repeat case_match; by eapply handOK_shrink.
  - eapply handOK_bound; [done|by eapply returnDiscardItemToHand_hand..].
  - eapply handOK_bound; [done|apply returnDiscardGroupToHand_hand..].
  - eapply handOK_shrink; [done|apply discardGroupFromHand_hand..].
  - eapply handOK_shrink; [done|cbn; lia|done].
  - pose proof (initialComponent_handOK p) as Hi. exact Hi.
  - destruct next as [n|]; [exact Hkeep | exact Hok].
  - unfold loadSavedDeck. cbn. case_match; [|done].
    eapply handOK_shrink; [done|cbn; lia|done].
  - by eapply handOK_shrink.
  - unfold startPlayBase. by repeat case_match.
  - unfold finalizePlay. destruct (finalizeSelection _) as [sel|]; [|done]. cbn.
    destruct (finalizePlay_fold_hand (mods sel)
                (discardGroupFromHand (baseId sel) false played (builderState c)))
      as [Hl Hh].
    destruct (discardGroupFromHand_hand (baseId sel) false played (builderState c))
      as [Hl' Hh'].
    eapply handOK_shrink; [done|lia|congruence].
  - done.
Qed.

Lemma step_addsToHand p cmd c c' :
  addsToHand cmd = true →
  step p cmd c = Some c' →
  Z.of_nat (length (hand (builderState c')))
    <= Z.max (Z.of_nat (length (hand (builderState c)))) (handLimit (builderState c)) ∧
  handLimit (builderState c') = handLimit (builderState c).
Proof.
  intros Hadd Hstep.
  destruct cmd; try discriminate Hadd; step_inv Hstep;
    change (builderState (set_builderState ?s _)) with s.
  - destruct (builderState_handleDraw eager c) as [->| ->]; [split; [lia | done]|].
    rewrite builderState_draw. apply draw_updater_hand.
  - rewrite builderState_draw. apply draw_updater_hand.
  - by eapply returnDiscardItemToHand_hand.
  - apply returnDiscardGroupToHand_hand.
Qed.

(** C2, as the code has it.  A command that can add cards to the hand
    (draw, return of one or all matching discards to the hand) never
    leaves more cards in hand than the larger of the limit and what was
    held, and leaves the limit alone: from a hand within the limit it is
    a no-op or moves only the cards that fit.  So along every run from
    the first render in which no change of the hand limit cuts below the
    cards held, the hand stays within the limit. *)
Theorem hand_limit_kept (p : Props) :
  (∀ cmd c c',
     addsToHand cmd = true → step p cmd c = Some c' →
     Z.of_nat (length (hand (builderState c')))
       <= Z.max (Z.of_nat (length (hand (builderState c)))) (handLimit (builderState c)) ∧
     handLimit (builderState c') = handLimit (builderState c)) ∧
  (∀ cmds c,
     runKeepsHand p cmds (initialComponent p) →
     run p cmds (initialComponent p) = Some c →
     handOK (builderState c)).
Proof.
  split; [intros cmd c c'; apply step_addsToHand|].
  intros cmds. generalize (initialComponent_handOK p).
  generalize (initialComponent p) as c0.
  induction cmds as [|cmd cmds IH]; intros c0 Hok c Hkeep Hrun; simpl in *.
  - by simplify_eq.
  - destruct Hkeep as [Hk Hrest].
    destruct (step p cmd c0) as [c1|] eqn:Hstep; [|done]. simpl in Hrun.
    apply (IH c1); [by eapply step_handOK | done | done].
Qed.

Lemma hand_limit_kept_witness :
  ∃ c, run sampleProps withinLimit_commands (initialComponent sampleProps) = Some c ∧
       length (hand (builderState c)) = 3%nat ∧ handLimit (builderState c) = 3 ∧
       handOK (builderState c).
Proof.
  destruct (run sampleProps withinLimit_commands (initialComponent sampleProps))
    as [c|] eqn:Hrun; [|by vm_compute in Hrun].
  exists c. split; [done|].
  pose proof (proj2 (hand_limit_kept sampleProps) withinLimit_commands c) as H.
  rewrite Hrun in H.
  assert (Hc : Some c = run sampleProps withinLimit_commands (initialComponent sampleProps))
    by done.
  vm_compute in Hc. injection Hc as ->.
  split; [reflexivity|]. split; [reflexivity|].
  apply H; [|done]. vm_compute. repeat split; discriminate.
Defined.

(** C2 as stated fails: after lock, shuffle and one draw, typing 0 into
    the hand-limit input leaves one card in a hand whose limit is 0. *)
Lemma hand_limit_counterexample :
  reachable sampleProps overLimitSample ∧
  length (hand (builderState overLimitSample)) = 1%nat ∧
  handLimit (builderState overLimitSample) = 0 ∧
  ¬ handOK (builderState overLimitSample).
Proof.
  split_and!; try reflexivity.
  - exists overLimit_commands. reflexivity.
  - vm_compute. intros H. by apply H.
Qed.

(** ** Drawing *)







Lemma fullHandSample_reachable :
  run sampleProps fullHand_commands (initialComponent sampleProps) = Some fullHandSample.
Proof. by vm_compute. Qed.

Lemma fullHandSample_deck : deck (builderState fullHandSample) = [].
Proof. by vm_compute. Qed.


Lemma overLimitSample_deck :
  deck (builderState overLimitSample) = ["N"; "N"; "N"]%string ++ ["N"%string].
Proof. by vm_compute. Qed.


(** ** Finalising a play *)

Lemma copies_not_elem cardId (l : list string) : cardId ∉ l → copies cardId l = 0%nat.
Proof.
  intros Hn. unfold copies. induction l as [|x l IH]; [done|].
  rewrite filter_cons. case_decide as Hx.
  - subst x. exfalso. apply Hn. set_solver.
  - apply IH. set_solver.
Qed.

(** One call [discardGroupFromHand (cardId, false, origin)]: the first
    entry with that id moves, or nothing changes. *)
Lemma discardOne_spec cardId origin s :
  ((map hand_id (hand s) ≡ₚ
     cardId :: map hand_id (hand (discardGroupFromHand cardId false origin s))) ∧
   discard (discardGroupFromHand cardId false origin s)
     = discard s ++ [discardedAs origin cardId] ∧
   deck (discardGroupFromHand cardId false origin s) = deck s) ∨
  ((cardId ∉ map hand_id (hand s)) ∧ discardGroupFromHand cardId false origin s = s).
Proof.
  unfold discardGroupFromHand.
  destruct (list_find _ _) as [[i h]|] eqn:Hf.
  - left. apply list_find_delete in Hf as (Hp & Hid & _). cbn.
    split_and!; [|by rewrite <-Hid|done].
    rewrite (Permutation_map hand_id Hp). simpl. by rewrite Hid.
  - right. split; [|done]. apply list_find_None in Hf.
    intros (h & Hh & Hin)%list_elem_of_In%in_map_iff.
    apply list_elem_of_In in Hin. rewrite Forall_forall in Hf. by apply (Hf h).
Qed.

Lemma finalize_fold_spec (ids : list string) s :
  ∃ moved,
    discard (foldl (fun s m => discardGroupFromHand m false played s) s ids)
      = discard s ++ map (discardedAs played) moved ∧
    map hand_id (hand s) ≡ₚ
      map hand_id (hand (foldl (fun s m => discardGroupFromHand m false played s) s ids))
      ++ moved ∧
    deck (foldl (fun s m => discardGroupFromHand m false played s) s ids) = deck s ∧
    ∀ cardId, copies cardId moved
              = Nat.min (copies cardId (map hand_id (hand s))) (copies cardId ids).
Proof.
  revert s. induction ids as [|x ids IH]; intros s; cbn [foldl].
  - exists []. split_and!; [by rewrite app_nil_r | by rewrite app_nil_r | done |].
    intros cardId. cbn. lia.
  - destruct (discardOne_spec x played s) as [(Hp & Hd & Hk)|[Hn ->]].
    + destruct (IH (discardGroupFromHand x false played s)) as (moved & Hd' & Hp' & Hk' & Hc).
      exists (x :: moved). split_and!.
      * rewrite Hd', Hd, <-app_assoc. done.
      * rewrite Hp, Hp'. solve_Permutation.
      * by rewrite Hk'.
      * intros cardId. rewrite (copies_Permutation _ _ _ Hp), !copies_cons, Hc. lia.
    + destruct (IH s) as (moved & Hd' & Hp' & Hk' & Hc).
      exists moved. split_and!; [done..|].
      intros cardId. rewrite Hc, copies_cons. case_bool_decide as Hx; [|done].
      subst x. rewrite (copies_not_elem _ _ Hn). lia.
Qed.

Lemma list_find_removeFirstCopy cardId (hd : list HandEntry) :
  match list_find (fun h => hand_id h = cardId) hd with
  | Some (i, h) =>
      delete i hd = removeFirstCopy cardId hd ∧ hand_id h = cardId ∧
      cardId ∈ map hand_id hd
  | None => removeFirstCopy cardId hd = hd ∧ cardId ∉ map hand_id hd
  end.
Proof.
  induction hd as [|h t IH]; cbn [list_find removeFirstCopy map].
  - split; [done|apply not_elem_of_nil].
  - destruct (decide (hand_id h = cardId)) as [Hh|Hh].
    + split_and!; [done | done | rewrite Hh; left].
    + destruct (list_find _ t) as [[i x]|]; cbn.
      * destruct IH as (Hd & Hx & Hin). split_and!; [by f_equal | done | by right].
      * destruct IH as (Hr & Hnin). split; [by rewrite Hr|].
        rewrite not_elem_of_cons. by split; [intros ->|].
Qed.

(** One call [discardGroupFromHand (cardId, false, origin)], exactly. *)
Lemma discardOne_exact cardId origin s :
  ((cardId ∈ map hand_id (hand s)) ∧
   discardGroupFromHand cardId false origin s
   = (s |> set_hand (removeFirstCopy cardId (hand s))
        |> set_discard (discard s ++ [discardedAs origin cardId]))) ∨
  ((cardId ∉ map hand_id (hand s)) ∧ discardGroupFromHand cardId false origin s = s ∧
   removeFirstCopy cardId (hand s) = hand s).
Proof.
  unfold discardGroupFromHand.
  pose proof (list_find_removeFirstCopy cardId (hand s)) as Hf.
  destruct (list_find _ _) as [[i h]|].
  - destruct Hf as (Hd & Hh & Hin). left. split; [done|]. cbn.
    unfold discardedAs. by rewrite Hd, Hh.
  - destruct Hf as (Hr & Hnin). by right.
Qed.

Lemma finalize_fold_exact (ids : list string) s :
  let s' := foldl (fun s m => discardGroupFromHand m false played s) s ids in
  discard s' = discard s ++ map (discardedAs played) (playedIds (hand s) ids) ∧
  hand s' = foldl (fun hd x => removeFirstCopy x hd) (hand s) ids.
Proof.
  revert s. induction ids as [|x ids IH]; intros s; cbn [foldl playedIds map].
  - by rewrite app_nil_r.
  - destruct (discardOne_exact x played s) as [[Hin ->]|(Hnin & -> & Hr)].
    + destruct (IH (s |> set_hand (removeFirstCopy x (hand s))
                      |> set_discard (discard s ++ [discardedAs played x])))
        as (Hd & Hh).
      cbv zeta in Hd, Hh. rewrite Hd, Hh. cbn.
      rewrite decide_True by done. cbn. by rewrite <-app_assoc.
    + destruct (IH s) as (Hd & Hh). cbv zeta in Hd, Hh.
      rewrite Hd, Hh, Hr. by rewrite decide_False by done.
Qed.

Lemma removeFirstCopy_other cardId x (hd : list HandEntry) :
  x ≠ cardId →
  (x ∈ map hand_id (removeFirstCopy cardId hd) ↔ x ∈ map hand_id hd).
Proof.
  intros Hne. induction hd as [|h t IH]; cbn [removeFirstCopy map]; [done|].
  destruct (decide (hand_id h = cardId)) as [Hh|Hh].
  - rewrite elem_of_cons. split; [by right|]. intros [->|?]; [by rewrite Hh in Hne|done].
  - cbn [map]. rewrite !elem_of_cons, IH. done.
Qed.

Lemma filter_iff_elem {A} (P Q : A → Prop) `{∀ x, Decision (P x), ∀ x, Decision (Q x)}
    (l : list A) :
  (∀ x, x ∈ l → (P x ↔ Q x)) → filter P l = filter Q l.
Proof.
  intros HPQ. induction l as [|a l IH]; [done|].
  rewrite !filter_cons.
  rewrite IH by (intros x Hx; apply HPQ; by right).
  destruct (decide (P a)) as [Ha|Ha], (decide (Q a)) as [Hb|Hb]; try done.
  - exfalso. apply Hb, HPQ; [left|done].
  - exfalso. apply Ha, HPQ; [left|done].
Qed.

Lemma playedIds_NoDup (hd : list HandEntry) (selected : list string) :
  NoDup selected →
  playedIds hd selected = filter (fun x => x ∈ map hand_id hd) selected.
Proof.
  revert hd. induction selected as [|x rest IH]; intros hd Hnd; [done|].
  apply NoDup_cons in Hnd as [Hx Hnd]. cbn [playedIds]. rewrite filter_cons.
  destruct (decide (x ∈ map hand_id hd)) as [Hin|Hnin]; [|by apply IH].
  f_equal. rewrite IH by done. apply filter_iff_elem.
  intros y Hy. apply removeFirstCopy_other. by intros ->.
Qed.

(** C8, as the code has it.  With no active base [finalizePlay] changes
    nothing.  With a base selected it clears [activePlay], leaves the
    deck alone, and takes the selected ids in turn, the base first and
    then the modifiers in their order: an id that has a copy in the
    hand at its turn loses its first copy there and is appended to
    [discard] with origin played; an id with no copy in hand moves
    nothing.  So of every id as many copies move as the selection names
    it (once, for a base and a set of modifiers), but no more than the
    hand holds, and further copies stay in hand; when the selection
    names no id twice the ids played are the selected ids that the hand
    holds, in the order of the selection, and all of them when the hand
    holds every one. *)
Theorem finalizePlay_moves_one_each (c : Component) :
  match activePlay c with
  | None => finalizePlay c = c
  | Some sel =>
      let s := builderState c in
      let c' := finalizePlay c in
      let s' := builderState c' in
      let selected := baseId sel :: mods sel in
      let moved := playedIds (hand s) selected in
      activePlay c' = None ∧ deck s' = deck s ∧
      discard s' = discard s ++ map (discardedAs played) moved ∧
      hand s' = foldl (fun hd x => removeFirstCopy x hd) (hand s) selected ∧
      map hand_id (hand s) ≡ₚ map hand_id (hand s') ++ moved ∧
      (∀ cardId, copies cardId moved
                 = Nat.min (copies cardId (map hand_id (hand s)))
                           (copies cardId selected)) ∧
      (NoDup selected →
         moved = filter (fun x => x ∈ map hand_id (hand s)) selected) ∧
      (NoDup selected → Forall (fun x => x ∈ map hand_id (hand s)) selected →
         moved = selected)
  end.
Proof.
  unfold finalizePlay, finalizeSelection.
  destruct (activePlay c) as [sel|]; [|done]. cbn -[playedIds].
  destruct (finalize_fold_spec (baseId sel :: mods sel) (builderState c))
    as (moved & Hd & Hp & Hk & Hc).
  destruct (finalize_fold_exact (baseId sel :: mods sel) (builderState c)) as (Hd' & Hh').
  cbv zeta in Hd', Hh'. cbn [foldl] in Hd, Hp, Hk, Hd', Hh'.
  assert (moved = playedIds (hand (builderState c)) (baseId sel :: mods sel)) as Hm.
  { rewrite Hd in Hd'. apply app_inv_head in Hd'.
    revert Hd'. generalize (playedIds (hand (builderState c)) (baseId sel :: mods sel)).
    clear. induction moved as [|x moved IH]; intros [|y l] H; try discriminate H; [done|].
    cbn in H. injection H as Hx Hl. f_equal; [done | by apply IH]. }
  subst moved.
  split_and!; [reflexivity | exact Hk | exact Hd | exact Hh' | exact Hp | exact Hc | |].
  - apply playedIds_NoDup.
  - intros Hnd Hall. rewrite playedIds_NoDup by done.
    clear -Hall. induction Hall as [|x l Hx Hall IH]; [done|].
    rewrite filter_cons, decide_True by done. by rewrite IH.
Qed.

Lemma scenarioD_hand :
  map hand_id (hand (builderState scenarioD))
  = ["N"; "N"; "N"; "N"; "B1"; "M1"; "N"; "M1"]%string.
Proof. by vm_compute. Qed.

Lemma scenarioD_finalized :
  map hand_id (hand (builderState (finalizePlay scenarioD)))
    = ["N"; "N"; "N"; "N"; "N"; "M1"]%string ∧
  discard (builderState (finalizePlay scenarioD))
    = [discardedAs played "B1"; discardedAs played "M1"].
Proof. by vm_compute. Qed.

Lemma finalizePlay_moves_one_each_witness :
  activePlay (finalizePlay scenarioD) = None ∧
  discard (builderState (finalizePlay scenarioD))
    = [discardedAs played "B1"; discardedAs played "M1"] ∧
  copies "M1" (map hand_id (hand (builderState scenarioD))) = 2%nat ∧
  copies "M1" (map hand_id (hand (builderState (finalizePlay scenarioD)))) = 1%nat.
Proof.
  pose proof (finalizePlay_moves_one_each scenarioD) as H.
  change (activePlay scenarioD) with (Some {| baseId := "B1"; mods := ["M1"] |}) in H.
  cbv zeta in H. destruct H as (Ha & _ & _).
  split; [exact Ha|]. split; [exact (proj2 scenarioD_finalized)|].
  rewrite (proj1 scenarioD_finalized), scenarioD_hand.
  by vm_compute.
Defined.

Lemma orphanPlay_reachable :
  run sampleProps orphanPlay_commands (initialComponent sampleProps) = Some orphanPlay.
Proof. by vm_compute. Qed.

Lemma orphanPlay_selection :
  activePlay orphanPlay = Some {| baseId := "B1"; mods := [] |}.
Proof. by vm_compute. Qed.

Lemma orphanPlay_hand_before :
  copies "B1" (map hand_id (hand (builderState orphanPlay))) = 0%nat.
Proof. by vm_compute. Qed.

(** C8 as stated fails: "Play Base" on B1, then "Discard" on the same
    card, leaves B1 selected with no copy in hand; finalize then moves no
    card at all. *)
Lemma finalize_moves_counterexample :
  reachable sampleProps orphanPlay ∧
  activePlay orphanPlay = Some {| baseId := "B1"; mods := [] |} ∧
  ¬ finalizeMovesOneEach orphanPlay {| baseId := "B1"; mods := [] |}.
Proof.
  split; [exists orphanPlay_commands; apply orphanPlay_reachable|].
  split; [apply orphanPlay_selection|].
  intros [[H _] _]. cbn [baseId] in H. rewrite orphanPlay_hand_before in H.
  discriminate H.
Qed.

(** ** The scenarios of the specification *)

(** Scenario B: 36 cards in the deck, nothing in hand or discard, built
    and not shuffled; an immediate draw is rejected with the shuffle
    message and the hand stays empty. *)
Example scenarioB_locked :
  length (deck (builderState scenarioB)) = 36%nat ∧
  hand (builderState scenarioB) = [] ∧ discard (builderState scenarioB) = [] ∧
  hasBuiltDeckHook scenarioB = true ∧ hasShuffledDeckHook scenarioB = false ∧
  opsError (handleDraw false scenarioB) = Some msgShuffle ∧
  hand (builderState (handleDraw false scenarioB)) = [].
Proof. by vm_compute. Qed.

(** Scenario C: five cards in hand, 31 in the deck; the sixth draw
    changes nothing. *)
Example scenarioC_sixth_draw :
  length (hand (builderState scenarioC)) = 5%nat ∧
  length (deck (builderState scenarioC)) = 31%nat ∧
  length (deck (builderState (handleDraw false scenarioC))) = 31%nat ∧
  length (hand (builderState (handleDraw false scenarioC))) = 5%nat.
Proof. by vm_compute. Qed.

(** Scenario E: with no room in hand, returning discards to the hand is
    a no-op. *)
Lemma returnDiscardGroupToHand_no_room cardId all s :
  handLimit s - Z.of_nat (length (hand s)) <= 0 →
  returnDiscardGroupToHand cardId all s = s.
Proof.
  intros Hfull. unfold returnDiscardGroupToHand.
  destruct (Z.leb_spec (Z.max 0 (handLimit s - Z.of_nat (length (hand s)))) 0); [done|lia].
Qed.

(** * Further properties of the engine *)

(** ** Counts and their sums *)

Lemma sumCounts_empty : sumCounts ∅ = 0.
Proof. unfold sumCounts. by rewrite map_fold_empty. Qed.

Lemma sumCounts_insert_fresh (m : gmap string Z) k v :
  m !! k = None → sumCounts (<[k := v]> m) = sumCounts m + v.
Proof.
  intros Hk. unfold sumCounts. rewrite map_fold_insert_L; [done| |done].
  intros. lia.
Qed.

Lemma sumCounts_delete (m : gmap string Z) k :
  sumCounts m = sumCounts (delete k m) + countOf m k.
Proof.
  unfold countOf. destruct (m !! k) as [x|] eqn:Hk; simpl.
  - rewrite <-(insert_delete_id m k x Hk) at 1.
    apply sumCounts_insert_fresh, lookup_delete_eq.
  - rewrite delete_id by done. lia.
Qed.

Lemma sumCounts_insert (m : gmap string Z) k v :
  sumCounts (<[k := v]> m) = sumCounts m - countOf m k + v.
Proof.
  rewrite <-(insert_delete_eq m k v).
  rewrite sumCounts_insert_fresh by apply lookup_delete_eq.
  rewrite (sumCounts_delete m k). lia.
Qed.

Lemma countsNonNeg_insert (m : gmap string Z) k v :
  countsNonNeg m → 0 <= v → countsNonNeg (<[k := v]> m).
Proof. intros Hm Hv. by apply map_Forall_insert_2. Qed.

Lemma clamp_lower value lo : lo <= clamp value lo None.
Proof. unfold clamp. destruct (Z.ltb_spec value lo); lia. Qed.

Lemma clamp_range value lo hi :
  lo <= hi → lo <= clamp value lo (Some hi) <= hi.
Proof.
  intros Hle. unfold clamp. destruct (Z.ltb_spec value lo); [lia|].
  destruct (Z.gtb_spec value hi); lia.
Qed.

Lemma clamp_inside value lo : lo <= value → clamp value lo None = value.
Proof. intros H. unfold clamp. destruct (Z.ltb_spec value lo); lia. Qed.

Lemma clamp_le value lo : value <= clamp value lo None.
Proof. unfold clamp. destruct (Z.ltb_spec value lo); lia. Qed.

Lemma countOf_nonneg (m : gmap string Z) k : countsNonNeg m → 0 <= countOf m k.
Proof.
  intros Hm. unfold countOf. destruct (m !! k) as [x|] eqn:Hk; simpl; [|lia].
  by apply (Hm k x).
Qed.

Lemma countOf_insert_ne (m : gmap string Z) k k' v :
  k ≠ k' → countOf (<[k := v]> m) k' = countOf m k'.
Proof. intros Hne. unfold countOf. by rewrite lookup_insert_ne. Qed.

Lemma countOf_insert_eq (m : gmap string Z) k v : countOf (<[k := v]> m) k = v.
Proof. unfold countOf. by rewrite lookup_insert_eq. Qed.

(** ** Composition adjustments keep the build rules *)

(** X2.  With a fixed base total (not simple-counters mode), [adjustBaseCount]
    never takes the base total above [baseTarget]: an adjustment that
    would is dropped whole, the state staying as it was; every other
    adjustment is applied, setting the count of the card to the old one
    plus [delta], floored at [0], and changing nothing else.  Counts
    stay non-negative and no other count changes. *)
Theorem adjustBaseCount_respects_target (p : Props) (cardId : string) (delta : Z)
    (s : DeckBuilderState) :
  simpleCounters p = false →
  countsNonNeg (baseCounts s) →
  baseTotal s <= baseTarget p →
  let s' := adjustBaseCount p cardId delta s in
  let next := Z.max (countOf (baseCounts s) cardId + delta) 0 in
  let newTotal := baseTotal s - countOf (baseCounts s) cardId + next in
  baseTotal s' <= baseTarget p ∧
  countsNonNeg (baseCounts s') ∧
  (baseTarget p < newTotal → s' = s) ∧
  (newTotal <= baseTarget p →
     s' = set_baseCounts (<[cardId := next]> (baseCounts s)) s ∧
     countOf (baseCounts s') cardId = next ∧
     baseTotal s' = newTotal) ∧
  (∀ other, other ≠ cardId → countOf (baseCounts s') other = countOf (baseCounts s) other).
Proof.
  intros Hstrict Hnn Hle s' next newTotal. subst s' next newTotal.
  unfold adjustBaseCount, baseTotal in *.
  rewrite Hstrict. cbn [negb andb].
  set (cur := countOf (baseCounts s) cardId).
  assert (Hclamp : clamp (cur + delta) 0 None = Z.max (cur + delta) 0).
  { unfold clamp. destruct (Z.ltb_spec (cur + delta) 0); lia. }
  rewrite Hclamp.
  destruct (Z.gtb_spec (sumCounts (baseCounts s) - cur + Z.max (cur + delta) 0)
              (baseTarget p)) as [Hgt|Hok].
  - split_and!; [done | done | done | lia | done].
  - cbn. split_and!.
    + rewrite sumCounts_insert. fold cur. lia.
    + apply countsNonNeg_insert; [done | lia].
    + lia.
    + intros _. split_and!; [done | apply countOf_insert_eq |].
      rewrite sumCounts_insert. by fold cur.
    + intros other Hne. by rewrite countOf_insert_ne.
Qed.

Lemma scenarioA_base :
  countsNonNeg (baseCounts (builderState scenarioA)) ∧
  baseTotal (builderState scenarioA) = 26 ∧
  countOf (baseCounts (builderState scenarioA)) "B1" = 26.
Proof.
  split; [|by vm_compute].
  apply map_Forall_to_list. vm_compute. repeat constructor. discriminate.
Qed.

Lemma adjustBaseCount_respects_target_witness :
  adjustBaseCount sampleProps "B1" 1 (builderState scenarioA) = builderState scenarioA ∧
  countOf (baseCounts (adjustBaseCount sampleProps "B1" (-1) (builderState scenarioA))) "B1"
    = 25.
Proof.
  destruct scenarioA_base as (Hnn & Htot & Hcur).
  assert (Hle : baseTotal (builderState scenarioA) <= baseTarget sampleProps).
  { rewrite Htot. vm_compute. discriminate. }
  split.
  - pose proof (adjustBaseCount_respects_target sampleProps "B1" 1 (builderState scenarioA)
                  eq_refl Hnn Hle) as H.
    cbv zeta in H. destruct H as (_ & _ & Hrefused & _).
    apply Hrefused. rewrite Htot, Hcur. vm_compute. reflexivity.
  - pose proof (adjustBaseCount_respects_target sampleProps "B1" (-1) (builderState scenarioA)
                  eq_refl Hnn Hle) as H.
    cbv zeta in H. destruct H as (_ & _ & _ & Happlied & _).
    destruct Happlied as (_ & Hcount & _).
    { rewrite Htot, Hcur. vm_compute. discriminate. }
    rewrite Hcount, Hcur. reflexivity.
Defined.

(** X3.  With modifier capacity counted in slots (and a fixed build), a step
    of [adjustModCount] by at most one card keeps the modifier cards
    within the capacity, and the counts non-negative: an added card is
    refused when the slots are taken. *)
Theorem adjustModCount_respects_slots (p : Props) (cardId : string) (delta : Z)
    (s : DeckBuilderState) :
  simpleCounters p = false →
  modCapacityAsCount p = true →
  delta <= 1 →
  countsNonNeg (modCounts s) →
  sumCounts (modCounts s) <= modifierCapacity s →
  let s' := adjustModCount p cardId delta s in
  sumCounts (modCounts s') <= modifierCapacity s' ∧
  modValid p s' = true ∧
  countsNonNeg (modCounts s').
Proof.
  intros Hstrict Hslots Hdelta Hnn Hle s'. subst s'.
  assert (Hval : ∀ t, sumCounts (modCounts t) <= modifierCapacity t → modValid p t = true).
  { intros t Ht. unfold modValid, modCapacityUsed. rewrite Hstrict, Hslots. cbn.
    by apply Z.leb_le. }
  pose proof (countOf_nonneg _ cardId Hnn) as Hcur.
  unfold adjustModCount, canAddModCardSnapshot, getModUsedSnapshot.
  rewrite Hstrict, Hslots. cbn [andb].
  destruct (isLocked s); [by auto|].
  destruct (Z.gtb_spec delta 0) as [Hpos|Hneg]; cbn [andb].
  - destruct (Z.ltb_spec (sumCounts (modCounts s)) (modifierCapacity s)) as [Hroom|Hfull];
      cbn [negb]; [|by auto].
    assert (Hsum : sumCounts (modCounts (set_modCounts
                     (<[cardId := clamp (countOf (modCounts s) cardId + delta) 0 None]>
                        (modCounts s)) s)) <= modifierCapacity s).
    { cbn. rewrite sumCounts_insert, clamp_inside by lia. lia. }
    split_and!; [exact Hsum | by apply Hval |].
    apply countsNonNeg_insert; [done | apply clamp_lower].
  - assert (Hsum : sumCounts (modCounts (set_modCounts
                     (<[cardId := clamp (countOf (modCounts s) cardId + delta) 0 None]>
                        (modCounts s)) s)) <= modifierCapacity s).
    { cbn. rewrite sumCounts_insert.
      assert (clamp (countOf (modCounts s) cardId + delta) 0 None
              <= countOf (modCounts s) cardId).
      { unfold clamp. destruct (Z.ltb_spec (countOf (modCounts s) cardId + delta) 0); lia. }
      lia. }
    split_and!; [exact Hsum | by apply Hval |].
    apply countsNonNeg_insert; [done | apply clamp_lower].
Qed.

Lemma slotsFull_counts : modCounts slotsFull = <["M1" := 2]> ∅ ∧ modifierCapacity slotsFull = 2.
Proof. by vm_compute. Qed.

Lemma adjustModCount_respects_slots_witness :
  sumCounts (modCounts (adjustModCount slotProps "M1" 1 slotsFull)) <= 2.
Proof.
  pose proof (adjustModCount_respects_slots slotProps "M1" 1 slotsFull) as H.
  destruct slotsFull_counts as [Hc Hcap].
  assert (Hcap' : modifierCapacity (adjustModCount slotProps "M1" 1 slotsFull) = 2)
    by (by vm_compute).
  rewrite <-Hcap'. apply H; [reflexivity | reflexivity | lia | |].
  - rewrite Hc. apply countsNonNeg_insert; [apply map_Forall_empty | lia].
  - rewrite Hc, Hcap. by vm_compute.
Defined.

(** X4.  [adjustNullCount] never leaves fewer nulls than [minNulls], whatever
    the step and whether or not the deck is locked; and
    [adjustModifierCapacity] never leaves a negative capacity. *)
Theorem null_and_capacity_floors (p : Props) (delta : Z) (s : DeckBuilderState) :
  nullCount (adjustNullCount p delta s) = Z.max (nullCount s + delta) (minNulls p) ∧
  nullValid p (adjustNullCount p delta s) = true ∧
  modifierCapacity (adjustModifierCapacity delta s) = Z.max (modifierCapacity s + delta) 0 ∧
  0 <= modifierCapacity (adjustModifierCapacity delta s).
Proof.
  unfold nullValid, adjustNullCount, adjustModifierCapacity. cbn.
  assert (Hc : clamp (nullCount s + delta) (minNulls p) None
               = Z.max (nullCount s + delta) (minNulls p)).
  { unfold clamp. destruct (Z.ltb_spec (nullCount s + delta) (minNulls p)); lia. }
  rewrite Hc. split_and!; [done | apply Z.geb_le; lia | done | lia].
Qed.

(** ** The hand-limit input *)

Lemma set_handLimit_id s : set_handLimit (handLimit s) s = s.
Proof. by destruct s. Qed.

(** X5.  Whatever number is typed, the new hand limit lies in [0 .. 20]; a
    number in that range is taken as it is; an input that does not parse
    leaves the state as it was; and the three zones are never touched. *)
Theorem setHandLimit_range (next : option Z) (s : DeckBuilderState) :
  (∀ n, next = Some n → 0 <= handLimit (setHandLimit next s) <= MAX_HAND_LIMIT) ∧
  (∀ n, next = Some n → 0 <= n <= MAX_HAND_LIMIT → handLimit (setHandLimit next s) = n) ∧
  (next = None → setHandLimit next s = s) ∧
  deck (setHandLimit next s) = deck s ∧
  hand (setHandLimit next s) = hand s ∧
  discard (setHandLimit next s) = discard s.
Proof.
  split_and!; try done.
  - intros n ->. cbn. apply clamp_range. by vm_compute.
  - intros n -> Hn. cbn. unfold clamp.
    destruct (Z.ltb_spec n 0); [lia|]. destruct (Z.gtb_spec n MAX_HAND_LIMIT); lia.
  - intros ->. apply set_handLimit_id.
Qed.

Lemma setHandLimit_range_witness :
  handLimit (setHandLimit (Some 99) (builderState lockedSample)) = 20 ∧
  handLimit (setHandLimit (Some 7) (builderState lockedSample)) = 7 ∧
  setHandLimit None (builderState lockedSample) = builderState lockedSample.
Proof.
  pose proof (setHandLimit_range (Some 7) (builderState lockedSample)) as (_ & H7 & _).
  pose proof (setHandLimit_range None (builderState lockedSample)) as (_ & _ & Hn & _).
  split; [reflexivity|]. split.
  - apply (H7 7 eq_refl). vm_compute. split; discriminate.
  - apply Hn. reflexivity.
Defined.

(** ** The size of a built deck *)

Lemma length_expand_map (m : gmap string Z) :
  countsNonNeg m → Z.of_nat (length (expand (map_to_list m))) = sumCounts m.
Proof.
  unfold countsNonNeg. induction m as [|i x m Hi IH] using map_ind; intros Hnn.
  - by rewrite map_to_list_empty, sumCounts_empty.
  - apply map_Forall_insert in Hnn as [Hx Hm]; [|done].
    unfold expand in *.
    rewrite (Permutation_length (bind_Permutation _ _ _ (map_to_list_insert m i x Hi))).
    cbn [mbind list_bind]. rewrite length_app, length_replicate, Nat2Z.inj_add, IH by done.
    rewrite sumCounts_insert_fresh by done. simpl. lia.
Qed.

Lemma length_buildDeckArray p s :
  countsNonNeg (baseCounts s) → countsNonNeg (modCounts s) → 0 <= nullCount s →
  Z.of_nat (length (buildDeckArray p s))
  = baseTotal s + sumCounts (modCounts s) + nullTotal p s.
Proof.
  intros Hb Hm Hn. unfold buildDeckArray, nullTotal, baseTotal.
  rewrite !foldl_pushCopies. cbn [app].
  destruct (nullCard p) as [nc|].
  - destruct (Z.eqb_spec (nullCount s) 0) as [H0|H0].
    + rewrite length_app, Nat2Z.inj_add, !length_expand_map by done. lia.
    + unfold pushCopies. cbn [fst snd].
      rewrite !length_app, length_replicate, !Nat2Z.inj_add, !length_expand_map by done.
      lia.
  - rewrite length_app, Nat2Z.inj_add, !length_expand_map by done. lia.
Qed.

(** X6.  With non-negative counts, the deck that lock stores holds as many
    cards as the composition counts: the base total, the modifier total,
    and the null count when a null card is configured. *)
Theorem locked_deck_size (p : Props) (rnd : Entropy) (c : Component) :
  isLocked (builderState c) = false →
  countsNonNeg (baseCounts (builderState c)) →
  countsNonNeg (modCounts (builderState c)) →
  0 <= nullCount (builderState c) →
  Z.of_nat (length (deck (builderState (toggleLockDeck p rnd c))))
  = baseTotal (builderState c) + sumCounts (modCounts (builderState c))
    + nullTotal p (builderState c).
Proof.
  intros Hl Hb Hm Hn. rewrite locked_deck by done.
  rewrite (Permutation_length (shuffleInPlace_Permutation _ _)).
  by apply length_buildDeckArray.
Qed.

Lemma scenarioA_counts :
  baseCounts (builderState scenarioA) = <["B1" := 26]> ∅ ∧
  modCounts (builderState scenarioA) = <["M1" := 5]> ∅ ∧
  nullCount (builderState scenarioA) = 5 ∧
  isLocked (builderState scenarioA) = false.
Proof. by vm_compute. Qed.

Lemma locked_deck_size_witness :
  Z.of_nat (length (deck (builderState (toggleLockDeck sampleProps sampleEntropy scenarioA))))
  = baseTotal (builderState scenarioA) + sumCounts (modCounts (builderState scenarioA))
    + nullTotal sampleProps (builderState scenarioA).
Proof.
  destruct scenarioA_counts as (Hb & Hm & Hn & Hl).
  apply locked_deck_size.
  - exact Hl.
  - rewrite Hb. apply countsNonNeg_insert; [apply map_Forall_empty | lia].
  - rewrite Hm. apply countsNonNeg_insert; [apply map_Forall_empty | lia].
  - rewrite Hn. lia.
Defined.

(** ** Rebuild and the lifecycle *)





Lemma shuffleDeck_deck confirmed rnd c :
  deck (builderState (shuffleDeck confirmed rnd c)) ≡ₚ deck (builderState c).
Proof.
  unfold shuffleDeck. destruct (hasShuffledDeckHook c && negb confirmed); [done|]. cbn.
  destruct (length (deck (builderState c)) =? 0)%nat; [done|].
  apply shuffleInPlace_Permutation.
Qed.

Lemma shuffleDeck_frame confirmed rnd c :
  isLocked (builderState (shuffleDeck confirmed rnd c)) = isLocked (builderState c) ∧
  hasBuiltDeckHook (shuffleDeck confirmed rnd c) = hasBuiltDeckHook c ∧
  hand (builderState (shuffleDeck confirmed rnd c)) = hand (builderState c) ∧
  discard (builderState (shuffleDeck confirmed rnd c)) = discard (builderState c).
Proof. unfold shuffleDeck. by destruct (hasShuffledDeckHook c && negb confirmed). Qed.

Lemma shuffleDeck_first confirmed rnd c :
  hasShuffledDeckHook c = false →
  hasShuffledDeckHook (shuffleDeck confirmed rnd c) = true.
Proof. intros H. unfold shuffleDeck. by rewrite H. Qed.

(** X8.  From an unlocked builder, lock makes a deck that refuses a draw with
    the shuffle message; the first shuffle needs no confirmation and
    makes the deck drawable; a later shuffle that is not confirmed
    changes nothing; and after unlock a draw is refused with the lock
    message. *)
Theorem lifecycle_lock_shuffle_draw (p : Props) (rnd1 rnd2 rnd3 : Entropy)
    (confirmed eager : bool) (c : Component) :
  isLocked (builderState c) = false →
  let c1 := toggleLockDeck p rnd1 c in
  let c2 := shuffleDeck confirmed rnd2 c1 in
  let c3 := toggleLockDeck p rnd3 c2 in
  handleDraw eager c1 = setOpsError (Some msgShuffle) c1 ∧
  deck (builderState c2) ≡ₚ buildDeckArray p (builderState c) ∧
  handleDraw eager c2 = draw eager c2 ∧
  shuffleDeck false rnd3 c2 = c2 ∧
  handleDraw eager c3 = setOpsError (Some msgLock) c3.
Proof.
  intros Hl c1 c2 c3.
  assert (H1 : isLocked (builderState c1) = true ∧ hasBuiltDeckHook c1 = true ∧
               hasShuffledDeckHook c1 = false).
  { subst c1. by rewrite toggleLockDeck_lock. }
  destruct H1 as (Hl1 & Hb1 & Hs1).
  assert (H2 : isLocked (builderState c2) = true ∧ hasBuiltDeckHook c2 = true ∧
               hasShuffledDeckHook c2 = true).
  { subst c2. destruct (shuffleDeck_frame confirmed rnd2 c1) as (-> & -> & _).
    by rewrite shuffleDeck_first. }
  destruct H2 as (Hl2 & Hb2 & Hs2).
  split_and!.
  - unfold handleDraw, needsLock, needsBuild, needsShuffle. by rewrite Hl1, Hb1, Hs1.
  - subst c2. rewrite shuffleDeck_deck. subst c1. rewrite locked_deck by done.
    apply shuffleInPlace_Permutation.
  - unfold handleDraw, needsLock, needsBuild, needsShuffle. by rewrite Hl2, Hb2, Hs2.
  - unfold shuffleDeck. by rewrite Hs2.
  - subst c3. rewrite toggleLockDeck_unlock by done.
    unfold handleDraw, needsLock. done.
Qed.

Lemma lifecycle_lock_shuffle_draw_witness :
  handleDraw false (toggleLockDeck sampleProps sampleEntropy (initialComponent sampleProps))
  = setOpsError (Some msgShuffle)
      (toggleLockDeck sampleProps sampleEntropy (initialComponent sampleProps)) ∧
  length (hand (builderState
            (handleDraw false (shuffleDeck false sampleEntropy lockedSample)))) = 1%nat.
Proof.
  pose proof (lifecycle_lock_shuffle_draw sampleProps sampleEntropy sampleEntropy
                sampleEntropy false false (initialComponent sampleProps) eq_refl) as H.
  cbv zeta in H. destruct H as (H1 & _ & H2 & _).
  split; [exact H1|]. unfold lockedSample. rewrite H2. vm_compute. reflexivity.
Defined.

(** ** The shuffle reaches every order *)

Lemma swap_last {A} (pre0 suf : list A) (y x : A) j :
  (j <= length pre0)%nat →
  (pre0 ++ [y]) !! j = Some x →
  ∃ pre2, swap (length pre0) j ((pre0 ++ [y]) ++ suf) = (pre2 ++ [x]) ++ suf ∧
          pre2 ++ [x] ≡ₚ pre0 ++ [y] ∧ length pre2 = length pre0.
Proof.
  intros Hj Hx. unfold swap.
  assert (Hi : ((pre0 ++ [y]) ++ suf) !! length pre0 = Some y).
  { rewrite <-app_assoc. cbn [app]. by apply list_lookup_middle. }
  assert (Hjx : ((pre0 ++ [y]) ++ suf) !! j = Some x).
  { apply lookup_app_l_Some. done. }
  rewrite Hi, Hjx.
  destruct (decide (j = length pre0)) as [->|Hne].
  - assert (x = y) as -> by congruence.
    exists pre0. split_and!; [|done|done].
    by rewrite (list_insert_id _ _ _ Hi), (list_insert_id _ _ _ Hi).
  - assert (Hlt : (j < length pre0)%nat) by lia.
    assert (Hpj : pre0 !! j = Some x) by (by rewrite lookup_app_l in Hx).
    exists (<[j := y]> pre0). split_and!.
    + rewrite <-!app_assoc. cbn [app].
      rewrite (insert_app_r_alt pre0 _ (length pre0)) by lia.
      replace (length pre0 - length pre0)%nat with 0%nat by lia. cbn [insert list_insert].
      by rewrite insert_app_l.
    + rewrite <-!Permutation_cons_append. by apply insert_cons_Permutation.
    + by rewrite length_insert.
Qed.

Lemma shuffleLoop_reaches {A} i (pre target suf : list A) :
  length pre = S i → pre ≡ₚ target →
  ∃ rnd, (shuffleLoop i rnd (pre ++ suf)).1 = target ++ suf.
Proof.
  revert pre target suf. induction i as [|i IH]; intros pre target suf Hlen Hperm.
  - exists (fun _ => 0%nat). cbn [shuffleLoop fst].
    destruct pre as [|a [|b pre]]; simplify_eq/=.
    apply Permutation_singleton_l in Hperm. by subst target.
  - destruct target as [|x0 t0] using rev_ind.
    { apply Permutation_nil_r in Hperm. by subst pre. }
    clear IHt0. rename x0 into x, t0 into t.
    destruct pre as [|y0 p0] using rev_ind; [done|]. clear IHp0.
    rename y0 into y, p0 into pre0.
    rewrite length_app in Hlen. simpl in Hlen.
    assert (Hl0 : length pre0 = S i) by lia.
    assert (Hin : x ∈ pre0 ++ [y]) by (rewrite Hperm; set_solver).
    apply list_elem_of_lookup in Hin as [j Hj].
    assert (Hjle : (j <= length pre0)%nat).
    { apply lookup_lt_Some in Hj. rewrite length_app in Hj. simpl in Hj. lia. }
    destruct (swap_last pre0 suf y x j Hjle Hj) as (pre2 & Hswap & Hp2 & Hl2).
    assert (Hpt : pre2 ≡ₚ t).
    { apply (Permutation_app_inv_r [x]). by rewrite Hp2. }
    destruct (IH pre2 t ([x] ++ suf)) as [rnd' Hrnd']; [lia | done |].
    exists (fun k => match k with O => j | S k' => rnd' k' end).
    cbn [shuffleLoop randomIndex].
    replace (j mod (S i + 1))%nat with j by (symmetry; apply Nat.mod_small; lia).
    rewrite <-Hl0, Hswap, <-!app_assoc. exact Hrnd'.
Qed.

Lemma shuffleInPlace_reaches {A} (arr target : list A) :
  arr ≡ₚ target → ∃ rnd, (shuffleInPlace rnd arr).1 = target.
Proof.
  intros Hperm. unfold shuffleInPlace.
  destruct (length arr) as [|i] eqn:Hlen.
  - apply length_zero_iff_nil in Hlen. subst arr.
    apply Permutation_nil_l in Hperm. subst target. by exists (fun _ => 0%nat).
  - destruct (shuffleLoop_reaches i arr target [] Hlen Hperm) as [rnd Hrnd].
    exists rnd. rewrite !app_nil_r in Hrnd.
    by replace (S i - 1)%nat with i by lia.
Qed.

(** X9.  Every order of the deck can come out of a shuffle: for each
    rearrangement of the cards in the deck there are random draws for
    which a confirmed [shuffleDeck] leaves exactly that order. *)
Theorem shuffleDeck_reaches_every_order (c : Component) (target : list string) :
  deck (builderState c) ≡ₚ target →
  ∃ rnd, deck (builderState (shuffleDeck true rnd c)) = target.
Proof.
  intros Hperm. destruct (shuffleInPlace_reaches _ _ Hperm) as [rnd Hrnd].
  exists rnd. unfold shuffleDeck. rewrite andb_false_r. cbn.
  destruct (Nat.eqb_spec (length (deck (builderState c))) 0) as [H0|H0]; [|done].
  apply length_zero_iff_nil in H0. rewrite H0 in *. by apply Permutation_nil_l in Hperm.
Qed.

Lemma threeCards_deck : deck (builderState threeCards) = ["a"; "b"; "c"]%string.
Proof. by vm_compute. Qed.

Lemma shuffleDeck_reaches_every_order_witness :
  ∃ rnd, deck (builderState (shuffleDeck true rnd threeCards)) = ["b"; "c"; "a"]%string.
Proof.
  apply shuffleDeck_reaches_every_order. rewrite threeCards_deck.
  apply (Permutation_app_comm ["a"%string] ["b"%string; "c"%string]).
Defined.

(** ** Discarding every copy from the hand *)

Lemma take_delete_same {A} (l : list A) i : take i (delete i l) = take i l.
Proof.
  revert i. induction l as [|a l IH]; intros [|i]; simpl; try done.
  by rewrite IH.
Qed.

Lemma drop_delete_same {A} (l : list A) i : drop i (delete i l) = drop (S i) l.
Proof.
  revert i. induction l as [|a l IH]; intros [|i]; simpl; rewrite ?drop_0; try done.
Qed.

Lemma filter_complement_nil {A} (P : A → Prop) `{∀ x, Decision (P x)} (l : list A) :
  filter P l = [] → filter (fun x => ¬ P x) l = l.
Proof.
  induction l as [|a l IH]; [done|]. rewrite !filter_cons.
  destruct (decide (P a)); [done|]. intros Hl.
  destruct (decide (¬ P a)); [|done]. by rewrite IH.
Qed.

Lemma filter_none {A} (P : A → Prop) `{∀ x, Decision (P x)} (l : list A) :
  (∀ x, ¬ P x) → filter P l = [].
Proof.
  intros HP. induction l as [|a l IH]; [done|]. rewrite filter_cons.
  destruct (decide (P a)) as [Ha|_]; [by apply HP in Ha | done].
Qed.

Lemma removeAll_loop_exact cardId n hd removed :
  (n <= length hd)%nat →
  removeAll_loop cardId n hd removed
  = (filter (fun h => hand_id h ≠ cardId) (take n hd) ++ drop n hd,
     removed ++ reverse (filter (fun h => hand_id h = cardId) (take n hd))).
Proof.
  revert hd removed. induction n as [|i IH]; intros hd removed Hn; cbn [removeAll_loop].
  - by rewrite take_0, drop_0, app_nil_r.
  - destruct (lookup_lt_is_Some_2 hd i) as [h Hh]; [lia|]. rewrite Hh.
    rewrite (take_S_r _ _ _ Hh), !filter_app, !filter_cons, !filter_nil.
    case_bool_decide as Hid.
    + rewrite IH by (rewrite length_delete by eauto; lia).
      rewrite take_delete_same, drop_delete_same.
      destruct (decide (hand_id h ≠ cardId)); [done|].
      destruct (decide (hand_id h = cardId)); [|done].
      by rewrite reverse_app, app_nil_r, <-app_assoc.
    + rewrite IH by lia. rewrite (drop_S _ _ _ Hh).
      destruct (decide (hand_id h ≠ cardId)); [|done].
      destruct (decide (hand_id h = cardId)); [done|].
      by rewrite !app_nil_r, <-app_assoc.
Qed.

Lemma map_replicate_same {A B} (f : A → B) (b : B) (l : list A) :
  Forall (fun a => f a = b) l → map f l = replicate (length l) b.
Proof. induction 1 as [|a l Ha _ IH]; simpl; [done|]. by rewrite Ha, IH. Qed.

Lemma copies_map_hand_id cardId (l : list HandEntry) :
  copies cardId (map hand_id l) = length (filter (fun h => hand_id h = cardId) l).
Proof.
  unfold copies. induction l as [|h l IH]; [done|]. cbn [map].
  rewrite !filter_cons. destruct (decide (hand_id h = cardId)); simpl; by rewrite IH.
Qed.

(** X10.  [discardGroupFromHand] with [all] takes every copy of the card out
    of the hand and puts as many entries with the given origin at the end
    of the discard pile; the other cards keep their places in hand, and
    the deck is not touched. *)
Theorem discardGroupFromHand_all (cardId : string) (origin : Origin) (s : DeckBuilderState) :
  let s' := discardGroupFromHand cardId true origin s in
  hand s' = filter (fun h => hand_id h ≠ cardId) (hand s) ∧
  discard s'
  = discard s ++ replicate (copies cardId (map hand_id (hand s))) (discardedAs origin cardId) ∧
  copies cardId (map hand_id (hand s')) = 0%nat ∧
  deck s' = deck s.
Proof.
  intros s'.
  assert (Hmain : hand s' = filter (fun h => hand_id h ≠ cardId) (hand s) ∧
                  discard s' = discard s ++
                    replicate (copies cardId (map hand_id (hand s)))
                              (discardedAs origin cardId) ∧
                  deck s' = deck s).
  { subst s'. unfold discardGroupFromHand.
    rewrite removeAll_loop_exact by done.
    rewrite firstn_all, drop_all, app_nil_r, app_nil_l, copies_map_hand_id.
    destruct (Nat.eqb_spec
                (length (reverse (filter (fun h => hand_id h = cardId) (hand s)))) 0)
      as [H0|H0].
    - rewrite length_reverse in H0. rewrite H0. cbn [replicate]. rewrite app_nil_r.
      apply length_zero_iff_nil in H0.
      split_and!; [|done|done]. symmetry. by apply filter_complement_nil.
    - cbn. split_and!; [done| |done]. f_equal.
      rewrite <-(length_reverse (filter _ (hand s))).
      apply map_replicate_same, list.Forall_forall.
      intros h Hh. apply elem_of_reverse, list_elem_of_filter in Hh.
      unfold discardedAs. by rewrite (proj1 Hh). }
  destruct Hmain as (Hh & Hd & Hk). split_and!; [done | done | | done].
  rewrite Hh, copies_map_hand_id, list_filter_filter.
  rewrite filter_none; [done|]. by intros h [H1 H2].
Qed.

(** ** Returning discards to the hand *)

Lemma filter_delete_match {A} (P : A → Prop) `{∀ x, Decision (P x)} (l : list A) i e :
  l !! i = Some e → P e →
  filter P l = filter P (take i l) ++ e :: filter P (drop (S i) l) ∧
  filter P (delete i l) = filter P (take i l) ++ filter P (drop (S i) l) ∧
  filter (fun x => ¬ P x) (delete i l) = filter (fun x => ¬ P x) l.
Proof.
  intros Hi He. pose proof (take_drop_middle l i e Hi) as Hl.
  assert (Hcons : ∀ k, filter P (e :: k) = e :: filter P k).
  { intros k. rewrite filter_cons. by destruct (decide (P e)). }
  assert (Hcons' : ∀ k, filter (fun x => ¬ P x) (e :: k) = filter (fun x => ¬ P x) k).
  { intros k. rewrite filter_cons. by destruct (decide (¬ P e)). }
  split_and!.
  - replace (filter P l) with (filter P (take i l ++ e :: drop (S i) l)) by (by rewrite Hl).
    by rewrite filter_app, Hcons.
  - by rewrite delete_take_drop, filter_app.
  - replace (filter (fun x => ¬ P x) l)
      with (filter (fun x => ¬ P x) (take i l ++ e :: drop (S i) l)) by (by rewrite Hl).
    by rewrite delete_take_drop, !filter_app, Hcons'.
Qed.

Lemma copies_map_discard_id cardId (l : list DiscardEntry) :
  copies cardId (map discard_id l) = length (filter (fun e => discard_id e = cardId) l).
Proof.
  unfold copies. induction l as [|e l IH]; [done|]. cbn [map].
  rewrite !filter_cons. destruct (decide (discard_id e = cardId)); simpl; by rewrite IH.
Qed.

Lemma returnToHand_loop_all cardId space n dc moved dc' moved' :
  returnToHand_loop cardId true space n dc moved = (dc', moved') →
  (n <= length dc)%nat →
  filter (fun e => discard_id e = cardId) (drop n dc) = [] →
  Z.of_nat (length moved) <= space →
  filter (fun e => discard_id e = cardId) dc ++ reverse moved
  = filter (fun e => discard_id e = cardId) dc' ++ reverse moved' ∧
  filter (fun e => discard_id e ≠ cardId) dc' = filter (fun e => discard_id e ≠ cardId) dc ∧
  Z.of_nat (length moved')
  = Z.min space
      (Z.of_nat (length moved
                 + length (filter (fun e => discard_id e = cardId) (take n dc)))) ∧
  (Forall (fun e => discard_id e = cardId) moved →
   Forall (fun e => discard_id e = cardId) moved').
Proof.
  revert dc moved. induction n as [|i IH]; intros dc moved Hloop Hn Hdrop Hsp;
    cbn [returnToHand_loop] in Hloop.
  - simplify_eq. rewrite take_0. cbn. split_and!; [done | done | lia | done].
  - destruct (Z.ltb_spec (Z.of_nat (length moved)) space) as [Hlt|Hge].
    2:{ simplify_eq. split_and!; [done | done | lia | done]. }
    destruct (lookup_lt_is_Some_2 dc i) as [e He]; [lia|]. rewrite He in Hloop.
    rewrite (take_S_r _ _ _ He), filter_app, filter_cons, filter_nil, length_app.
    case_bool_decide as Hid.
    + destruct (filter_delete_match (fun e => discard_id e = cardId) dc i e He Hid)
        as (Hf & Hfd & Hfn).
      apply IH in Hloop as (Ho & Hne & Hc & Hall).
      * rewrite take_delete_same in Hc. rewrite Hfn in Hne.
        destruct (decide (discard_id e = cardId)); [|done].
        split_and!; [|done| |].
        -- rewrite <-Ho, Hf, Hfd, Hdrop, reverse_app, !app_nil_r. cbn.
           by rewrite <-app_assoc.
        -- rewrite Hc, length_app. cbn. f_equal. lia.
        -- intros Hm. apply Hall, Forall_app. split; [done | by constructor].
      * rewrite length_delete by eauto. lia.
      * by rewrite drop_delete_same.
      * rewrite length_app. simpl. lia.
    + apply IH in Hloop as (Ho & Hne & Hc & Hall); [|lia| |lia].
      * destruct (decide (discard_id e = cardId)); [done|].
        split_and!; [done | done | | done].
        rewrite Hc. cbn. f_equal. lia.
      * rewrite (drop_S _ _ _ He), filter_cons.
        by destruct (decide (discard_id e = cardId)).
Qed.

Lemma returnToHand_loop_one cardId space n dc dc' moved' :
  returnToHand_loop cardId false space n dc [] = (dc', moved') →
  (n <= length dc)%nat →
  filter (fun e => discard_id e = cardId) (drop n dc) = [] →
  0 < space →
  filter (fun e => discard_id e = cardId) dc
  = filter (fun e => discard_id e = cardId) dc' ++ reverse moved' ∧
  filter (fun e => discard_id e ≠ cardId) dc' = filter (fun e => discard_id e ≠ cardId) dc ∧
  length moved'
  = Nat.min 1 (length (filter (fun e => discard_id e = cardId) (take n dc))) ∧
  Forall (fun e => discard_id e = cardId) moved'.
Proof.
  revert dc. induction n as [|i IH]; intros dc Hloop Hn Hdrop Hsp;
    cbn [returnToHand_loop] in Hloop.
  - simplify_eq. rewrite take_0, app_nil_r. by cbn.
  - cbn [length] in Hloop.
    destruct (Z.ltb_spec (Z.of_nat 0) space) as [_|Hge]; [|lia].
    destruct (lookup_lt_is_Some_2 dc i) as [e He]; [lia|]. rewrite He in Hloop.
    rewrite (take_S_r _ _ _ He), filter_app, filter_cons, filter_nil, length_app.
    case_bool_decide as Hid.
    + destruct (filter_delete_match (fun e => discard_id e = cardId) dc i e He Hid)
        as (Hf & Hfd & Hfn).
      simplify_eq. destruct (decide (discard_id e = discard_id e)); [|done].
      split_and!.
      * rewrite Hf, Hfd, Hdrop, !app_nil_r. done.
      * done.
      * cbn [app length]. lia.
      * by constructor.
    + apply IH in Hloop as (Ho & Hne & Hc & Hall); [|lia| |lia].
      * destruct (decide (discard_id e = cardId)); [done|].
        split_and!; [done | done | | done]. rewrite Hc. cbn [length]. f_equal. lia.
      * rewrite (drop_S _ _ _ He), filter_cons.
        by destruct (decide (discard_id e = cardId)).
Qed.

Lemma returnDiscardGroupToHand_filters (cardId : string) (all : bool) (s : DeckBuilderState) :
  let k := returnable cardId all s in
  let s' := returnDiscardGroupToHand cardId all s in
  hand s' = hand s ++ replicate k (drawn cardId) ∧
  filter (fun e => discard_id e = cardId) (discard s')
  = take (copies cardId (map discard_id (discard s)) - k)
         (filter (fun e => discard_id e = cardId) (discard s)) ∧
  filter (fun e => discard_id e ≠ cardId) (discard s')
  = filter (fun e => discard_id e ≠ cardId) (discard s) ∧
  deck s' = deck s ∧ handLimit s' = handLimit s.
Proof.
  intros k s'. subst k s'. unfold returnable, returnDiscardGroupToHand.
  rewrite copies_map_discard_id.
  set (space := Z.max 0 (handLimit s - Z.of_nat (length (hand s)))).
  set (P := fun e => discard_id e = cardId).
  set (count := length (filter P (discard s))).
  assert (Hnone : ∀ k, k = 0%nat →
            hand s = hand s ++ replicate k (drawn cardId) ∧
            filter P (discard s) = take (count - k) (filter P (discard s))).
  { intros k ->. cbn [replicate]. rewrite app_nil_r. split; [done|].
    by rewrite take_ge by (subst count; lia). }
  destruct (Z.leb_spec space 0) as [Hfull|Hroom].
  { destruct (Hnone (Z.to_nat (Z.min space
                (Z.of_nat (if all then count else Nat.min 1 count))))) as [Hh Hd]; [lia|].
    by split_and!. }
  destruct (returnToHand_loop _ _ _ _ _ _) as [dc' moved'] eqn:Hloop.
  assert (Hfacts : filter P (discard s) = filter P dc' ++ reverse moved' ∧
                   filter (fun e => discard_id e ≠ cardId) dc'
                   = filter (fun e => discard_id e ≠ cardId) (discard s) ∧
                   length moved'
                   = Z.to_nat (Z.min space
                       (Z.of_nat (if all then count else Nat.min 1 count))) ∧
                   Forall P moved').
  { destruct all.
    - apply returnToHand_loop_all in Hloop as (Ho & Hne & Hc & Hall);
        [|done|by rewrite drop_all|cbn; lia].
      rewrite firstn_all in Hc. cbn in Ho, Hc. rewrite app_nil_r in Ho.
      split_and!; [done | done | fold P count in Hc; lia | by apply Hall].
    - apply returnToHand_loop_one in Hloop as (Ho & Hne & Hc & Hall);
        [|done|by rewrite drop_all|done].
      rewrite firstn_all in Hc. fold P count in Hc.
      split_and!; [done | done | lia | done]. }
  destruct Hfacts as (Ho & Hne & Hk & Hall). rewrite <-Hk.
  destruct (Nat.eqb_spec (length moved') 0) as [H0|H0].
  - destruct (Hnone (length moved') H0) as [Hh Hd]. by split_and!.
  - cbn. split_and!; [|  |done|done|done].
    + f_equal. apply map_replicate_same.
      eapply Forall_impl; [exact Hall|]. intros e He. unfold drawn, asUnspent.
      unfold P in He. by rewrite He.
    + assert (Hcount : count = (length (filter P dc') + length moved')%nat).
      { subst count. by rewrite Ho, length_app, length_reverse. }
      rewrite Ho. replace (count - length moved')%nat with (length (filter P dc')) by lia.
      by rewrite take_app_length.
Qed.

Lemma withoutOldest_0 cardId (dz : list DiscardEntry) : withoutOldest 0 cardId dz = dz.
Proof. by destruct dz. Qed.

Lemma withoutNewest_0 cardId (dz : list DiscardEntry) : withoutNewest 0 cardId dz = dz.
Proof. unfold withoutNewest. by rewrite withoutOldest_0, reverse_involutive. Qed.

Lemma withoutNewest_snoc k cardId (dz : list DiscardEntry) e :
  withoutNewest k cardId (dz ++ [e])
  = match k with
    | O => dz ++ [e]
    | S k' =>
        if decide (discard_id e = cardId) then withoutNewest k' cardId dz
        else withoutNewest k cardId dz ++ [e]
    end.
Proof.
  unfold withoutNewest. rewrite reverse_snoc. destruct k as [|k'].
  - by rewrite !withoutOldest_0, reverse_cons, reverse_involutive.
  - cbn [withoutOldest]. destruct (decide (discard_id e = cardId)); [done|].
    by rewrite reverse_cons.
Qed.

Lemma returnToHand_loop_exact cardId all space n dc moved dc' moved' :
  returnToHand_loop cardId all space n dc moved = (dc', moved') →
  (n <= length dc)%nat →
  ∃ j, length moved' = (length moved + j)%nat ∧
       dc' = withoutNewest j cardId (take n dc) ++ drop n dc.
Proof.
  revert dc moved. induction n as [|i IH]; intros dc moved Hloop Hn;
    cbn [returnToHand_loop] in Hloop.
  - simplify_eq. exists 0%nat. split; [lia|]. by rewrite take_0, drop_0.
  - destruct (Z.ltb_spec (Z.of_nat (length moved)) space) as [Hlt|Hge].
    2:{ simplify_eq. exists 0%nat. split; [lia|].
        by rewrite withoutNewest_0, take_drop. }
    destruct (lookup_lt_is_Some_2 dc i) as [e He]; [lia|]. rewrite He in Hloop.
    rewrite (take_S_r _ _ _ He).
    case_bool_decide as Hid.
    + destruct all.
      * apply IH in Hloop as (j & Hj & ->); [|rewrite length_delete by eauto; lia].
        exists (S j). split; [rewrite Hj, length_app; cbn; lia|].
        rewrite withoutNewest_snoc, decide_True by done.
        by rewrite take_delete_same, drop_delete_same.
      * simplify_eq. exists 1%nat. split; [rewrite length_app; cbn; lia|].
        rewrite withoutNewest_snoc, decide_True by done.
        by rewrite withoutNewest_0, delete_take_drop.
    + apply IH in Hloop as (j & Hj & ->); [|lia].
      exists j. split; [done|].
      rewrite (drop_S _ _ _ He), withoutNewest_snoc.
      destruct j as [|j']; [by rewrite withoutNewest_0, <-app_assoc|].
      rewrite decide_False by done. by rewrite <-app_assoc.
Qed.

Lemma returnDiscardGroupToHand_discard (cardId : string) (all : bool) (s : DeckBuilderState) :
  discard (returnDiscardGroupToHand cardId all s)
  = withoutNewest (returnable cardId all s) cardId (discard s).
Proof.
  pose proof (returnDiscardGroupToHand_filters cardId all s) as H.
  cbv zeta in H. destruct H as (Hh & _).
  apply (f_equal length) in Hh. rewrite length_app, length_replicate in Hh.
  revert Hh. unfold returnDiscardGroupToHand.
  destruct (Z.leb_spec (Z.max 0 (handLimit s - Z.of_nat (length (hand s)))) 0) as [Hfull|Hroom].
  { intros Hh. replace (returnable cardId all s) with 0%nat by lia.
    by rewrite withoutNewest_0. }
  destruct (returnToHand_loop _ _ _ _ _ _) as [dc' moved'] eqn:Hloop.
  apply returnToHand_loop_exact in Hloop as (j & Hj & ->); [|done].
  rewrite firstn_all, drop_all, app_nil_r in *. cbn [length] in Hj.
  destruct (Nat.eqb_spec (length moved') 0) as [H0|H0].
  - intros Hh. replace (returnable cardId all s) with 0%nat by lia.
    by rewrite withoutNewest_0.
  - cbn. rewrite length_app, length_map. intros Hh.
    by replace (returnable cardId all s) with j by lia.
Qed.

(** X11.  [returnDiscardGroupToHand] moves the most recently discarded copies
    of the card, as many as there are (one without [all]) but no more
    than the hand has room for, and appends them unspent to the hand; the
    discard pile is left exactly as it was but for those copies, the
    older copies and every other entry staying in their places; the deck
    is not touched. *)
Theorem returnDiscardGroupToHand_moves (cardId : string) (all : bool) (s : DeckBuilderState) :
  let k := returnable cardId all s in
  let s' := returnDiscardGroupToHand cardId all s in
  hand s' = hand s ++ replicate k (drawn cardId) ∧
  discard s' = withoutNewest k cardId (discard s) ∧
  filter (fun e => discard_id e = cardId) (discard s')
  = take (copies cardId (map discard_id (discard s)) - k)
         (filter (fun e => discard_id e = cardId) (discard s)) ∧
  filter (fun e => discard_id e ≠ cardId) (discard s')
  = filter (fun e => discard_id e ≠ cardId) (discard s) ∧
  deck s' = deck s ∧ handLimit s' = handLimit s.
Proof.
  intros k s'. subst k s'.
  pose proof (returnDiscardGroupToHand_filters cardId all s) as H.
  cbv zeta in H. destruct H as (Hh & Hf & Hn & Hd & Hl).
  split_and!; try assumption. apply returnDiscardGroupToHand_discard.
Qed.

Lemma roomForTwo_returnable : returnable "M1" true roomForTwo = 2%nat.
Proof. by vm_compute. Qed.

Lemma mixedPile_returnable : returnable "M1" true mixedPile = 2%nat.
Proof. by vm_compute. Qed.

Lemma mixedPile_withoutNewest :
  withoutNewest 2 "M1" (discard mixedPile)
  = [discardedAs played "M1"; discardedAs discarded "N"; discardedAs played "B1"].
Proof. by vm_compute. Qed.

Lemma returnDiscardGroupToHand_moves_witness :
  hand (returnDiscardGroupToHand "M1" true mixedPile)
    = [drawn "N"; drawn "N"; drawn "M1"; drawn "M1"] ∧
  discard (returnDiscardGroupToHand "M1" true mixedPile)
    = [discardedAs played "M1"; discardedAs discarded "N"; discardedAs played "B1"].
Proof.
  pose proof (returnDiscardGroupToHand_moves "M1" true mixedPile) as H.
  cbv zeta in H. rewrite mixedPile_returnable in H. destruct H as (Hh & Hd & _).
  split; [exact Hh|]. rewrite Hd. exact mixedPile_withoutNewest.
Defined.

(** ** Discarding from the deck *)

Lemma discardFromDeck_loop_exact n (dk : list string) dc :
  ""%string ∉ dk →
  discardFromDeck_loop n dk dc
  = (take (length dk - Nat.min n (length dk)) dk,
     dc ++ map (discardedAs discarded)
               (reverse (drop (length dk - Nat.min n (length dk)) dk))).
Proof.
  revert dk dc. induction n as [|n IH]; intros dk dc Hne; cbn [discardFromDeck_loop].
  - rewrite Nat.min_0_l, Nat.sub_0_r, firstn_all, drop_all. cbn. by rewrite app_nil_r.
  - destruct (pop_inv dk) as [[-> Hp]|(d & x & -> & Hp)]; rewrite Hp.
    + cbn. by rewrite app_nil_r.
    + unfold falsy. case_bool_decide as Hx.
      { subst x. exfalso. apply Hne. set_solver. }
      rewrite IH by set_solver. rewrite length_app. cbn [length].
      replace (length d + 1 - Nat.min (S n) (length d + 1))%nat
        with (length d - Nat.min n (length d))%nat by lia.
      rewrite take_app_le, drop_app_le by lia.
      rewrite reverse_app. cbn. by rewrite <-app_assoc.
Qed.

(** X12.  On a deck without an empty id, [discardFromDeck] moves the top
    [count] cards, or all of them when the deck holds fewer, to the end
    of the discard pile, the top card first, each with origin discarded;
    a count of zero or less moves nothing; the hand is not touched. *)
Theorem discardFromDeck_moves (count : Z) (s : DeckBuilderState) :
  ""%string ∉ deck s →
  let k := Nat.min (Z.to_nat count) (length (deck s)) in
  let s' := discardFromDeck_updater count s in
  deck s' = take (length (deck s) - k) (deck s) ∧
  discard s'
  = discard s ++ map (discardedAs discarded) (reverse (drop (length (deck s) - k) (deck s))) ∧
  hand s' = hand s.
Proof.
  intros Hne k s'. subst k s'. unfold discardFromDeck_updater.
  by rewrite discardFromDeck_loop_exact.
Qed.

Lemma overLimitSample_no_empty_id : ""%string ∉ deck (builderState overLimitSample).
Proof.
  rewrite overLimitSample_deck. intros Hin. apply list_elem_of_In in Hin.
  cbn in Hin. intuition discriminate.
Qed.

Lemma discardFromDeck_moves_witness :
  deck (discardFromDeck_updater 9 (builderState overLimitSample)) = [] ∧
  length (discard (discardFromDeck_updater 9 (builderState overLimitSample))) = 4%nat.
Proof.
  pose proof (discardFromDeck_moves 9 (builderState overLimitSample)
                overLimitSample_no_empty_id) as H.
  cbv zeta in H. destruct H as (Hd & Hc & _). rewrite Hd, Hc, overLimitSample_deck.
  split; vm_compute; reflexivity.
Defined.

(** X13.  Discarding the top card of the deck and then returning the last
    discard entry to the deck (index -1) gives back the state as it was. *)
Theorem discard_then_return_top (s : DeckBuilderState) (d : list string) (x : string) :
  deck s = d ++ [x] → x ≠ ""%string →
  returnDiscardItemToDeck (-1) (discardFromDeck_updater 1 s) = Some s.
Proof.
  intros Hd Hx. unfold discardFromDeck_updater.
  change (Z.to_nat 1) with 1%nat. cbn [discardFromDeck_loop].
  rewrite Hd, pop_snoc. unfold falsy. rewrite bool_decide_eq_false_2 by done.
  unfold returnDiscardItemToDeck, splice1, spliceStart. cbn.
  rewrite length_app. cbn.
  replace (Z.to_nat (Z.max (Z.of_nat (length (discard s) + 1) + -1) 0))
    with (length (discard s)) by lia.
  rewrite list_lookup_middle by done.
  rewrite delete_middle. f_equal. destruct s. cbn in *. subst. by rewrite app_nil_r.
Qed.

Lemma discard_then_return_top_witness :
  returnDiscardItemToDeck (-1) (discardFromDeck_updater 1 (builderState overLimitSample))
  = Some (builderState overLimitSample).
Proof.
  apply (discard_then_return_top _ ["N"; "N"; "N"]%string "N"%string).
  - exact overLimitSample_deck.
  - discriminate.
Defined.

(** ** Returning single discard entries by index *)

Lemma spliceStart_in_range len idx :
  (spliceStart len idx < len)%nat ↔ (len ≠ 0%nat ∧ idx < Z.of_nat len).
Proof.
  unfold spliceStart. destruct (Z.ltb_spec idx 0); lia.
Qed.

Lemma splice1_None {A} idx (arr : list A) :
  (splice1 idx arr).1 = None ↔ arr = [] ∨ Z.of_nat (length arr) <= idx.
Proof.
  unfold splice1. cbn. rewrite lookup_ge_None.
  pose proof (spliceStart_in_range (length arr) idx) as Hr.
  rewrite <-length_zero_iff_nil. lia.
Qed.

(** X14.  The index of [returnDiscardItemToDeck] and [returnDiscardItemToHand]
    counts from the end when negative (and from the first entry when it
    reaches before the start).  Both throw exactly when the discard pile
    is empty or the index is at or past its end, except that a return to
    a full hand is a no-op whatever the index is. *)
Theorem returnDiscardItem_errors (idx : Z) (s : DeckBuilderState) :
  (returnDiscardItemToDeck idx s = None ↔
     discard s = [] ∨ Z.of_nat (length (discard s)) <= idx) ∧
  (Z.of_nat (length (hand s)) < handLimit s →
     (returnDiscardItemToHand idx s = None ↔
        discard s = [] ∨ Z.of_nat (length (discard s)) <= idx)) ∧
  (handLimit s <= Z.of_nat (length (hand s)) → returnDiscardItemToHand idx s = Some s) ∧
  (∀ e, discard s !! spliceStart (length (discard s)) idx = Some e →
     returnDiscardItemToDeck idx s
     = Some (s |> set_discard (delete (spliceStart (length (discard s)) idx) (discard s))
               |> set_deck (deck s ++ [discard_id e]))) ∧
  (0 <= idx → spliceStart (length (discard s)) idx = Z.to_nat idx) ∧
  (idx < 0 → spliceStart (length (discard s)) idx
             = (length (discard s) - Z.to_nat (- idx))%nat).
Proof.
  split_and!.
  - rewrite <-splice1_None. unfold returnDiscardItemToDeck.
    destruct (splice1 idx (discard s)) as [[it|] d]; cbn; split; done.
  - intros Hroom. rewrite <-splice1_None. unfold returnDiscardItemToHand.
    destruct (Z.geb_spec (Z.of_nat (length (hand s))) (handLimit s)); [lia|].
    destruct (splice1 idx (discard s)) as [[it|] d]; cbn; split; done.
  - intros Hfull. unfold returnDiscardItemToHand.
    destruct (Z.geb_spec (Z.of_nat (length (hand s))) (handLimit s)); [done | lia].
  - intros e He. unfold returnDiscardItemToDeck, splice1. by rewrite He.
  - intros Hidx. unfold spliceStart. destruct (Z.ltb_spec idx 0); [lia | done].
  - intros Hidx. unfold spliceStart. destruct (Z.ltb_spec idx 0); lia.
Qed.

Lemma returnDiscardItem_errors_witness :
  returnDiscardItemToDeck 4 roomForTwo = None ∧
  returnDiscardItemToDeck (-9) roomForTwo
  = Some (roomForTwo
            |> set_discard [discardedAs discarded "N"; discardedAs discarded "M1";
                            discardedAs discarded "M1"]
            |> set_deck (deck roomForTwo ++ ["M1"%string])).
Proof.
  pose proof (returnDiscardItem_errors 4 roomForTwo) as (H4 & _).
  pose proof (returnDiscardItem_errors (-9) roomForTwo) as (_ & _ & _ & H9 & _).
  split.
  - apply H4. right. vm_compute. discriminate.
  - apply (H9 (discardedAs played "M1")). vm_compute. reflexivity.
Defined.

(** ** Returning discards to the deck *)

Lemma list_find_first {A} (P : A → Prop) `{∀ x, Decision (P x)} (l : list A) i e :
  list_find P l = Some (i, e) →
  filter P l = e :: filter P (delete i l) ∧
  filter (fun x => ¬ P x) (delete i l) = filter (fun x => ¬ P x) l.
Proof.
  intros (Hi & He & Hbefore)%list_find_Some.
  destruct (filter_delete_match P l i e Hi He) as (Hf & Hfd & Hfn).
  assert (Hnone : filter P (take i l) = []).
  { apply length_zero_iff_nil. destruct (filter P (take i l)) as [|a k] eqn:Hk; [done|].
    assert (Ha : a ∈ filter P (take i l)) by (rewrite Hk; set_solver).
    apply list_elem_of_filter in Ha as [HPa Hin].
    apply list_elem_of_lookup in Hin as [j Hj].
    assert (Hji : (j < i)%nat).
    { apply lookup_lt_Some in Hj. rewrite length_take in Hj. lia. }
    rewrite lookup_take_lt in Hj by done. by destruct (Hbefore j a Hj Hji). }
  rewrite Hf, Hfd, Hnone. done.
Qed.

Lemma returnDiscardGroupToDeck_filters (cardId : string) (all : bool) (s : DeckBuilderState) :
  let matching := copies cardId (map discard_id (discard s)) in
  let k := if all then matching else Nat.min 1 matching in
  let s' := returnDiscardGroupToDeck cardId all s in
  deck s' = deck s ++ replicate k cardId ∧
  filter (fun e => discard_id e = cardId) (discard s')
  = drop k (filter (fun e => discard_id e = cardId) (discard s)) ∧
  filter (fun e => discard_id e ≠ cardId) (discard s')
  = filter (fun e => discard_id e ≠ cardId) (discard s) ∧
  hand s' = hand s.
Proof.
  intros matching k s'. subst matching k s'. rewrite copies_map_discard_id.
  unfold returnDiscardGroupToDeck. destruct all.
  - cbn. split_and!; [| | |done].
    + f_equal. apply map_replicate_same, list.Forall_forall.
      intros e He. apply list_elem_of_filter in He. by destruct He.
    + rewrite drop_all, list_filter_filter. apply filter_none. by intros e [H1 H2].
    + rewrite list_filter_filter. apply list_filter_iff. tauto.
  - destruct (list_find _ _) as [[i e]|] eqn:Hf.
    + pose proof Hf as (_ & He & _)%list_find_Some.
      apply list_find_first in Hf as [Hf Hn]. cbn.
      rewrite Hf. cbn. by rewrite He, drop_0.
    + apply list_find_None in Hf.
      assert (H0 : filter (fun e => discard_id e = cardId) (discard s) = []).
      { apply length_zero_iff_nil. destruct (filter _ (discard s)) as [|a l] eqn:Hk; [done|].
        assert (Ha : a ∈ filter (fun e => discard_id e = cardId) (discard s))
          by (rewrite Hk; set_solver).
        apply list_elem_of_filter in Ha as [HPa Hin].
        rewrite list.Forall_forall in Hf. by destruct (Hf a Hin). }
      rewrite H0. cbn. by rewrite app_nil_r.
Qed.

Lemma withoutOldest_all k cardId (dz : list DiscardEntry) :
  (length (filter (fun e => discard_id e = cardId) dz) <= k)%nat →
  withoutOldest k cardId dz = filter (fun e => discard_id e ≠ cardId) dz.
Proof.
  revert k. induction dz as [|e rest IH]; intros k Hk.
  - by destruct k.
  - rewrite filter_cons in Hk. rewrite filter_cons.
    destruct (decide (discard_id e = cardId)) as [He|He].
    + cbn [length] in Hk. destruct k as [|k']; [lia|]. cbn [withoutOldest].
      rewrite decide_True by done. rewrite decide_False by tauto.
      apply IH. lia.
    + rewrite decide_True by done.
      destruct k as [|k'].
      * rewrite withoutOldest_0. f_equal. symmetry.
        apply filter_complement_nil. apply length_zero_iff_nil. lia.
      * cbn [withoutOldest]. rewrite decide_False by done. f_equal. by apply IH.
Qed.

Lemma list_find_withoutOldest cardId (dz : list DiscardEntry) :
  match list_find (fun e => discard_id e = cardId) dz with
  | Some (i, e) => delete i dz = withoutOldest 1 cardId dz
  | None => filter (fun e => discard_id e = cardId) dz = []
  end.
Proof.
  induction dz as [|e rest IH]; cbn [list_find withoutOldest]; [done|].
  rewrite filter_cons.
  destruct (decide (discard_id e = cardId)) as [He|He].
  - cbn. by rewrite withoutOldest_0.
  - destruct (list_find _ rest) as [[i x]|]; cbn; [by f_equal | done].
Qed.

Lemma returnDiscardGroupToDeck_discard (cardId : string) (all : bool) (s : DeckBuilderState) :
  discard (returnDiscardGroupToDeck cardId all s)
  = withoutOldest
      (if all then copies cardId (map discard_id (discard s))
       else Nat.min 1 (copies cardId (map discard_id (discard s))))
      cardId (discard s).
Proof.
  rewrite copies_map_discard_id. unfold returnDiscardGroupToDeck. destruct all.
  - cbn. symmetry. by apply withoutOldest_all.
  - pose proof (list_find_withoutOldest cardId (discard s)) as Hf.
    destruct (list_find _ _) as [[i e]|] eqn:Hfind.
    + cbn. rewrite Hf.
      apply list_find_Some in Hfind as (Hi & He & _).
      destruct (filter_delete_match (fun e => discard_id e = cardId) (discard s) i e Hi He)
        as (Hm & _). rewrite Hm, length_app. cbn [length].
      by rewrite Nat.add_succ_r.
    + rewrite Hf. cbn. by rewrite withoutOldest_0.
Qed.

(** X15.  [returnDiscardGroupToDeck] puts on top of the deck as many copies
    of the card as it takes off the discard pile: all of them with [all],
    otherwise one, and then the oldest (first found); the discard pile
    is left exactly as it was but for those copies, every other entry
    staying in its place; the hand is not touched. *)
Theorem returnDiscardGroupToDeck_moves (cardId : string) (all : bool) (s : DeckBuilderState) :
  let matching := copies cardId (map discard_id (discard s)) in
  let k := if all then matching else Nat.min 1 matching in
  let s' := returnDiscardGroupToDeck cardId all s in
  deck s' = deck s ++ replicate k cardId ∧
  discard s' = withoutOldest k cardId (discard s) ∧
  filter (fun e => discard_id e = cardId) (discard s')
  = drop k (filter (fun e => discard_id e = cardId) (discard s)) ∧
  filter (fun e => discard_id e ≠ cardId) (discard s')
  = filter (fun e => discard_id e ≠ cardId) (discard s) ∧
  hand s' = hand s.
Proof.
  intros matching k s'. subst matching k s'.
  pose proof (returnDiscardGroupToDeck_filters cardId all s) as H.
  cbv zeta in H. destruct H as (Hd & Hf & Hn & Hh).
  split_and!; try assumption. apply returnDiscardGroupToDeck_discard.
Qed.

Lemma mixedPile_withoutOldest :
  withoutOldest (Nat.min 1 (copies "M1" (map discard_id (discard mixedPile)))) "M1"
    (discard mixedPile)
  = [discardedAs discarded "N"; discardedAs discarded "M1"; discardedAs played "B1";
     discardedAs discarded "M1"].
Proof. by vm_compute. Qed.

Lemma returnDiscardGroupToDeck_moves_witness :
  discard (returnDiscardGroupToDeck "M1" false mixedPile)
  = [discardedAs discarded "N"; discardedAs discarded "M1"; discardedAs played "B1";
     discardedAs discarded "M1"].
Proof.
  pose proof (returnDiscardGroupToDeck_moves "M1" false mixedPile) as H.
  cbv zeta in H. destruct H as (_ & Hd & _).
  rewrite Hd. exact mixedPile_withoutOldest.
Defined.

(** ** A run of zone operations *)

Lemma zoneRun_run : run sampleProps zoneRun_commands fullHandSample = Some zoneRun.
Proof. by vm_compute. Qed.

Lemma fullHandSample_zoneIds :
  zoneIds (builderState fullHandSample) = ["N"; "N"; "N"; "N"; "N"]%string.
Proof. by vm_compute. Qed.

(** X1.  No card is created or lost by the zone operations: while no card
    id is the empty string, after every run of draws, discards and
    returns that does not throw, each card has as many copies in deck,
    hand and discard together as before the run, the three zones hold as
    many cards in total, and still no id is the empty string. *)
Theorem zone_runs_conserve_cards (p : Props) (cmds : list Command) (c c' : Component) :
  Forall (fun cmd => zoneOp cmd = true) cmds →
  ""%string ∉ zoneIds (builderState c) →
  run p cmds c = Some c' →
  (∀ cardId, copies cardId (zoneIds (builderState c'))
             = copies cardId (zoneIds (builderState c))) ∧
  (length (deck (builderState c')) + length (hand (builderState c'))
     + length (discard (builderState c'))
   = length (deck (builderState c)) + length (hand (builderState c))
     + length (discard (builderState c)))%nat ∧
  ""%string ∉ zoneIds (builderState c').
Proof.
  intros Hops Hne Hrun.
  pose proof (zone_conservation p cmds c c' Hops Hne Hrun) as Hperm.
  split_and!.
  - intros cardId. by apply copies_Permutation.
  - apply Permutation_length in Hperm. unfold zoneIds in Hperm.
    rewrite !length_app, !length_map in Hperm. lia.
  - by rewrite Hperm.
Qed.

Lemma zone_runs_conserve_cards_witness :
  copies "N" (zoneIds (builderState zoneRun))
    = copies "N" (zoneIds (builderState fullHandSample)) ∧
  ""%string ∉ zoneIds (builderState zoneRun).
Proof.
  assert (""%string ∉ zoneIds (builderState fullHandSample)) as Hne.
  { rewrite fullHandSample_zoneIds. intros Hin. apply list_elem_of_In in Hin.
    cbn in Hin. intuition discriminate. }
  assert (Forall (fun cmd => zoneOp cmd = true) zoneRun_commands) as Hops.
  { repeat constructor. }
  pose proof (zone_runs_conserve_cards sampleProps zoneRun_commands fullHandSample zoneRun
                Hops Hne zoneRun_run) as (Hc & _ & He).
  split; [exact (Hc "N"%string) | exact He].
Defined.

(** ** Invariants of the command surface *)

Lemma run_invariant (p : Props) (I : Component → Prop) (ok : Command → Prop) :
  (∀ cmd c c', I c → ok cmd → step p cmd c = Some c' → I c') →
  ∀ cmds c c', I c → Forall ok cmds → run p cmds c = Some c' → I c'.
Proof.
  intros Hstep cmds. induction cmds as [|cmd cmds IH]; intros c c' Hc Hok Hrun;
    simpl in Hrun.
  - by simplify_eq.
  - apply Forall_cons in Hok as [Hcmd Hok].
    destruct (step p cmd c) as [c1|] eqn:Hs; [|done]. simpl in Hrun.
    apply (IH c1 c'); [by eapply Hstep | done | done].
Qed.





Lemma finalize_fold_frame (ms : list string) s :
  let s' := foldl (fun s m => discardGroupFromHand m false played s) s ms in
  baseCounts s' = baseCounts s ∧ modCounts s' = modCounts s ∧
  nullCount s' = nullCount s ∧ handLimit s' = handLimit s ∧
  savedDecks s' = savedDecks s ∧
  hasBuiltDeck s' = hasBuiltDeck s ∧ hasShuffledDeck s' = hasShuffledDeck s.
Proof.
  revert s. induction ms as [|m ms IH]; intros s; cbn; [done|].
  destruct (IH (discardGroupFromHand m false played s)) as (-> & -> & -> & -> & -> & -> & ->).
  unfold discardGroupFromHand. by repeat case_match.
Qed.




Lemma flagsAgree_frame c c' :
  flagsAgree c →
  hasBuiltDeckHook c' = hasBuiltDeckHook c →
  hasShuffledDeckHook c' = hasShuffledDeckHook c →
  hasBuiltDeck (builderState c') = hasBuiltDeck (builderState c) →
  hasShuffledDeck (builderState c') = hasShuffledDeck (builderState c) →
  flagsAgree c'.
Proof. unfold flagsAgree. by intros [? ?] -> -> -> ->. Qed.

Lemma draw_flags eager c :
  hasBuiltDeckHook (draw eager c) = hasBuiltDeckHook c ∧
  hasShuffledDeckHook (draw eager c) = hasShuffledDeckHook c ∧
  hasBuiltDeck (builderState (draw eager c)) = hasBuiltDeck (builderState c) ∧
  hasShuffledDeck (builderState (draw eager c)) = hasShuffledDeck (builderState c).
Proof.
  rewrite builderState_draw.
  assert (Hh : hasBuiltDeckHook (draw eager c) = hasBuiltDeckHook c ∧
               hasShuffledDeckHook (draw eager c) = hasShuffledDeckHook c).
  { unfold draw. by repeat case_match. }
  destruct Hh as [-> ->].
  by destruct (draw_updater_cases (builderState c))
    as [[-> _]|(d & x & _ & _ & _ & _ & _ & _ & ->)].
Qed.

Lemma step_flagsAgree p cmd c c' :
  flagsAgree c → notLoadSavedDeck cmd → step p cmd c = Some c' → flagsAgree c'.
Proof.
  intros Hok Hcmd Hstep.
  destruct cmd; try done; step_inv Hstep.
  - eapply flagsAgree_frame; [done|done|done|..]; cbn;
      unfold adjustBaseCount; by repeat case_match.
  - eapply flagsAgree_frame; [done|done|done|..]; cbn;
      unfold adjustModCount; by repeat case_match.
  - by eapply flagsAgree_frame.
  - by eapply flagsAgree_frame.
  - unfold toggleLockDeck. by destruct (negb _).
  - unfold shuffleDeck. destruct (_ && _); [done|].
    destruct Hok as [Hb Hs]. split; [exact Hb | done].
  - unfold handleDraw. repeat case_match; try by eapply flagsAgree_frame.
    destruct (draw_flags eager c) as (?&?&?&?). by eapply flagsAgree_frame.
  - destruct (draw_flags eager c) as (?&?&?&?). by eapply flagsAgree_frame.
  - eapply flagsAgree_frame; [done|done|done|..];
      change (builderState (discardFromDeck count c))
        with (discardFromDeck_updater count (builderState c));
      unfold discardFromDeck_updater; by destruct (discardFromDeck_loop _ _ _).
  - eapply flagsAgree_frame; [done|done|done|..];
      change (builderState (returnDiscardToDeck shuffle toTop rnd c))
        with (returnDiscardToDeck_updater shuffle toTop rnd (builderState c));
      unfold returnDiscardToDeck_updater; by destruct (if shuffle then _ else _).
  - unfold returnDiscardItemToDeck in Hs. destruct (splice1 _ _) as [[it|] d]; [|done].
    injection Hs as <-. by eapply flagsAgree_frame.
  - eapply flagsAgree_frame; [done|done|done|..]; cbn;
      unfold returnDiscardGroupToDeck; by repeat case_match.
  - unfold returnDiscardItemToHand in Hs.
    repeat case_match; simplify_eq; try done; by eapply flagsAgree_frame.
  - eapply flagsAgree_frame; [done|done|done|..]; cbn;
      unfold returnDiscardGroupToHand; by repeat case_match.
  - eapply flagsAgree_frame; [done|done|done|..]; cbn;
      unfold discardGroupFromHand; by repeat case_match.
  - done.
  - split; cbn; unfold applyInitialCounts; by repeat case_match.
  - by eapply flagsAgree_frame.
  - by eapply flagsAgree_frame.
  - unfold startPlayBase. by repeat case_match.
  - unfold finalizePlay. destruct (finalizeSelection _) as [sel|]; [|done].
    destruct (finalize_fold_frame (mods sel)
                (discardGroupFromHand (baseId sel) false played (builderState c)))
      as (_ & _ & _ & _ & _ & E6 & E7).
    eapply flagsAgree_frame; [done|done|done|cbn; rewrite E6|cbn; rewrite E7];
      unfold discardGroupFromHand; by repeat case_match.
  - done.
Qed.

(** X17.  The two copies of the lifecycle flags, the hooks that gate the draw
    and the fields that are persisted, agree on every state reached from
    the first render by commands other than [loadSavedDeck] (which resets
    the hooks even when it finds no deck to load). *)
Theorem lifecycle_flags_agree (p : Props) (cmds : list Command) (c : Component) :
  Forall notLoadSavedDeck cmds →
  run p cmds (initialComponent p) = Some c →
  flagsAgree c.
Proof.
  intros Hcmds Hrun.
  apply (run_invariant p flagsAgree notLoadSavedDeck)
    with (cmds := cmds) (c := initialComponent p); [| |done|done].
  - intros cmd c0 c1. apply step_flagsAgree.
  - done.
Qed.

Lemma lifecycle_flags_agree_witness : flagsAgree fullHandSample.
Proof.
  apply (lifecycle_flags_agree sampleProps fullHand_commands).
  - repeat constructor.
  - exact fullHandSample_reachable.
Defined.

(** ** Loading and saving *)

Lemma buildInitialCounts_lookup cards cardId :
  buildInitialCounts cards !! cardId
  = if bool_decide (cardId ∈ map card_id cards) then Some 0 else None.
Proof.
  unfold buildInitialCounts.
  assert (H : ∀ acc : gmap string Z,
            foldl (fun acc card => <[card_id card := 0]> acc) acc cards !! cardId
            = if bool_decide (cardId ∈ map card_id cards) then Some 0 else acc !! cardId).
  { induction cards as [|card cards IH]; intros acc; cbn [foldl map].
    - rewrite bool_decide_eq_false_2; [done | apply not_elem_of_nil].
    - rewrite IH. destruct (decide (cardId = card_id card)) as [->|Hne].
      + rewrite lookup_insert_eq, (bool_decide_eq_true_2 (_ ∈ _ :: _))
          by (apply elem_of_cons; by left).
        by case_bool_decide.
      + rewrite lookup_insert_ne by done.
        case_bool_decide as H1; case_bool_decide as H2; try done.
        * exfalso. apply H2, elem_of_cons. by right.
        * exfalso. apply elem_of_cons in H2 as [H2|H2]; done. }
  rewrite H, lookup_empty. by case_bool_decide.
Qed.


Lemma spread_lookup (a b : gmap string Z) k :
  spread a b !! k = match b !! k with Some v => Some v | None => a !! k end.
Proof. unfold spread. rewrite lookup_union. by destruct (b !! k), (a !! k). Qed.

Lemma spread_covered cards (m : gmap string Z) :
  coversCatalogue cards m → spread (buildInitialCounts cards) m = m.
Proof.
  intros Hcov. apply map_eq. intros k. rewrite spread_lookup.
  destruct (m !! k) as [v|] eqn:Hk; [done|].
  rewrite buildInitialCounts_lookup. case_bool_decide as Hin; [|done].
  apply list_elem_of_In, in_map_iff in Hin as (card & <- & Hc).
  apply list_elem_of_In, Hcov in Hc as [v Hv]. congruence.
Qed.



(** X19.  Saving and loading again gives back the builder state, with the
    hooks' values for the two lifecycle flags, provided the state has at
    least [minNulls] nulls, a hand limit in [0 .. 20], and a count for
    every card of the catalogue. *)
Theorem save_then_load (p : Props) (c : Component) :
  minNulls p <= nullCount (builderState c) →
  0 <= handLimit (builderState c) <= MAX_HAND_LIMIT →
  coversCatalogue (baseCards p) (baseCounts (builderState c)) →
  coversCatalogue (modCards p) (modCounts (builderState c)) →
  loadState p (Some (persisted c))
  = set_flags (hasBuiltDeckHook c) (hasShuffledDeckHook c) (builderState c).
Proof.
  intros Hn Hh Hb Hm. unfold loadState, persisted, set_flags. cbn -[spread clamp].
  rewrite (spread_covered _ _ Hb), (spread_covered _ _ Hm).
  f_equal; [lia|]. unfold clamp.
  destruct (Z.ltb_spec (handLimit (builderState c)) 0); [lia|].
  destruct (Z.gtb_spec (handLimit (builderState c)) MAX_HAND_LIMIT); lia.
Qed.

Lemma fullHandSample_stored_fields :
  nullCount (builderState fullHandSample) = 5 ∧
  handLimit (builderState fullHandSample) = 5 ∧
  baseCounts (builderState fullHandSample) !! "B1"%string = Some 0 ∧
  modCounts (builderState fullHandSample) !! "M1"%string = Some 0.
Proof. by vm_compute. Qed.

Lemma save_then_load_witness :
  loadState sampleProps (Some (persisted fullHandSample))
  = set_flags (hasBuiltDeckHook fullHandSample) (hasShuffledDeckHook fullHandSample)
              (builderState fullHandSample).
Proof.
  destruct fullHandSample_stored_fields as (Hn & Hh & Hb & Hm).
  apply save_then_load.
  - rewrite Hn. vm_compute. discriminate.
  - rewrite Hh. vm_compute. split; discriminate.
  - intros card Hin. apply list_elem_of_singleton in Hin. subst card.
    cbn [card_id]. by rewrite Hb.
  - intros card Hin. apply list_elem_of_singleton in Hin. subst card.
    cbn [card_id]. by rewrite Hm.
Defined.

(** * Import and export of the stored data *)

(** An array index never lies in the namespace. *)
Lemma isCollapseKey_indexKey (i : nat) : isCollapseKey (indexKey i) = false.
Proof.
  unfold isCollapseKey, indexKey.
  by destruct (Nat.to_uint i).
Qed.

Lemma isCollapseKey_falsy (key : string) : isCollapseKey key = true → falsy key = false.
Proof. by destruct key. Qed.

Lemma snapshot_loop_lookup (parse : string → option Json) (l : list (string * string))
    (data : gmap string Json) (k : string) :
  NoDup l.*1 →
  foldl (λ data '(key, raw),
           if falsy key || negb (isCollapseKey key) then data
           else <[key := parseOrRaw parse raw]> data) data l !! k
  = match (if isCollapseKey k then (list_to_map l : gmap string string) !! k else None) with
    | Some raw => Some (parseOrRaw parse raw)
    | None => data !! k
    end.
Proof.
  revert data. induction l as [|[k0 raw0] l IH]; intros data Hnd.
  - cbn. by destruct (isCollapseKey k).
  - apply NoDup_cons in Hnd as [Hk0 Hnd]. cbn [foldl]. rewrite IH by done.
    cbn [list_to_map foldr uncurry fst snd].
    destruct (isCollapseKey k) eqn:Hk.
    + destruct (decide (k0 = k)) as [->|Hne].
      * rewrite (not_elem_of_list_to_map_1 l k) by done.
        rewrite lookup_insert_eq, (isCollapseKey_falsy _ Hk), Hk. cbn.
        by rewrite lookup_insert_eq.
      * rewrite lookup_insert_ne by done.
        destruct (list_to_map l !! k) as [raw|]; [done|].
        destruct (falsy k0 || negb (isCollapseKey k0)); [done|].
        by rewrite lookup_insert_ne.
    + destruct (falsy k0 || negb (isCollapseKey k0)) eqn:Hskip; [done|].
      rewrite lookup_insert_ne; [done|].
      intros ->. apply orb_false_iff in Hskip as [_ Hskip].
      rewrite Hk in Hskip. discriminate Hskip.
Qed.

Lemma snapshotCollapseData_lookup (parse : string → option Json) (st : Storage) (k : string) :
  snapshotCollapseData parse st !! k
  = if isCollapseKey k then parseOrRaw parse <$> st !! k else None.
Proof.
  unfold snapshotCollapseData.
  rewrite snapshot_loop_lookup by apply NoDup_fst_map_to_list.
  rewrite lookup_empty.
  destruct (isCollapseKey k); [|done].
  rewrite (list_to_map_to_list st). by destruct (st !! k).
Qed.

Lemma doomed_loop_elem (l : list (string * string)) (doomed : list string) (k : string) :
  k ∈ foldl (λ doomed '(key, _),
               if negb (falsy key) && isCollapseKey key then doomed ++ [key] else doomed)
            doomed l
  ↔ k ∈ doomed ∨ (isCollapseKey k = true ∧ k ∈ l.*1).
Proof.
  revert doomed. induction l as [|[k0 raw0] l IH]; intros doomed.
  - cbn. rewrite elem_of_nil. tauto.
  - cbn [foldl]. rewrite IH. cbn [fmap list_fmap fst]. rewrite elem_of_cons.
    destruct (isCollapseKey k0) eqn:Hk0.
    + rewrite (isCollapseKey_falsy _ Hk0). cbn [negb andb].
      rewrite elem_of_app, list_elem_of_singleton.
      split.
      * intros [[H|H]|[H1 H2]]; subst; auto.
      * intros [H|[Hk [H|H]]]; subst; auto.
    + rewrite andb_false_r.
      split; [tauto|]. intros [H|[Hk [H|H]]]; subst; [tauto| |tauto].
      rewrite Hk0 in Hk. discriminate Hk.
Qed.

Lemma doomedKeys_elem (st : Storage) (k : string) :
  k ∈ doomedKeys st ↔ isCollapseKey k = true ∧ is_Some (st !! k).
Proof.
  unfold doomedKeys. rewrite doomed_loop_elem, elem_of_nil.
  rewrite list_elem_of_fmap. split.
  - intros [[]|[Hk [[k' raw] [-> Hin]]]]. split; [done|].
    apply elem_of_map_to_list in Hin. by exists raw.
  - intros [Hk [raw Hraw]]. right. split; [done|].
    exists (k, raw). split; [done|]. by apply elem_of_map_to_list.
Qed.

Lemma foldl_delete_lookup (ks : list string) (st : Storage) (k : string) :
  foldl (λ st key, delete key st) st ks !! k
  = if decide (k ∈ ks) then None else st !! k.
Proof.
  revert st. induction ks as [|k0 ks IH]; intros st.
  - cbn. by rewrite decide_False by apply not_elem_of_nil.
  - cbn [foldl]. rewrite IH.
    destruct (decide (k ∈ ks)) as [Hin|Hnin].
    + by rewrite decide_True by (by right).
    + destruct (decide (k = k0)) as [->|Hne].
      * rewrite decide_True by left. apply lookup_delete_eq.
      * rewrite decide_False; [by rewrite lookup_delete_ne|].
        rewrite elem_of_cons. tauto.
Qed.

Lemma removeCollapseData_lookup (st : Storage) (k : string) :
  removeCollapseData st !! k = if isCollapseKey k then None else st !! k.
Proof.
  unfold removeCollapseData. rewrite foldl_delete_lookup.
  destruct (decide (k ∈ doomedKeys st)) as [Hin|Hnin].
  - apply doomedKeys_elem in Hin as [-> _]. done.
  - destruct (isCollapseKey k) eqn:Hk; [|done].
    destruct (st !! k) as [raw|] eqn:Hraw; [|done].
    exfalso. apply Hnin, doomedKeys_elem. by split; [|exists raw].
Qed.

Lemma lastEntry_cons (k k0 : string) (v0 : Json) (entries : list (string * Json)) :
  lastEntry k ((k0, v0) :: entries)
  = match lastEntry k entries with
    | Some v => Some v
    | None => if decide (k0 = k) then Some v0 else None
    end.
Proof.
  unfold lastEntry. rewrite filter_cons. cbn [fst].
  destruct (decide (k0 = k)) as [->|Hne].
  - destruct (filter (λ kv, kv.1 = k) entries) as [|kv l] eqn:Hf; [done|].
    rewrite last_cons_cons.
    destruct (last (kv :: l)) as [kv'|] eqn:Hl; [done|].
    by apply last_None in Hl.
  - by destruct (last (filter (λ kv, kv.1 = k) entries)).
Qed.

Lemma persistEntry_Some (stringify toText : Json → string)
    (accepts : Storage → string → string → bool)
    (k : string) (v : Json) (st st' : Storage) :
  persistEntry stringify toText accepts (k, v) st = Some st' →
  (st' = <[k := stringify v]> st ∧ accepts st k (stringify v) = true) ∨
  (st' = <[k := toText v]> st ∧ accepts st k (stringify v) = false ∧
   accepts st k (toText v) = true).
Proof.
  unfold persistEntry, setItem.
  destruct (accepts st k (stringify v)) eqn:Hjson.
  - intros [= <-]. by left.
  - destruct (accepts st k (toText v)) eqn:Htext; intros H; [|discriminate H].
    injection H as <-. by right.
Qed.

Lemma persistEntry_None (stringify toText : Json → string)
    (accepts : Storage → string → string → bool)
    (k : string) (v : Json) (st : Storage) :
  persistEntry stringify toText accepts (k, v) st = None →
  accepts st k (stringify v) = false ∧ accepts st k (toText v) = false.
Proof.
  unfold persistEntry, setItem.
  destruct (accepts st k (stringify v)); [intros H; discriminate H|].
  destruct (accepts st k (toText v)); [intros H; discriminate H|done].
Qed.

(** A key without an entry keeps its text, however far the loop ran. *)
Lemma persistCollapseEntries_untouched (stringify toText : Json → string)
    (accepts : Storage → string → string → bool)
    (entries : list (string * Json)) (st st' : Storage) (completed : bool) (k : string) :
  persistCollapseEntries stringify toText accepts entries st = (st', completed) →
  lastEntry k entries = None →
  st' !! k = st !! k.
Proof.
  revert st. induction entries as [|[k0 v0] entries IH]; intros st Hrun Hlast.
  - cbn in Hrun. by injection Hrun as <- _.
  - rewrite lastEntry_cons in Hlast.
    destruct (lastEntry k entries) as [v|] eqn:Hrest; [discriminate Hlast|].
    destruct (decide (k0 = k)) as [->|Hne]; [discriminate Hlast|].
    cbn [persistCollapseEntries] in Hrun.
    destruct (persistEntry stringify toText accepts (k0, v0) st) as [st1|] eqn:Hone.
    + rewrite (IH st1 Hrun eq_refl).
      apply persistEntry_Some in Hone as [[-> _]|[-> _]]; by rewrite lookup_insert_ne.
    + by injection Hrun as <- _.
Qed.

(** After the loop has run to its end, a key with an entry holds the
    JSON text of its last entry, or the plain text where a storage
    refused the JSON text. *)
Lemma persistCollapseEntries_written (stringify toText : Json → string)
    (accepts : Storage → string → string → bool)
    (entries : list (string * Json)) (st st' : Storage) (k : string) (v : Json) :
  persistCollapseEntries stringify toText accepts entries st = (st', true) →
  lastEntry k entries = Some v →
  (st' !! k = Some (stringify v) ∧ ∃ st0, accepts st0 k (stringify v) = true) ∨
  (st' !! k = Some (toText v) ∧
   ∃ st0, accepts st0 k (stringify v) = false ∧ accepts st0 k (toText v) = true).
Proof.
  revert st. induction entries as [|[k0 v0] entries IH]; intros st Hrun Hlast.
  - discriminate Hlast.
  - rewrite lastEntry_cons in Hlast.
    cbn [persistCollapseEntries] in Hrun.
    destruct (persistEntry stringify toText accepts (k0, v0) st) as [st1|] eqn:Hone;
      [|discriminate Hrun].
    destruct (lastEntry k entries) as [v'|] eqn:Hrest.
    + injection Hlast as ->. by apply (IH st1).
    + destruct (decide (k0 = k)) as [->|Hne]; [|discriminate Hlast].
      injection Hlast as ->.
      rewrite (persistCollapseEntries_untouched _ _ _ _ _ _ _ _ Hrun Hrest).
      apply persistEntry_Some in Hone as [[-> Hjson]|[-> [Hjson Htext]]].
      * left. rewrite lookup_insert_eq. split; [done|]. by exists st.
      * right. rewrite lookup_insert_eq. split; [done|]. by exists st.
Qed.

(** The loop is left early only by a write that was refused twice. *)
Lemma persistCollapseEntries_refused (stringify toText : Json → string)
    (accepts : Storage → string → string → bool)
    (entries : list (string * Json)) (st st' : Storage) :
  persistCollapseEntries stringify toText accepts entries st = (st', false) →
  ∃ st0 k v, (k, v) ∈ entries ∧
    accepts st0 k (stringify v) = false ∧ accepts st0 k (toText v) = false.
Proof.
  revert st. induction entries as [|[k0 v0] entries IH]; intros st Hrun.
  - discriminate Hrun.
  - cbn [persistCollapseEntries] in Hrun.
    destruct (persistEntry stringify toText accepts (k0, v0) st) as [st1|] eqn:Hone.
    + destruct (IH st1 Hrun) as (st0 & k & v & Hin & H). exists st0, k, v.
      split; [by right|done].
    + apply persistEntry_None in Hone. exists st, k0, v0. split; [left|done].
Qed.

(** A storage that takes every JSON text: the loop runs to its end and
    every entry is written as JSON. *)
Lemma persistCollapseEntries_accepting (stringify toText : Json → string)
    (accepts : Storage → string → string → bool)
    (entries : list (string * Json)) (st : Storage) :
  (∀ st0 k v, accepts st0 k (stringify v) = true) →
  (persistCollapseEntries stringify toText accepts entries st).2 = true ∧
  ∀ k, (persistCollapseEntries stringify toText accepts entries st).1 !! k
       = match lastEntry k entries with
         | Some v => Some (stringify v)
         | None => st !! k
         end.
Proof.
  intros Hacc.
  destruct (persistCollapseEntries stringify toText accepts entries st) as [st' b] eqn:Hrun.
  cbn [fst snd]. destruct b.
  - split; [done|]. intros k.
    destruct (lastEntry k entries) as [v|] eqn:Hlast.
    + destruct (persistCollapseEntries_written _ _ _ _ _ _ _ _ Hrun Hlast)
        as [[H _]|[_ [st0 [Hjson _]]]]; [done|].
      rewrite Hacc in Hjson. discriminate Hjson.
    + by apply (persistCollapseEntries_untouched _ _ _ _ _ _ _ _ Hrun).
  - apply persistCollapseEntries_refused in Hrun as (st0 & k & v & _ & Hjson & _).
    rewrite Hacc in Hjson. discriminate Hjson.
Qed.

Lemma lastEntry_NoDup (k : string) (l : list (string * Json)) :
  NoDup l.*1 → lastEntry k l = (list_to_map l : gmap string Json) !! k.
Proof.
  unfold lastEntry. induction l as [|[k0 v0] l IH]; intros Hnd; [done|].
  apply NoDup_cons in Hnd as [Hk0 Hnd]. specialize (IH Hnd).
  rewrite filter_cons. cbn [fst list_to_map foldr uncurry snd].
  destruct (decide (k0 = k)) as [->|Hne].
  - rewrite lookup_insert_eq.
    rewrite (not_elem_of_list_to_map_1 l k) in IH by done.
    destruct (filter (λ kv, kv.1 = k) l) as [|kv l']; [done|].
    exfalso. destruct (last (kv :: l')) eqn:Hl; [discriminate IH|].
    by apply last_None in Hl.
  - by rewrite lookup_insert_ne.
Qed.

Lemma lastEntry_map_to_list (k : string) (data : gmap string Json) :
  lastEntry k (map_to_list data) = data !! k.
Proof.
  rewrite lastEntry_NoDup by apply NoDup_fst_map_to_list.
  by rewrite list_to_map_to_list.
Qed.

Lemma lastEntry_filter (k : string) (entries : list (string * Json)) :
  lastEntry k (filter (λ kv, isCollapseKey kv.1 = true) entries)
  = if isCollapseKey k then lastEntry k entries else None.
Proof.
  unfold lastEntry. destruct (isCollapseKey k) eqn:Hk.
  - rewrite list_filter_filter_l; [done|].
    intros [k' v'] Heq. cbn [fst] in Heq |- *. by subst k'.
  - rewrite list_filter_filter, filter_none; [done|].
    intros [k' v'] [H1 H2]. cbn [fst] in H1, H2. subst k'.
    rewrite Hk in H2. discriminate H2.
Qed.

Lemma filterCollapseEntries_array (items : list Json) :
  filterCollapseEntries (JArr items) = [].
Proof.
  unfold filterCollapseEntries. cbn [objectEntries].
  change (filter (λ kv, isCollapseKey kv.1 = true)
            (imap (λ i v, (indexKey (id i), v)) items) = []).
  generalize (@id nat). induction items as [|v items IH]; intros f; [done|].
  cbn [imap]. rewrite filter_cons. cbn [fst].
  rewrite decide_False by (by rewrite isCollapseKey_indexKey).
  exact (IH (f ∘ S)).
Qed.

(** A confirmed import of an object with entries of the namespace
    empties the namespace and runs the loop of writes. *)
Lemma importParsed_confirmed (parse : string → option Json) (stringify toText : Json → string)
    (accepts : Storage → string → string → bool) (parsed : Json) (st : Storage) :
  isObject parsed = true →
  filterCollapseEntries (importedData parsed) ≠ [] →
  importParsed parse stringify toText accepts parsed true st
  = let run := persistCollapseEntries stringify toText accepts
                 (filterCollapseEntries (importedData parsed)) (removeCollapseData st) in
    (run.1, if run.2 then ImportComplete (snapshotCollapseData parse st)
            else ImportFailed WriteRefused).
Proof.
  intros Hobj Hne. unfold importParsed. rewrite Hobj. cbn [negb].
  destruct (filterCollapseEntries (importedData parsed)) as [|e es]; [done|].
  cbn [length Nat.eqb negb].
  destruct (persistCollapseEntries _ _ _ _ _) as [st' b]. cbv zeta. cbn [fst snd].
  by destruct b.
Qed.

Lemma importParsed_complete (parse : string → option Json) (stringify toText : Json → string)
    (accepts : Storage → string → string → bool)
    (parsed : Json) (confirmed : bool) (st st' : Storage) (backup : gmap string Json) :
  importParsed parse stringify toText accepts parsed confirmed st
    = (st', ImportComplete backup) →
  confirmed = true ∧ backup = snapshotCollapseData parse st ∧
  persistCollapseEntries stringify toText accepts
    (filterCollapseEntries (importedData parsed)) (removeCollapseData st) = (st', true).
Proof.
  unfold importParsed. intros H.
  destruct (negb (isObject parsed)); [discriminate H|].
  destruct (length _ =? 0)%nat; [discriminate H|].
  destruct confirmed; [|discriminate H].
  cbn [negb] in H.
  destruct (persistCollapseEntries _ _ _ _ _) as [st1 b].
  destruct b; [|discriminate H].
  by injection H as <- <-.
Qed.

(** X20.  Importing replaces the namespace and nothing else: once an import
    has completed, every key outside the namespace holds what it held
    before and the backup is the snapshot of the storage before the
    import; a key of the namespace holds nothing when the file has no
    entry for it, and otherwise a text of the last imported entry for
    it: its JSON text, which the storage then accepted, or its plain
    text, where the storage refused the JSON text and accepted the
    plain one.  Where the storage accepts every JSON text, it is the
    JSON text. *)
Theorem import_replaces_namespace (parse : string → option Json)
    (stringify toText : Json → string) (accepts : Storage → string → string → bool)
    (parsed : Json) (confirmed : bool) (st st' : Storage) (backup : gmap string Json) :
  importParsed parse stringify toText accepts parsed confirmed st
    = (st', ImportComplete backup) →
  backup = snapshotCollapseData parse st ∧
  (∀ k, isCollapseKey k = false → st' !! k = st !! k) ∧
  (∀ k, isCollapseKey k = true →
     match lastEntry k (objectEntries (importedData parsed)) with
     | None => st' !! k = None
     | Some v =>
         (st' !! k = Some (stringify v) ∧ ∃ st0, accepts st0 k (stringify v) = true) ∨
         (st' !! k = Some (toText v) ∧
          ∃ st0, accepts st0 k (stringify v) = false ∧ accepts st0 k (toText v) = true)
     end) ∧
  ((∀ st0 k v, accepts st0 k (stringify v) = true) →
   ∀ k, st' !! k = if isCollapseKey k
                   then stringify <$> lastEntry k (objectEntries (importedData parsed))
                   else st !! k).
Proof.
  intros H. apply importParsed_complete in H as (_ & -> & Hrun).
  assert (∀ k, lastEntry k (filterCollapseEntries (importedData parsed))
               = if isCollapseKey k
                 then lastEntry k (objectEntries (importedData parsed)) else None) as Hlast.
  { intros k. apply lastEntry_filter. }
  split_and!; [done| | |].
  - intros k Hk.
    rewrite (persistCollapseEntries_untouched _ _ _ _ _ _ _ k Hrun).
    + by rewrite removeCollapseData_lookup, Hk.
    + by rewrite Hlast, Hk.
  - intros k Hk. specialize (Hlast k). rewrite Hk in Hlast.
    destruct (lastEntry k (objectEntries (importedData parsed))) as [v|].
    + exact (persistCollapseEntries_written _ _ _ _ _ _ _ _ Hrun Hlast).
    + rewrite (persistCollapseEntries_untouched _ _ _ _ _ _ _ k Hrun Hlast).
      by rewrite removeCollapseData_lookup, Hk.
  - intros Hacc k.
    destruct (persistCollapseEntries_accepting stringify toText accepts
                (filterCollapseEntries (importedData parsed)) (removeCollapseData st) Hacc)
      as [_ Hlook].
    specialize (Hlook k). rewrite Hrun in Hlook. cbn [fst] in Hlook.
    rewrite Hlook, Hlast, removeCollapseData_lookup.
    destruct (isCollapseKey k); [|done].
    by destruct (lastEntry k _).
Qed.

Lemma sampleImport_entries :
  filterCollapseEntries (importedData sampleImport) = [("collapse.deck"%string, JStr "n1")].
Proof. by vm_compute. Qed.

Lemma sampleImport_completes :
  (persistCollapseEntries quoted plainText shortOnly
     (filterCollapseEntries (importedData sampleImport)) (removeCollapseData otherStorage)).2
  = true.
Proof. by vm_compute. Qed.

Lemma sampleImport_lastEntry :
  lastEntry "collapse.deck" (objectEntries (importedData sampleImport)) = Some (JStr "n1") ∧
  lastEntry "collapse.campaign" (objectEntries (importedData sampleImport)) = None.
Proof. by vm_compute. Qed.

Lemma shortOnly_quoted (st0 : Storage) (k : string) :
  shortOnly st0 k (quoted (JStr "n1")) = false.
Proof. done. Qed.

Lemma otherStorage_lang : otherStorage !! "lang"%string = Some "en"%string.
Proof. by vm_compute. Qed.

Lemma import_replaces_namespace_witness :
  let st' := (importParsed rejectAll quoted plainText shortOnly sampleImport true
                otherStorage).1 in
  st' !! "collapse.deck"%string = Some "n1"%string ∧
  st' !! "collapse.campaign"%string = None ∧
  st' !! "lang"%string = Some "en"%string.
Proof.
  intros st'. subst st'.
  assert (filterCollapseEntries (importedData sampleImport) ≠ []) as Hne.
  { rewrite sampleImport_entries. intros H. discriminate H. }
  pose proof (importParsed_confirmed rejectAll quoted plainText shortOnly sampleImport
                otherStorage eq_refl Hne) as Hrun.
  cbv zeta in Hrun. rewrite sampleImport_completes in Hrun.
  pose proof (import_replaces_namespace _ _ _ _ _ _ _ _ _ Hrun) as (_ & Hout & Hin & _).
  rewrite Hrun. cbn [fst].
  destruct sampleImport_lastEntry as [Hdeck Hcampaign].
  split_and!.
  - pose proof (Hin "collapse.deck"%string eq_refl) as H. rewrite Hdeck in H.
    destruct H as [[_ [st0 Hjson]]|[H _]]; [|exact H].
    rewrite shortOnly_quoted in Hjson. discriminate Hjson.
  - pose proof (Hin "collapse.campaign"%string eq_refl) as H. by rewrite Hcampaign in H.
  - rewrite (Hout "lang"%string eq_refl). exact otherStorage_lang.
Defined.

(** X21.  What reading a file can do to the storage.  A key outside the
    namespace is never changed.  A file that does not parse, is not an
    object or has no entry of the namespace, and a cancelled import,
    leave the whole storage as it was.  Past the confirmation the
    namespace is emptied before the entries are written: the import
    completes, or it fails on an entry that the storage refused both as
    JSON text and as plain text, and then a key of the namespace without
    an entry in the file holds nothing.  A storage that accepts every
    JSON text never fails that way.  Whenever the confirmation is asked
    the backup is the snapshot of the storage before the import. *)
Theorem handleFile_safe (parse : string → option Json) (stringify toText : Json → string)
    (accepts : Storage → string → string → bool)
    (fileText : string) (confirmed : bool) (st : Storage) :
  let r := handleFile parse stringify toText accepts fileText confirmed st in
  (∀ k, isCollapseKey k = false → r.1 !! k = st !! k) ∧
  match r.2 with
  | ImportFailed ParseError => r.1 = st
  | ImportFailed NotAnObject => r.1 = st
  | ImportFailed NoCollapseData => r.1 = st
  | ImportFailed WriteRefused =>
      confirmed = true ∧
      (∃ parsed, parse fileText = Some parsed ∧
         ∀ k, isCollapseKey k = true →
              lastEntry k (objectEntries (importedData parsed)) = None → r.1 !! k = None) ∧
      ∃ st0 k v, accepts st0 k (stringify v) = false ∧ accepts st0 k (toText v) = false
  | ImportCancelled backup =>
      confirmed = false ∧ backup = snapshotCollapseData parse st ∧ r.1 = st
  | ImportComplete backup =>
      confirmed = true ∧ backup = snapshotCollapseData parse st
  end ∧
  ((∀ st0 k v, accepts st0 k (stringify v) = true) → r.2 ≠ ImportFailed WriteRefused).
Proof.
  intros r. subst r. unfold handleFile.
  destruct (parse fileText) as [parsed|]; [|by split_and!].
  unfold importParsed.
  destruct (negb (isObject parsed)); [by split_and!|].
  destruct (length _ =? 0)%nat; [by split_and!|].
  destruct confirmed; [|by split_and!].
  cbn [negb].
  destruct (persistCollapseEntries stringify toText accepts
              (filterCollapseEntries (importedData parsed)) (removeCollapseData st))
    as [st' b] eqn:Hrun.
  assert (∀ k, lastEntry k (filterCollapseEntries (importedData parsed))
               = if isCollapseKey k
                 then lastEntry k (objectEntries (importedData parsed)) else None) as Hlast.
  { intros k. apply lastEntry_filter. }
  assert (∀ k, isCollapseKey k = false → st' !! k = st !! k) as Hout.
  { intros k Hk. rewrite (persistCollapseEntries_untouched _ _ _ _ _ _ _ k Hrun).
    - by rewrite removeCollapseData_lookup, Hk.
    - by rewrite Hlast, Hk. }
  destruct b; cbn [fst snd].
  - split_and!; [done|done|done|]. intros _ H. discriminate H.
  - split_and!; [done|done| | |].
    + exists parsed. split; [done|]. intros k Hk Hnone.
      rewrite (persistCollapseEntries_untouched _ _ _ _ _ _ _ k Hrun).
      * by rewrite removeCollapseData_lookup, Hk.
      * by rewrite Hlast, Hk.
    + apply persistCollapseEntries_refused in Hrun as (st0 & k & v & _ & H).
      by exists st0, k, v.
    + intros Hacc.
      apply persistCollapseEntries_refused in Hrun as (st0 & k & v & _ & Hjson & _).
      rewrite Hacc in Hjson. discriminate Hjson.
Qed.

(** A storage that takes no write: the confirmed import fails after the
    namespace has been emptied, and the data it held is in the backup
    file only. *)
Example refused_import_empties_namespace :
  let r := importParsed rejectAll quoted plainText refuseAll sampleImport true otherStorage in
  r.2 = ImportFailed WriteRefused ∧
  otherStorage !! "collapse.campaign"%string = Some "c0"%string ∧
  r.1 !! "collapse.campaign"%string = None ∧
  r.1 !! "collapse.deck"%string = None ∧
  r.1 !! "lang"%string = Some "en"%string.
Proof. by vm_compute. Qed.

(** X22.  A file that holds an array, or an object whose [data] is an
    array, is never imported: the names of an array are its indices,
    none of which is in the namespace, so the import fails with the
    no-data message and the storage is left as it was, whatever else the
    file holds. *)
Theorem import_array_fails (parse : string → option Json) (stringify toText : Json → string)
    (accepts : Storage → string → string → bool)
    (parsed : Json) (items : list Json) (confirmed : bool) (st : Storage) :
  parsed = JArr items ∨ getField "data" parsed = Some (JArr items) →
  importParsed parse stringify toText accepts parsed confirmed st
    = (st, ImportFailed NoCollapseData).
Proof.
  intros [->|Hdata].
  - unfold importParsed. cbn [isObject negb].
    change (importedData (JArr items)) with (JArr items).
    by rewrite filterCollapseEntries_array.
  - assert (importedData parsed = JArr items) as Himp.
    { unfold importedData. by rewrite Hdata. }
    assert (isObject parsed = true) as Hobj.
    { destruct parsed; try discriminate Hdata. done. }
    unfold importParsed. rewrite Hobj, Himp. cbn [negb].
    by rewrite filterCollapseEntries_array.
Qed.

Lemma arrayImport_data : getField "data" arrayImport = Some (JArr [JStr "a"]).
Proof. by vm_compute. Qed.

Lemma arrayImport_has_collapse_key :
  filterCollapseEntries arrayImport = [("collapse.deck"%string, JStr "n1")].
Proof. by vm_compute. Qed.

Lemma import_array_fails_witness :
  getField "data" arrayImport = Some (JArr [JStr "a"]) ∧
  importParsed rejectAll quoted plainText acceptAll arrayImport true otherStorage
    = (otherStorage, ImportFailed NoCollapseData).
Proof.
  split; [exact arrayImport_data|].
  apply (import_array_fails rejectAll quoted plainText acceptAll arrayImport [JStr "a"]).
  right. exact arrayImport_data.
Defined.

Lemma snapshot_empty_iff (parse : string → option Json) (st : Storage) :
  map_to_list (snapshotCollapseData parse st) = []
  ↔ ∀ k, isCollapseKey k = true → st !! k = None.
Proof.
  rewrite map_to_list_empty_iff. split.
  - intros Hemp k Hk.
    pose proof (snapshotCollapseData_lookup parse st k) as Hl.
    rewrite Hemp, lookup_empty, Hk in Hl. by destruct (st !! k).
  - intros Hnone. apply map_eq. intros k.
    rewrite snapshotCollapseData_lookup, lookup_empty.
    destruct (isCollapseKey k) eqn:Hk; [|done]. by rewrite Hnone.
Qed.

(** X23.  The snapshot holds exactly the namespace: a key has an entry in
    the snapshot when it starts with the prefix and is stored, its value
    being the stored text parsed, or the text itself when it does not
    parse; and the export is refused exactly when no stored key starts
    with the prefix, and otherwise carries the snapshot under [data]. *)
Theorem snapshot_exactly_namespace (parse : string → option Json) (meta : Json) (st : Storage) :
  (∀ k, snapshotCollapseData parse st !! k
        = if isCollapseKey k then parseOrRaw parse <$> st !! k else None) ∧
  (handleExportAll parse meta st = None ↔ ∀ k, isCollapseKey k = true → st !! k = None) ∧
  (∀ payload, handleExportAll parse meta st = Some payload →
     importedData payload = JObj (map_to_list (snapshotCollapseData parse st))).
Proof.
  split_and!.
  - apply snapshotCollapseData_lookup.
  - rewrite <- (snapshot_empty_iff parse). unfold handleExportAll. cbv zeta.
    destruct (map_to_list (snapshotCollapseData parse st)) as [|e l]; cbn [length Nat.eqb].
    + by split.
    + split; intros H; discriminate H.
  - intros payload. unfold handleExportAll. cbv zeta.
    destruct (length _ =? 0)%nat; [done|]. intros [= <-].
    unfold exportPayload, importedData, getField.
    cbn [list_to_map foldr uncurry fst snd].
    rewrite lookup_insert_ne by done. by rewrite lookup_insert_eq.
Qed.

Lemma importedData_export (meta : Json) (data : gmap string Json) :
  importedData (exportPayload meta data) = JObj (map_to_list data).
Proof.
  unfold exportPayload, importedData, getField.
  cbn [list_to_map foldr uncurry fst snd].
  rewrite lookup_insert_ne by done. by rewrite lookup_insert_eq.
Qed.

(** X24.  Export then import carries the namespace over: when every stored
    value of the namespace reads back the same after being written
    again, and the storage accepts every JSON text, importing with
    confirmation the export of one storage into any other storage
    completes, leaves there the snapshot of the first storage, keeps
    every key outside the namespace, and backs up the second storage's
    own snapshot. *)
Theorem export_import_roundtrip (parse : string → option Json)
    (stringify toText : Json → string) (accepts : Storage → string → string → bool)
    (meta payload : Json) (stA stB : Storage) :
  handleExportAll parse meta stA = Some payload →
  (∀ k raw, isCollapseKey k = true → stA !! k = Some raw →
     parseOrRaw parse (stringify (parseOrRaw parse raw)) = parseOrRaw parse raw) →
  (∀ st0 k v, accepts st0 k (stringify v) = true) →
  (importParsed parse stringify toText accepts payload true stB).2
    = ImportComplete (snapshotCollapseData parse stB) ∧
  snapshotCollapseData parse (importParsed parse stringify toText accepts payload true stB).1
    = snapshotCollapseData parse stA ∧
  ∀ k, isCollapseKey k = false →
       (importParsed parse stringify toText accepts payload true stB).1 !! k = stB !! k.
Proof.
  intros Hexp Hread Hacc.
  unfold handleExportAll in Hexp. cbv zeta in Hexp.
  destruct (map_to_list (snapshotCollapseData parse stA)) as [|[k0 v0] l] eqn:Hlist;
    [discriminate Hexp|].
  cbn in Hexp. injection Hexp as <-.
  assert (filterCollapseEntries (importedData (exportPayload meta (snapshotCollapseData parse stA)))
          ≠ []) as Hne.
  { rewrite importedData_export. unfold filterCollapseEntries. cbn [objectEntries].
    rewrite Hlist, filter_cons. cbn [fst].
    assert (isCollapseKey k0 = true) as Hk0.
    { assert (snapshotCollapseData parse stA !! k0 = Some v0) as Hl.
      { apply elem_of_map_to_list. rewrite Hlist. left. }
      rewrite snapshotCollapseData_lookup in Hl.
      by destruct (isCollapseKey k0). }
    by rewrite decide_True. }
  rewrite (importParsed_confirmed parse stringify toText accepts
             (exportPayload meta (snapshotCollapseData parse stA)) stB eq_refl Hne).
  cbv zeta.
  destruct (persistCollapseEntries_accepting stringify toText accepts
              (filterCollapseEntries
                 (importedData (exportPayload meta (snapshotCollapseData parse stA))))
              (removeCollapseData stB) Hacc) as [Hdone Hwritten].
  rewrite Hdone. cbn [fst snd].
  assert (∀ k, (persistCollapseEntries stringify toText accepts
                 (filterCollapseEntries
                    (importedData (exportPayload meta (snapshotCollapseData parse stA))))
                 (removeCollapseData stB)).1 !! k
               = if isCollapseKey k
                 then stringify <$> snapshotCollapseData parse stA !! k
                 else stB !! k) as Hlook.
  { intros k. rewrite Hwritten, importedData_export.
    unfold filterCollapseEntries. cbn [objectEntries].
    rewrite lastEntry_filter, lastEntry_map_to_list, removeCollapseData_lookup.
    destruct (isCollapseKey k); [|done].
    by destruct (snapshotCollapseData parse stA !! k). }
  split_and!.
  - done.
  - apply map_eq. intros k.
    rewrite (snapshotCollapseData_lookup parse (persistCollapseEntries _ _ _ _ _).1), Hlook.
    rewrite !snapshotCollapseData_lookup.
    destruct (isCollapseKey k) eqn:Hk; [|done].
    destruct (stA !! k) as [raw|] eqn:Hraw; [|done].
    cbn. f_equal. by apply (Hread k).
  - intros k Hk. by rewrite Hlook, Hk.
Qed.

Lemma sampleExport_run :
  handleExportAll rejectAll JNull sampleStorage
  = Some (exportPayload JNull {[ "collapse.deck"%string := JStr "d1";
                                 "collapse.hand"%string := JStr "h1" ]}).
Proof. by vm_compute. Qed.

Lemma export_import_roundtrip_witness :
  let payload := exportPayload JNull {[ "collapse.deck"%string := JStr "d1";
                                        "collapse.hand"%string := JStr "h1" ]} in
  handleExportAll rejectAll JNull sampleStorage = Some payload ∧
  snapshotCollapseData rejectAll
    (importParsed rejectAll plainText plainText acceptAll payload true otherStorage).1
    = snapshotCollapseData rejectAll sampleStorage.
Proof.
  intros payload. split; [exact sampleExport_run|].
  assert (∀ k raw, isCollapseKey k = true → sampleStorage !! k = Some raw →
            parseOrRaw rejectAll (plainText (parseOrRaw rejectAll raw))
            = parseOrRaw rejectAll raw) as Hread.
  { intros k raw _ _. reflexivity. }
  pose proof (export_import_roundtrip rejectAll plainText plainText acceptAll JNull payload
                sampleStorage otherStorage sampleExport_run Hread (λ _ _ _, eq_refl))
    as (_ & H & _).
  exact H.
Defined.

(** * File names of exports and backups *)

Lemma string_length_append (s1 s2 : string) :
  String.length (s1 ++ s2)%string = (String.length s1 + String.length s2)%nat.
Proof.
  induction s1 as [|a s1 IH]; [done|].
  change (String.length (String a (s1 ++ s2)%string)
          = S (String.length s1 + String.length s2)).
  cbn [String.length]. by rewrite IH.
Qed.

Lemma string_append_assoc (s1 s2 s3 : string) :
  ((s1 ++ s2) ++ s3 = s1 ++ (s2 ++ s3))%string.
Proof.
  induction s1 as [|a s1 IH]; [done|].
  change (String a ((s1 ++ s2) ++ s3) = String a (s1 ++ (s2 ++ s3)))%string.
  by rewrite IH.
Qed.

Lemma decimal_unfold (fuel : nat) (n : Z) :
  decimal (S fuel) n
  = if n <? 10 then String (digit n) EmptyString
    else (decimal fuel (n / 10) ++ String (digit (n mod 10)) EmptyString)%string.
Proof. done. Qed.

Lemma numberToString_small (n : Z) :
  0 <= n < 10 → numberToString n = String (digit n) EmptyString.
Proof.
  intros Hn. unfold numberToString.
  destruct (Z.ltb_spec n 0) as [?|_]; [lia|].
  rewrite decimal_unfold. by destruct (Z.ltb_spec n 10) as [_|?]; [|lia].
Qed.

Lemma numberToString_large (n : Z) :
  10 <= n →
  ∃ s, numberToString n
       = (s ++ String (digit (n / 10 mod 10)) (String (digit (n mod 10)) EmptyString))%string.
Proof.
  intros Hn. unfold numberToString.
  destruct (Z.ltb_spec n 0) as [?|_]; [lia|].
  rewrite decimal_unfold. destruct (Z.ltb_spec n 10) as [?|_]; [lia|].
  destruct (Z.to_nat n) as [|fuel] eqn:Hfuel; [lia|].
  rewrite decimal_unfold.
  assert (0 < n / 10) by (apply Z.div_str_pos; lia).
  destruct (Z.ltb_spec (n / 10) 10) as [Hlt|Hge].
  - exists EmptyString. rewrite (Z.mod_small (n / 10) 10) by lia. done.
  - exists (decimal fuel (n / 10 / 10)).
    by rewrite string_append_assoc.
Qed.

Lemma sliceLast2_append (s : string) (a b : Ascii.ascii) :
  sliceLast2 (s ++ String a (String b EmptyString)) = String a (String b EmptyString).
Proof.
  unfold sliceLast2. rewrite string_length_append.
  change (String.length (String a (String b ""))) with 2%nat.
  replace (String.length s + 2 - 2)%nat with (String.length s) by lia.
  induction s as [|c s IH]; [done|].
  change (String c s ++ String a (String b ""))%string
    with (String c (s ++ String a (String b "")))%string.
  exact IH.
Qed.

Lemma pad_twoDigits (n : Z) : 0 <= n < 100 → pad n = twoDigits n.
Proof.
  intros Hn. unfold pad, twoDigits.
  destruct (Z.ltb_spec n 10) as [Hlt|Hge].
  - rewrite numberToString_small by lia.
    rewrite (Z.div_small n 10), (Z.mod_small n 10) by lia. done.
  - destruct (numberToString_large n Hge) as [s Hs].
    assert (numberToString n
            = String (digit (n / 10)) (String (digit (n mod 10)) EmptyString)) as ->; [|done].
    unfold numberToString.
    destruct (Z.ltb_spec n 0) as [?|_]; [lia|].
    rewrite decimal_unfold. destruct (Z.ltb_spec n 10) as [?|_]; [lia|].
    destruct (Z.to_nat n) as [|fuel] eqn:Hfuel; [lia|].
    rewrite decimal_unfold.
    assert (0 <= n / 10 < 10) as Hq.
    { split; [apply Z.div_pos; lia|apply Z.div_lt_upper_bound; lia]. }
    by destruct (Z.ltb_spec (n / 10) 10) as [_|?]; [|lia].
Qed.

Lemma year_twoDigits (y : Z) :
  10 <= y → sliceLast2 (numberToString y) = twoDigits (y mod 100).
Proof.
  intros Hy. destruct (numberToString_large y Hy) as [s ->].
  rewrite sliceLast2_append. unfold twoDigits.
  replace (y mod 100 / 10) with (y / 10 mod 10).
  - replace (y mod 100 mod 10) with (y mod 10); [done|].
    pose proof (Z.div_mod y 100). pose proof (Z.mod_pos_bound y 100).
    pose proof (Z.div_mod y 10). pose proof (Z.mod_pos_bound y 10).
    pose proof (Z.div_mod (y mod 100) 10). pose proof (Z.mod_pos_bound (y mod 100) 10).
    lia.
  - pose proof (Z.div_mod y 100). pose proof (Z.mod_pos_bound y 100).
    pose proof (Z.div_mod y 10). pose proof (Z.mod_pos_bound y 10).
    pose proof (Z.div_mod (y / 10) 10). pose proof (Z.mod_pos_bound (y / 10) 10).
    pose proof (Z.div_mod (y mod 100) 10). pose proof (Z.mod_pos_bound (y mod 100) 10).
    lia.
Qed.

(** X25.  The stamps have a fixed width: for a date of the calendar, in a
    year of two digits or more, every field of both stamps is written
    with exactly two decimal digits (the month counted from 1, the year
    by its last two digits), so a file name is nineteen characters
    longer than its prefix. *)
Theorem stamps_fixed_width (filenamePrefix : string) (d : DateFields) :
  calendarDate d →
  formatMMDDYY d
    = (twoDigits (getMonth d + 1) ++ twoDigits (getDate d)
       ++ twoDigits (getFullYear d mod 100))%string ∧
  formatHHMMSS d
    = (twoDigits (getHours d) ++ twoDigits (getMinutes d)
       ++ twoDigits (getSeconds d))%string ∧
  String.length (exportFilename filenamePrefix d)
    = (String.length filenamePrefix + 19)%nat.
Proof.
  intros (Hm & Hd & Hy & Hh & Hmi & Hs).
  assert (formatMMDDYY d
          = (twoDigits (getMonth d + 1) ++ twoDigits (getDate d)
             ++ twoDigits (getFullYear d mod 100))%string) as Hdate.
  { unfold formatMMDDYY. cbv zeta.
    by rewrite !pad_twoDigits, year_twoDigits by lia. }
  assert (formatHHMMSS d
          = (twoDigits (getHours d) ++ twoDigits (getMinutes d)
             ++ twoDigits (getSeconds d))%string) as Htime.
  { unfold formatHHMMSS. by rewrite !pad_twoDigits by lia. }
  split_and!; [done|done|].
  unfold exportFilename. rewrite Hdate, Htime, !string_length_append.
  cbn. lia.
Qed.

Lemma stamps_fixed_width_witness :
  formatMMDDYY sampleDate = "110326"%string ∧
  formatHHMMSS sampleDate = "074358"%string ∧
  String.length (exportFilename "collapse-data" sampleDate) = 32%nat.
Proof.
  assert (calendarDate sampleDate) as Hd.
  { unfold calendarDate, sampleDate. cbn. lia. }
  exact (stamps_fixed_width "collapse-data" sampleDate Hd).
Defined.

(** * The counter controls of the builder *)

Lemma set_modifierCapacity_same (s : DeckBuilderState) :
  s = set_modifierCapacity (modifierCapacity s) s.
Proof. by destruct s. Qed.

Lemma click_locked (p : Props) (panel : CounterPanel) (ctl : Control) :
  isLocked (panelState panel) = true →
  ∃ cap, panelState (click p panel ctl) = set_modifierCapacity cap (panelState panel).
Proof.
  intros Hlock. unfold click, disabled.
  destruct ctl; cbn [onClick]; rewrite ?Hlock, ?orb_true_r; cbn [orb];
    try (exists (modifierCapacity (panelState panel)); apply set_modifierCapacity_same).
  - by eexists.
  - by eexists.
  - exists (modifierCapacity (panelState panel)).
    unfold handleBaseIncrement. rewrite Hlock. apply set_modifierCapacity_same.
  - exists (modifierCapacity (panelState panel)).
    unfold handleBaseContext. rewrite Hlock. apply set_modifierCapacity_same.
  - exists (modifierCapacity (panelState panel)).
    unfold handleModIncrement. rewrite Hlock. apply set_modifierCapacity_same.
  - exists (modifierCapacity (panelState panel)).
    unfold handleModContext. rewrite Hlock. apply set_modifierCapacity_same.
Qed.

Lemma clicks_locked (p : Props) (ctls : list Control) (panel : CounterPanel) :
  isLocked (panelState panel) = true →
  ∃ cap, panelState (clicks p ctls panel) = set_modifierCapacity cap (panelState panel).
Proof.
  intros Hlock. unfold clicks.
  induction ctls as [|ctl ctls IH] using rev_ind.
  - exists (modifierCapacity (panelState panel)). apply set_modifierCapacity_same.
  - rewrite foldl_app. cbn [foldl]. destruct IH as [cap IH].
    destruct (click_locked p (foldl (click p) panel ctls) ctl) as [cap' Hc].
    { by rewrite IH. }
    exists cap'. by rewrite Hc, IH.
Qed.

(** X26.  While the deck is locked the rendered controls cannot change the
    composition: after any sequence of clicks on the counter buttons,
    card tiles and removal prompts, every field of the builder state is
    what it was, except the modifier capacity, whose two buttons are not
    disabled by the lock and keep working. *)
Theorem locked_controls_keep_composition (p : Props) (ctls : list Control)
    (panel : CounterPanel) :
  isLocked (panelState panel) = true →
  panelState (clicks p ctls panel)
    = set_modifierCapacity (modifierCapacity (panelState (clicks p ctls panel)))
        (panelState panel) ∧
  modifierCapacity (panelState (clicks p [CapacityPlus] panel))
    = Z.max (modifierCapacity (panelState panel) + 1) 0.
Proof.
  intros Hlock. split.
  - destruct (clicks_locked p ctls panel Hlock) as [cap ->]. done.
  - done.
Qed.

Lemma lockedPanel_locked : isLocked (panelState lockedPanel) = true.
Proof. by vm_compute. Qed.

Lemma locked_controls_keep_composition_witness :
  let panel' := clicks sampleProps
                  [BaseTileTap "B1"; NullPlus; BasePrimaryPlus; CapacityPlus; ModRemoveAll]
                  lockedPanel in
  isLocked (panelState lockedPanel) = true ∧
  panelState panel'
    = set_modifierCapacity (modifierCapacity (panelState panel')) (panelState lockedPanel).
Proof.
  intros panel'. split; [exact lockedPanel_locked|].
  pose proof (locked_controls_keep_composition sampleProps
                [BaseTileTap "B1"; NullPlus; BasePrimaryPlus; CapacityPlus; ModRemoveAll]
                lockedPanel lockedPanel_locked) as [H _].
  exact H.
Defined.



(** X27.  Removing all copies of a base card through its prompt: on an
    unlocked builder, opening the prompt of a card that has copies and
    choosing Remove All closes the prompt and sets the count of the card
    to zero, lowering the base total by that count and leaving the other
    counts alone; unless the counters are not simple and the total would
    still exceed the base target afterwards, in which case the removal
    is refused and the builder state is left as it was. *)
Theorem remove_all_clears_card (p : Props) (cardId : string) (panel : CounterPanel) :
  isLocked (panelState panel) = false →
  0 < countOf (baseCounts (panelState panel)) cardId →
  let s := panelState panel in
  let c := countOf (baseCounts s) cardId in
  let panel' := clicks p [BaseTileContext cardId; BaseRemoveAll] panel in
  basePrompt panel' = None ∧
  if negb (simpleCounters p) && (sumCounts (baseCounts s) - c >? baseTarget p)
  then panelState panel' = s
  else panelState panel' = set_baseCounts (<[cardId := 0]> (baseCounts s)) s ∧
       sumCounts (baseCounts (panelState panel')) = sumCounts (baseCounts s) - c.
Proof.
  intros Hlock Hpos s c panel'. subst panel'.
  assert (click p panel (BaseTileContext cardId)
          = setBasePrompt (Some {| prompt_id := cardId; prompt_qty := c |}) panel) as Hopen.
  { unfold click. cbn [disabled onClick]. unfold handleBaseContext.
    rewrite Hlock. cbn [orb].
    destruct (Z.leb_spec (countOf (baseCounts (panelState panel)) cardId) 0) as [Hle|_];
      [lia|done]. }
  unfold clicks. cbn [foldl]. rewrite Hopen.
  unfold click. cbn [disabled panelState setBasePrompt]. rewrite Hlock.
  cbn [onClick]. unfold handleBaseRemoveAction.
  cbn [basePrompt setBasePrompt prompt_id panelState].
  fold s. fold c.
  destruct (Z.eqb_spec (- c) 0) as [Hz|_]; [subst c s; lia|].
  cbn [closeBasePrompt setBasePrompt setPanelState basePrompt panelState].
  split; [done|].
  unfold adjustBaseCount. cbv zeta. fold c.
  replace (c + - c) with 0 by lia.
  rewrite (clamp_inside 0 0) by lia.
  replace (sumCounts (baseCounts s) - c + 0) with (sumCounts (baseCounts s) - c) by lia.
  destruct (negb (simpleCounters p) && (sumCounts (baseCounts s) - c >? baseTarget p));
    [done|].
  split; [done|].
  cbn. rewrite sumCounts_insert. fold c. lia.
Qed.

Lemma tappedPanel_unlocked : isLocked (panelState tappedPanel) = false.
Proof. by vm_compute. Qed.

Lemma tappedPanel_count : countOf (baseCounts (panelState tappedPanel)) "B1" = 2.
Proof. by vm_compute. Qed.

Lemma remove_all_clears_card_witness :
  isLocked (panelState tappedPanel) = false ∧
  countOf (baseCounts (panelState tappedPanel)) "B1" = 2 ∧
  basePrompt (clicks sampleProps [BaseTileContext "B1"; BaseRemoveAll] tappedPanel) = None.
Proof.
  split_and!; [exact tappedPanel_unlocked | exact tappedPanel_count |].
  assert (0 < countOf (baseCounts (panelState tappedPanel)) "B1") as Hpos.
  { rewrite tappedPanel_count. lia. }
  pose proof (remove_all_clears_card sampleProps "B1" tappedPanel
                tappedPanel_unlocked Hpos) as H.
  cbv zeta in H. destruct H as [H _]. exact H.
Defined.

(** * Attaching a modifier to the active play *)

Lemma handCounts_snoc (hd : list HandEntry) (it : HandEntry) :
  handCounts (hd ++ [it])
  = <[hand_id it := countOf (handCounts hd) (hand_id it) + 1]> (handCounts hd).
Proof. unfold handCounts. by rewrite foldl_app. Qed.

Lemma copies_snoc (cardId x : string) (ids : list string) :
  copies cardId (ids ++ [x])
  = (copies cardId ids + if decide (x = cardId) then 1 else 0)%nat.
Proof.
  unfold copies. rewrite filter_app, length_app, filter_cons, filter_nil.
  by destruct (decide (x = cardId)).
Qed.

Lemma handCounts_copies (hd : list HandEntry) (cardId : string) :
  countOf (handCounts hd) cardId = Z.of_nat (copies cardId (map hand_id hd)).
Proof.
  induction hd as [|it hd IH] using rev_ind; [done|].
  rewrite handCounts_snoc, map_app. cbn [map]. rewrite copies_snoc.
  destruct (decide (hand_id it = cardId)) as [->|Hne].
  - rewrite countOf_insert_eq, IH. lia.
  - rewrite countOf_insert_ne, IH by done. lia.
Qed.

Lemma handCounts_positive (hd : list HandEntry) (cardId : string) (n : Z) :
  handCounts hd !! cardId = Some n → 0 < n.
Proof.
  revert n. induction hd as [|it hd IH] using rev_ind; intros n; [done|].
  rewrite handCounts_snoc.
  destruct (decide (hand_id it = cardId)) as [->|Hne].
  - rewrite lookup_insert_eq. intros [= <-].
    rewrite handCounts_copies. lia.
  - rewrite lookup_insert_ne by done. apply IH.
Qed.

(** X28.  Attaching never touches the cards: whatever [toggleAttach] does,
    [attachModifier] leaves the builder state and the lifecycle hooks
    as they are; the active play is handed to [toggleAttach] only for a
    modifier of the catalogue that is not the null card, while a base
    is selected, and otherwise stays as it is; and the hand counts that
    [toggleAttach] receives give for every card its number of copies in
    the hand, with no entry for a card that is not held. *)
Theorem attachModifier_guards
    (toggleAttach : ActivePlay → string → gmap string Z → gmap string Z → Z → ActivePlay)
    (p : Props) (cardId : string) (c : Component) :
  let c' := attachModifier toggleAttach p cardId c in
  builderState c' = builderState c ∧
  hasBuiltDeckHook c' = hasBuiltDeckHook c ∧
  hasShuffledDeckHook c' = hasShuffledDeckHook c ∧
  (activePlay c' = activePlay c ∨
   (isNullId p cardId = false ∧
    (∃ sel, activePlay c = Some sel ∧ baseId sel ≠ ""%string) ∧
    cardId ∈ map card_id (modCards p) ∧
    activePlay c' = toggleAttach (activePlay c) cardId (handCounts (hand (builderState c)))
                      (cardCosts p) (modifierCapacity (builderState c)))) ∧
  ∀ id, handCounts (hand (builderState c)) !! id
        = if decide (copies id (map hand_id (hand (builderState c))) = 0%nat) then None
          else Some (Z.of_nat (copies id (map hand_id (hand (builderState c))))).
Proof.
  intros c'. subst c'. unfold attachModifier.
  split_and!.
  - destruct (isNullId p cardId); [done|].
    destruct (match activePlay c with Some sel => falsy (baseId sel) | None => true end);
      [done|].
    by destruct (negb (bool_decide (cardId ∈ map card_id (modCards p)))).
  - destruct (isNullId p cardId); [done|].
    destruct (match activePlay c with Some sel => falsy (baseId sel) | None => true end);
      [done|].
    by destruct (negb (bool_decide (cardId ∈ map card_id (modCards p)))).
  - destruct (isNullId p cardId); [done|].
    destruct (match activePlay c with Some sel => falsy (baseId sel) | None => true end);
      [done|].
    by destruct (negb (bool_decide (cardId ∈ map card_id (modCards p)))).
  - destruct (isNullId p cardId); [by left|].
    destruct (activePlay c) as [sel|] eqn:Hsel; [|by left].
    unfold falsy. case_bool_decide as Hbase; [by left|].
    case_bool_decide as Hmod; [|by left].
    right. split_and!; [done| |done|done]. by exists sel.
  - intros id.
    pose proof (handCounts_copies (hand (builderState c)) id) as Hc.
    unfold countOf in Hc.
    destruct (handCounts (hand (builderState c)) !! id) as [n|] eqn:Hn.
    + apply handCounts_positive in Hn. cbn in Hc.
      rewrite decide_False by lia. by rewrite <- Hc.
    + cbn in Hc. rewrite decide_True by lia. done.
Qed.

(** * The grouped discard list *)

Lemma discardGroups_snoc (dz : list DiscardEntry) (d : DiscardEntry) :
  discardGroups (dz ++ [d])
  = let g := default {| group_count := 0; group_idxs := [] |}
                     (discardGroups dz !! discard_id d) in
    <[discard_id d := {| group_count := group_count g + 1;
                         group_idxs := group_idxs g ++ [length dz] |}]> (discardGroups dz).
Proof.
  unfold discardGroups. rewrite imap_app, foldl_app. cbn [imap foldl].
  by rewrite Nat.add_0_r.
Qed.

Lemma positions_snoc (cardId : string) (dz : list DiscardEntry) (d : DiscardEntry) :
  positions cardId (dz ++ [d])
  = positions cardId dz ++ if decide (discard_id d = cardId) then [length dz] else [].
Proof.
  unfold positions. rewrite imap_app, filter_app, fmap_app. cbn [imap].
  rewrite filter_cons, filter_nil, Nat.add_0_r. cbn [snd].
  by destruct (decide (discard_id d = cardId)).
Qed.

Lemma discardGroups_lookup (dz : list DiscardEntry) (cardId : string) :
  discardGroups dz !! cardId
  = if decide (positions cardId dz = []) then None
    else Some {| group_count := Z.of_nat (length (positions cardId dz));
                 group_idxs := positions cardId dz |}.
Proof.
  induction dz as [|d dz IH] using rev_ind; [done|].
  rewrite discardGroups_snoc, positions_snoc. cbv zeta.
  destruct (decide (discard_id d = cardId)) as [Heq|Hne].
  - rewrite Heq, lookup_insert_eq, IH.
    destruct (decide (positions cardId dz ++ [length dz] = [])) as [H|_].
    { apply app_eq_nil in H as [_ H]. discriminate H. }
    destruct (decide (positions cardId dz = [])) as [->|Hpos]; cbn.
    + done.
    + f_equal. f_equal. rewrite length_app. cbn. lia.
  - rewrite lookup_insert_ne by done. by rewrite app_nil_r.
Qed.

Lemma positions_length (cardId : string) (dz : list DiscardEntry) :
  length (positions cardId dz) = copies cardId (map discard_id dz).
Proof.
  induction dz as [|d dz IH] using rev_ind; [done|].
  rewrite positions_snoc, map_app. cbn [map]. rewrite copies_snoc, length_app, IH.
  by destruct (decide (discard_id d = cardId)).
Qed.

Lemma positions_elem (cardId : string) (dz : list DiscardEntry) (i : nat) :
  i ∈ positions cardId dz ↔ discard_id <$> dz !! i = Some cardId.
Proof.
  unfold positions. rewrite list_elem_of_fmap. split.
  - intros [[j d] [-> [Hd Hin]%list_elem_of_filter]]. cbn [fst snd] in *.
    apply elem_of_lookup_imap in Hin as (k & y & [= -> ->] & Hk).
    by rewrite Hk, <- Hd.
  - intros Hi. destruct (dz !! i) as [d|] eqn:Hd; [|discriminate Hi].
    injection Hi as Hi. exists (i, d). split; [done|].
    apply list_elem_of_filter. split; [done|].
    by apply (elem_of_lookup_imap_2 (λ i d, (i, d))).
Qed.

(** X29.  The grouped discard list shows each card once with its number of
    copies: a card has a group exactly when the discard pile holds it,
    the count of the group is its number of copies in the pile, and the
    indices of the group are exactly the positions of its copies, so
    the counts of all rows add up to the size of the pile. *)
Theorem discardGroups_counts (dz : list DiscardEntry) (cardId : string) :
  match discardGroups dz !! cardId with
  | Some g =>
      group_count g = Z.of_nat (copies cardId (map discard_id dz)) ∧
      0 < group_count g ∧
      length (group_idxs g) = copies cardId (map discard_id dz) ∧
      ∀ i, i ∈ group_idxs g ↔ discard_id <$> dz !! i = Some cardId
  | None => copies cardId (map discard_id dz) = 0%nat
  end.
Proof.
  rewrite discardGroups_lookup.
  destruct (decide (positions cardId dz = [])) as [Hnil|Hpos].
  - by rewrite <- positions_length, Hnil.
  - cbn [group_count group_idxs]. rewrite positions_length.
    split_and!; [done| |done|apply positions_elem].
    rewrite <- positions_length. destruct (positions cardId dz); [done|]. cbn. lia.
Qed.
